(** * GlyphEngine: the procedural board generator

    A shallow embedding of [src/maps/procedural_board.py] (class
    [ProceduralBoard]) and the properties of its carving algorithm.

    Modelling conventions.
    - Python integers are unbounded: [Z].  A cell [[row, column]] is a pair;
      the [[]] that [foundUnvisitedCell] returns for "none" is [None].
    - The board is a list of rows, each a list of one-character strings
      ([ascii]).  Rows are distinct list objects (no two rows alias).
    - Subscripting follows Python: an index in [[-len, 0)] counts from the
      end, anything outside [[-len, len)] raises [IndexError].
    - The object's attributes and the module-level generator of [random]
      live in one record, [world]; every method is a function in a small
      state-and-exception monad over it.
    - [currentCell] is a list object that [move] updates in place.  It is
      never shared with an entry of the stack ([move] appends a copy, and
      the entry the inner loop takes as cursor has been popped), so the
      cursor is a value handed from call to call.
    - [random] is modelled by the sequence of raw numbers it will deliver,
      [gen], and the number already consumed, [draws]; [randint] and
      [choice] reduce the next raw number into their range, and [randint]
      raises [ValueError] on an empty range as the library does.
    - [while] loops take fuel; when it runs out the outcome is [Timeout],
      carrying the state reached so far.  The main loop has its own bound,
      [rounds], so that the number of its passes can be stated.
    - [log] is a ghost trace: it records board subscripts, cursor updates and
      stack operations, and nothing in the program reads it.
    - Where the source repeats a block ([if ... elif ...] per direction) the
      block is one definition ([probe], [peek], [shift]); the bodies of the
      loops ([backtrackStep], [iteration]) and the two halves of
      [procedurelyGeneratedBoard] ([chooseStart], [carve]) are named so that
      properties can be stated about them. *)

From Stdlib Require Import ZArith Ascii String Lia Sorted.
From stdpp Require Import base tactics option list list_numbers.

Local Open Scope Z_scope.

(** ** Data *)

Definition cell : Type := Z * Z.

(** [InvalidDimensions] is the error kind the specification names; no
    statement of the generator raises it. *)
Inductive exn : Type :=
| IndexError
| ValueError
| InvalidDimensions.

Inductive event : Type :=
| Read (r c : Z)
| Write (r c : Z) (ch : ascii)
| Cursor (p : cell)
| Push (p : cell)
| Pop (p : cell).

Record world : Type := World {
  board : list (list ascii);
  boardWidth : Z;
  boardHeight : Z;
  finished : bool;
  path : list cell;
  isBacktracking : bool;
  seed : option Z;
  gen : nat -> Z;
  draws : nat;
  log : list event
}.

Definition set_board (b : list (list ascii)) (w : world) : world :=
  World b (boardWidth w) (boardHeight w) (finished w) (path w)
        (isBacktracking w) (seed w) (gen w) (draws w) (log w).

Definition set_finished (f : bool) (w : world) : world :=
  World (board w) (boardWidth w) (boardHeight w) f (path w)
        (isBacktracking w) (seed w) (gen w) (draws w) (log w).

Definition set_path (p : list cell) (w : world) : world :=
  World (board w) (boardWidth w) (boardHeight w) (finished w) p
        (isBacktracking w) (seed w) (gen w) (draws w) (log w).

Definition set_isBacktracking (f : bool) (w : world) : world :=
  World (board w) (boardWidth w) (boardHeight w) (finished w) (path w)
        f (seed w) (gen w) (draws w) (log w).

Definition set_draws (n : nat) (w : world) : world :=
  World (board w) (boardWidth w) (boardHeight w) (finished w) (path w)
        (isBacktracking w) (seed w) (gen w) n (log w).

Definition add_log (evs : list event) (w : world) : world :=
  World (board w) (boardWidth w) (boardHeight w) (finished w) (path w)
        (isBacktracking w) (seed w) (gen w) (draws w) (log w ++ evs).

(** ** Python list subscripts *)

Definition py_index (n i : Z) : option nat :=
  if (0 <=? i) && (i <? n) then Some (Z.to_nat i)
  else if (- n <=? i) && (i <? 0) then Some (Z.to_nat (n + i))
  else None.

Definition getitem {A : Type} (l : list A) (i : Z) : option A :=
  match py_index (Z.of_nat (length l)) i with
  | Some k => l !! k
  | None => None
  end.

Definition setitem {A : Type} (l : list A) (i : Z) (x : A) : option (list A) :=
  match py_index (Z.of_nat (length l)) i with
  | Some k => Some (<[k:=x]> l)
  | None => None
  end.

(** [range(n)] *)
Definition range (n : Z) : list Z := seqZ 0 n.

(** ** The monad *)

Inductive outcome (A : Type) : Type :=
| Done (a : A) (w : world)
| Raise (e : exn) (w : world)
| Timeout (w : world).

Arguments Done {A} a w.
Arguments Raise {A} e w.
Arguments Timeout {A} w.

Definition M (A : Type) : Type := world -> outcome A.

Definition ret {A : Type} (a : A) : M A := fun w => Done a w.

Definition bind {A B : Type} (m : M A) (k : A -> M B) : M B :=
  fun w =>
    match m w with
    | Done a w' => k a w'
    | Raise e w' => Raise e w'
    | Timeout w' => Timeout w'
    end.

Definition raise {A : Type} (e : exn) : M A := fun w => Raise e w.
Definition timeout {A : Type} : M A := fun w => Timeout w.
Definition gets {A : Type} (f : world -> A) : M A := fun w => Done (f w) w.
Definition modify (f : world -> world) : M unit := fun w => Done tt (f w).
Definition emit (ev : event) : M unit := modify (add_log [ev]).

Declare Scope gen_scope.
Delimit Scope gen_scope with gen.
Notation "x <- m ;; k" := (bind m (fun x => k))
  (at level 100, m at next level, k at level 200, right associativity) : gen_scope.
Notation "m ;; k" := (bind m (fun _ => k))
  (at level 100, k at level 200, right associativity) : gen_scope.
Local Open Scope gen_scope.

(** [for x in l: body] *)
Fixpoint forEach {A : Type} (l : list A) (body : A -> M unit) : M unit :=
  match l with
  | [] => ret tt
  | x :: l' => body x;; forEach l' body
  end.

(** [for x in l: body], where the body may [return] a value out of the
    enclosing function ([Some v]). *)
Fixpoint forEachUntil {A R : Type} (l : list A) (body : A -> M (option R))
  : M (option R) :=
  match l with
  | [] => ret None
  | x :: l' =>
      r <- body x;;
      match r with
      | Some v => ret (Some v)
      | None => forEachUntil l' body
      end
  end.

(** ** The [random] module *)

(** [random.randint(lo, hi)]: an empty range raises [ValueError]. *)
Definition randint (lo hi : Z) : M Z :=
  fun w =>
    if hi <? lo then Raise ValueError w
    else Done (lo + gen w (draws w) mod (hi - lo + 1))
              (set_draws (S (draws w)) w).

(** [random.choice(l)]: an empty sequence raises [IndexError]. *)
Definition choice {A : Type} (l : list A) : M A :=
  fun w =>
    match l with
    | [] => Raise IndexError w
    | _ =>
        match l !! Z.to_nat (gen w (draws w) mod Z.of_nat (length l)) with
        | Some x => Done x (set_draws (S (draws w)) w)
        | None => Raise IndexError w
        end
    end.

(** ** Board subscripts *)

(** [self.board[r][c]] *)
Definition load (r c : Z) : M ascii :=
  emit (Read r c);;
  b <- gets board;;
  match getitem b r with
  | Some row =>
      match getitem row c with
      | Some x => ret x
      | None => raise IndexError
      end
  | None => raise IndexError
  end.

(** [self.board[r][c] = ch] *)
Definition store (r c : Z) (ch : ascii) : M unit :=
  emit (Write r c ch);;
  b <- gets board;;
  match py_index (Z.of_nat (length b)) r with
  | Some k =>
      match b !! k with
      | Some row =>
          match setitem row c ch with
          | Some row' => modify (set_board (<[k:=row']> b))
          | None => raise IndexError
          end
      | None => raise IndexError
      end
  | None => raise IndexError
  end.

(** ** Methods of [ProceduralBoard] *)

Definition getBoard : M (list (list ascii)) := gets board.

(** [self.board[r][c] == character or self.board[r][c] == 'O'] *)
Definition occupied (r c : Z) (character : ascii) : M bool :=
  x <- load r c;;
  if (x =? character)%char then ret true
  else y <- load r c;; ret (y =? "O")%char.

(** One [if outside: append(d) elif occupied: append(d)] block. *)
Definition probe (outside : bool) (r c : Z) (character : ascii) (d : Z)
  (blockedDirections : list Z) : M (list Z) :=
  if outside then ret (blockedDirections ++ [d])
  else
    o <- occupied r c character;;
    ret (if o then blockedDirections ++ [d] else blockedDirections).

Definition getBlockedDirections (currentCell : cell) (character : ascii)
  : M (list Z) :=
  let '(r, c) := currentCell in
  h <- gets boardHeight;;
  b0 <- probe (r + 1 >=? h) (r + 1) c character 0 [];;
  b1 <- probe (r - 1 <? 0) (r - 1) c character 1 b0;;
  wd <- gets boardWidth;;
  b2 <- probe (c + 1 >=? wd) r (c + 1) character 2 b1;;
  b3 <- probe (c - 1 <? 0) r (c - 1) character 3 b2;;
  ret b3.

(** One [if inside: if self.board[r][c] == '.': append([r, c])] block. *)
Definition peek (inside : bool) (r c : Z) (unvisitedCells : list cell)
  : M (list cell) :=
  if inside then
    x <- load r c;;
    ret (if (x =? ".")%char then unvisitedCells ++ [(r, c)]
         else unvisitedCells)
  else ret unvisitedCells.

(** The result is [None] for Python's [[]]. *)
Definition foundUnvisitedCell (currentCell : cell) : M (option cell) :=
  let '(r, c) := currentCell in
  h <- gets boardHeight;;
  u0 <- peek (r + 1 <? h) (r + 1) c [];;
  u1 <- peek (r - 1 >=? 0) (r - 1) c u0;;
  wd <- gets boardWidth;;
  u2 <- peek (c + 1 <? wd) r (c + 1) u1;;
  u3 <- peek (c - 1 >=? 0) r (c - 1) u2;;
  match u3 with
  | [] => ret None
  | _ => x <- choice u3;; ret (Some x)
  end.

Definition moveToSpecificCell (currentCell : cell) (character : ascii)
  : M unit :=
  store (fst currentCell) (snd currentCell) character.

Definition checkIfThereAreNoMoreDotsInTheBoard : M bool :=
  h <- gets boardHeight;;
  r <- forEachUntil (range h) (fun i =>
         wd <- gets boardWidth;;
         forEachUntil (range wd) (fun j =>
           x <- load i j;;
           ret (if (x =? ".")%char then Some false else None)));;
  ret (match r with Some v => v | None => true end).

Definition polishCell (i j : Z) : M unit :=
  x <- load i j;;
  (if (x =? "X")%char then store i j "#" else ret tt);;
  y <- load i j;;
  (if (y =? "O")%char then store i j "." else ret tt).

Definition polishBoard : M unit :=
  h <- gets boardHeight;;
  forEach (range h) (fun i =>
    wd <- gets boardWidth;;
    forEach (range wd) (fun j => polishCell i j)).

(** [while randomDirection in blockedDirections: randomDirection = randint(0, 3)] *)
Fixpoint redraw (fuel : nat) (blockedDirections : list Z)
  (randomDirection : Z) : M Z :=
  if existsb (Z.eqb randomDirection) blockedDirections then
    match fuel with
    | O => timeout
    | S fuel' => d <- randint 0 3;; redraw fuel' blockedDirections d
    end
  else ret randomDirection.

(** One [if randomDirection == d: self.board[r'][c'] = character;
    currentCell[..] += ..] block; [currentCell] is updated in place, so the
    new cursor is handed back to the caller. *)
Definition shift (taken : bool) (target : cell) (character : ascii)
  (currentCell : cell) : M cell :=
  if taken then
    store (fst target) (snd target) character;;
    emit (Cursor target);;
    ret target
  else ret currentCell.

(** Lines 132-148: the four [if randomDirection == d] blocks and the push
    of the new cursor. *)
Definition advance (randomDirection : Z) (currentCell : cell)
  (character : ascii) : M cell :=
  c1 <- shift (randomDirection =? 0) (fst currentCell + 1, snd currentCell)
          character currentCell;;
  c2 <- shift (randomDirection =? 1) (fst c1 - 1, snd c1) character c1;;
  c3 <- shift (randomDirection =? 2) (fst c2, snd c2 + 1) character c2;;
  c4 <- shift (randomDirection =? 3) (fst c3, snd c3 - 1) character c3;;
  modify (fun w => set_path (path w ++ [c4]) w);;
  emit (Push c4);;
  ret c4.

Definition move (fuel : nat) (currentCell : cell)
  (blockedDirections : list Z) (character : ascii) : M cell :=
  if Z.of_nat (length blockedDirections) <? 4 then
    d0 <- randint 0 3;;
    d <- redraw fuel blockedDirections d0;;
    advance d currentCell character
  else ret currentCell.

(** The body of the inner [while self.isBacktracking and len(self.path) > 0]. *)
Definition backtrackStep : M cell :=
  p <- gets path;;
  match getitem p (Z.of_nat (length p) - 1) with
  | None => raise IndexError
  | Some top =>
      emit (Cursor top);;
      modify (fun w => set_path (removelast (path w)) w);;
      emit (Pop top);;
      moveToSpecificCell top "O";;
      unvisitedCell <- foundUnvisitedCell top;;
      match unvisitedCell with
      | Some u =>
          emit (Cursor u);;
          moveToSpecificCell u "X";;
          modify (set_isBacktracking false);;
          ret u
      | None => ret top
      end
  end.

Fixpoint backtrackLoop (fuel : nat) (currentCell : cell) : M cell :=
  bt <- gets isBacktracking;;
  p <- gets path;;
  if bt && (0 <? Z.of_nat (length p)) then
    match fuel with
    | O => timeout
    | S fuel' => c <- backtrackStep;; backtrackLoop fuel' c
    end
  else ret currentCell.

(** One pass through the body of [while not self.finished]; the cursor it
    leaves is handed back. *)
Definition iteration (fuel : nat) (currentCell : cell) : M cell :=
  c1 <- backtrackLoop fuel currentCell;;
  bt <- gets isBacktracking;;
  p <- gets path;;
  if bt && (Z.of_nat (length p) =? 0) then
    modify (set_finished true);;
    ret c1
  else
    blockedDirections <- getBlockedDirections c1 "X";;
    (if Z.of_nat (length blockedDirections) =? 4
     then modify (set_isBacktracking true) else ret tt);;
    c2 <- move fuel c1 blockedDirections "X";;
    nodots <- checkIfThereAreNoMoreDotsInTheBoard;;
    (if nodots then modify (set_finished true) else ret tt);;
    ret c2.

(** [while not self.finished]: [rounds] bounds the passes through the body,
    [fuel] the passes of each inner [while]. *)
Fixpoint mainLoop (rounds fuel : nat) (currentCell : cell) : M cell :=
  fin <- gets finished;;
  if fin then ret currentCell
  else
    match rounds with
    | O => timeout
    | S rounds' =>
        c <- iteration fuel currentCell;;
        mainLoop rounds' fuel c
    end.

(** Lines 22-23: the start cell. *)
Definition chooseStart : M cell :=
  h <- gets boardHeight;;
  r <- randint 0 (h - 1);;
  wd <- gets boardWidth;;
  c <- randint 0 (wd - 1);;
  emit (Cursor (r, c));;
  store r c "X";;
  ret (r, c).

(** Lines 22-57: everything before the finalization pass. *)
Definition carve (rounds fuel : nat) : M cell :=
  start <- chooseStart;;
  mainLoop rounds fuel start.

Definition procedurelyGeneratedBoard (rounds fuel : nat) : M unit :=
  _ <- carve rounds fuel;;
  fin <- gets finished;;
  if fin then
    polishBoard;;
    _ <- getBoard;;
    ret tt
  else ret tt.

(** ** Construction *)

Section Seeding.

(** [seeded s] is the sequence of raw numbers the generator delivers after
    [random.seed(s)]. *)
Variable seeded : Z -> nat -> Z.

(** [ProceduralBoard(board, boardWidth, boardHeight, seed)], called when
    the module-level generator is about to deliver [ambient] from position
    [used] on. *)
Definition init (ambient : nat -> Z) (used : nat)
  (b : list (list ascii)) (boardWidth boardHeight : Z) (sd : option Z)
  : world :=
  match sd with
  | Some s => World b boardWidth boardHeight false [] false sd (seeded s) 0 []
  | None => World b boardWidth boardHeight false [] false sd ambient used []
  end.

(** Construct, generate, and read the board back. *)
Definition generate (ambient : nat -> Z) (used : nat)
  (b : list (list ascii)) (boardWidth boardHeight : Z) (sd : option Z)
  (rounds fuel : nat) : outcome (list (list ascii)) :=
  (procedurelyGeneratedBoard rounds fuel;; getBoard)
    (init ambient used b boardWidth boardHeight sd).

End Seeding.

(** A fresh grid: every cell unvisited. *)
Definition blank (boardWidth boardHeight : Z) : list (list ascii) :=
  replicate (Z.to_nat boardHeight) (replicate (Z.to_nat boardWidth) "."%char).

(** ** Vocabulary of the properties *)

(** [p] lies in a grid of [W] columns and [H] rows. *)
Definition inb (W H : Z) (p : cell) : Prop :=
  0 <= fst p < H /\ 0 <= snd p < W.

(** The board has exactly [H] rows of [W] cells. *)
Definition wfb (W H : Z) (b : list (list ascii)) : Prop :=
  length b = Z.to_nat H /\ Forall (fun row => length row = Z.to_nat W) b.

(** The character at a cell (a blank outside the board). *)
Definition cellOf (b : list (list ascii)) (p : cell) : ascii :=
  match b !! Z.to_nat (fst p) with
  | Some row =>
      match row !! Z.to_nat (snd p) with
      | Some x => x
      | None => " "%char
      end
  | None => " "%char
  end.

(** The board with the character at one cell replaced. *)
Definition put (b : list (list ascii)) (p : cell) (ch : ascii)
  : list (list ascii) :=
  match b !! Z.to_nat (fst p) with
  | Some row => <[Z.to_nat (fst p) := <[Z.to_nat (snd p) := ch]> row]> b
  | None => b
  end.

(** Neither carved nor sealed. *)
Definition free (x : ascii) : bool :=
  negb (x =? "X")%char && negb (x =? "O")%char.

(** The number of cells that are neither carved nor sealed. *)
Definition unmarked (b : list (list ascii)) : nat :=
  length (List.filter free (concat b)).

(** The neighbour of [p] in direction [d]: 0 down, 1 up, 2 right, 3 left. *)
Definition target (p : cell) (d : Z) : cell :=
  if d =? 0 then (fst p + 1, snd p)
  else if d =? 1 then (fst p - 1, snd p)
  else if d =? 2 then (fst p, snd p + 1)
  else (fst p, snd p - 1).

Definition inbb (W H : Z) (p : cell) : bool :=
  (0 <=? fst p) && (fst p <? H) && (0 <=? snd p) && (snd p <? W).

(** Direction [d] from [p] leaves the grid or leads to a cell holding
    [character] or ['O']. *)
Definition taken (b : list (list ascii)) (character : ascii) (q : cell)
  : bool :=
  (cellOf b q =? character)%char || (cellOf b q =? "O")%char.

Definition dirBlocked (W H : Z) (b : list (list ascii)) (character : ascii)
  (p : cell) (d : Z) : bool :=
  negb (inbb W H (target p d)) || taken b character (target p d).

Definition blockedList (W H : Z) (b : list (list ascii)) (character : ascii)
  (p : cell) : list Z :=
  List.filter (dirBlocked W H b character p) [0; 1; 2; 3].

(** What the finalization pass makes of a character. *)
Definition polished (x : ascii) : ascii :=
  if (x =? "X")%char then "#"%char
  else if (x =? "O")%char then "."%char
  else x.

(** The board's dimensions in the object agree with the buffer. *)
Definition wfw (W H : Z) (w : world) : Prop :=
  boardWidth w = W /\ boardHeight w = H /\ wfb W H (board w).

(** Every direction keeps turning up among the raw numbers. *)
Definition fair (g : nat -> Z) : Prop :=
  forall (n : nat) (d : Z), 0 <= d < 4 -> exists k : nat, g (n + k)%nat mod 4 = d.

(** The outcome is a result satisfying [Q] or a timeout in a state
    satisfying [T]; nothing is raised. *)
Definition post {A : Type} (o : outcome A) (Q : A -> world -> Prop)
  (T : world -> Prop) : Prop :=
  match o with
  | Done a w => Q a w
  | Raise _ _ => False
  | Timeout w => T w
  end.

(** [o2] is [o1], or [o1] ran out of fuel. *)
Definition refines {A : Type} (o1 o2 : outcome A) : Prop :=
  match o1 with
  | Timeout _ => True
  | _ => o1 = o2
  end.

Definition never (w : world) : Prop := False.

(** The cell the two draws of lines 22 pick, read off the raw numbers. *)
Definition startCell (w : world) : cell :=
  (0 + gen w (draws w) mod (boardHeight w - 1 - 0 + 1),
   0 + gen w (S (draws w)) mod (boardWidth w - 1 - 0 + 1)).

(** A freshly constructed object over a buffer of matching dimensions. *)
Definition ready (W H : Z) (w : world) : Prop :=
  wfw W H w /\ 1 <= W /\ 1 <= H /\ finished w = false
  /\ isBacktracking w = false /\ path w = [] /\ log w = [].

Definition isCarve (e : event) : bool :=
  match e with Write _ _ ch => (ch =? "X")%char | _ => false end.

Definition isPop (e : event) : bool :=
  match e with Pop _ => true | _ => false end.

(** Cells marked ['X'] so far (the start cell included). *)
Definition carveCount (evs : list event) : nat :=
  length (List.filter isCarve evs).

(** Stack entries popped so far. *)
Definition popCount (evs : list event) : nat :=
  length (List.filter isPop evs).

(** Carve and backtrack steps so far: cells carved after the start cell,
    and pops. *)
Definition stepCount (evs : list event) : nat :=
  (carveCount evs - 1 + popCount evs)%nat.

(** From [w] to [w'] the run ended, or a cell was carved, or the stack
    shrank. *)
Definition productive (w w' : world) : Prop :=
  finished w' = true
  \/ (unmarked (board w') < unmarked (board w))%nat
  \/ (length (path w') < length (path w))%nat.

(** The raw numbers [l], then zeros. *)
Definition script (l : list Z) : nat -> Z := fun n => nth n l 0.

(** The raw numbers 0, 1, 2, ... *)
Definition counting : nat -> Z := fun n => Z.of_nat n.

(** Every position an event mentions lies in the grid. *)
Definition ev_inb (W H : Z) (e : event) : Prop :=
  match e with
  | Read r c | Write r c _ => inb W H (r, c)
  | Cursor p | Push p | Pop p => inb W H p
  end.

(** The event leaves the cell [s] carved and off the stack. *)
Definition ev_keeps (s : cell) (e : event) : Prop :=
  match e with
  | Write r c ch => (r, c) = s -> ch = "X"%char
  | Push p | Pop p => p <> s
  | Read _ _ | Cursor _ => True
  end.

(** The bookkeeping of steps: every carve used up an unmarked cell, and
    every stack entry, popped or not, was carved after the start cell. *)
Definition counted (W H : Z) (w : world) : Prop :=
  (carveCount (log w) + unmarked (board w) <= Z.to_nat (W * H))%nat
  /\ (popCount (log w) + length (path w) + 1 <= carveCount (log w))%nat.

Record Inv (W H : Z) (s : cell) (allowed : ascii -> Prop) (g : nat -> Z)
  (w : world) : Prop := {
  inv_wf : wfw W H w;
  inv_gen : gen w = g;
  inv_start : inb W H s /\ cellOf (board w) s = "X"%char;
  inv_path : Forall (fun p => inb W H p /\ cellOf (board w) p = "X"%char
                              /\ p <> s) (path w);
  inv_nodup : NoDup (path w);
  inv_log : Forall (fun e => ev_inb W H e /\ ev_keeps s e) (log w);
  inv_alpha : forall p, inb W H p -> allowed (cellOf (board w) p);
  inv_count : counted W H w
}.

(** Events that are reads inside the grid. *)
Definition reads (W H : Z) (evs : list event) : Prop :=
  Forall (fun e => exists r c, e = Read r c /\ inb W H (r, c)) evs.

(** Events that are reads, or writes of a marker, inside the grid. *)
Definition accesses (W H : Z) (evs : list event) : Prop :=
  Forall (fun e => exists r c, inb W H (r, c)
                               /\ (e = Read r c \/ e = Write r c "#"
                                   \/ e = Write r c "."))
         evs.

(** [w'] is [w] after some cells were rewritten: nothing but the board and
    the trace changed. *)
Definition repainted (W H : Z) (w w' : world) : Prop :=
  wfw W H w' /\ finished w' = finished w /\ path w' = path w
  /\ isBacktracking w' = isBacktracking w /\ gen w' = gen w
  /\ draws w' = draws w /\ seed w' = seed w
  /\ exists evs, log w' = log w ++ evs /\ accesses W H evs.

(** [w'] is what the finalization pass makes of the carved state [w1]. *)
Definition finalized (W H : Z) (w1 w' : world) : Prop :=
  repainted W H w1 w'
  /\ forall p, inb W H p -> cellOf (board w') p = polished (cellOf (board w1) p).

(** The variant of the main loop. *)
Definition potential (w : world) : nat :=
  (unmarked (board w) + (if isBacktracking w then 0 else 1))%nat.

(** In backtracking mode some cell is still unmarked. *)
Definition loopHead (w : world) : Prop :=
  isBacktracking w = true -> (1 <= unmarked (board w))%nat.

(** No cell was carved or popped and the run goes on: the pass only
    switched to backtracking mode. *)
Definition switched (w w' : world) : Prop :=
  isBacktracking w = false /\ isBacktracking w' = true
  /\ board w' = board w /\ path w' = path w.

(** The direction [randint(0, 3)] makes of a raw number. *)
Definition dirOf (x : Z) : Z := 0 + x mod (3 - 0 + 1).

(** The state in which the main loop starts. *)
Definition started (w : world) : world :=
  set_board (put (board w) (startCell w) "X")
    (add_log [Write (fst (startCell w)) (snd (startCell w)) "X"]
       (add_log [Cursor (startCell w)] (set_draws (S (S (draws w))) w))).

(** The sequence of raw numbers a run constructed with [sd] draws from. *)
Definition source (seeded : Z -> nat -> Z) (ambient : nat -> Z)
  (sd : option Z) : nat -> Z :=
  match sd with Some s => seeded s | None => ambient end.

(** The direction [move] makes of the [j]-th raw number from the state [w]. *)
Definition draw (w : world) (j : nat) : Z := dirOf (gen w (draws w + j)%nat).

Definition blockedIn (bl : list Z) (d : Z) : bool := existsb (Z.eqb d) bl.

(** How a run on the strip of two cells ends when [s] was the start cell:
    both cells are walls, nothing was popped, backtracking mode was never
    entered, and the other cell was pushed. *)
Definition stripEnd (s : cell) (w' : world) : Prop :=
  board w' = [["#"; "#"]]%char
  /\ popCount (log w') = 0%nat
  /\ isBacktracking w' = false
  /\ exists q, path w' = [q] /\ q <> s /\ inb 2 1 q /\ (Push q ∈ log w').

(** ** Vocabulary of the method-level properties *)

(** [q] is a cell of the grid that holds ['.']. *)
Definition unvisited (W H : Z) (b : list (list ascii)) (q : cell) : bool :=
  inbb W H q && (cellOf b q =? ".")%char.

(** The candidates [foundUnvisitedCell] collects around [p], in its order:
    down, up, right, left. *)
Definition unvisitedList (W H : Z) (b : list (list ascii)) (p : cell)
  : list cell :=
  List.filter (unvisited W H b)
    [target p 0; target p 1; target p 2; target p 3].

(** One of the three markers of the carving phase. *)
Definition marker (x : ascii) : Prop :=
  x = "."%char \/ x = "X"%char \/ x = "O"%char.

(** The subscripts [r], [c] are acceptable to a list of [H] rows of [W]
    cells: each lies in [[-len, len)]. *)
Definition subscriptable (W H r c : Z) : Prop :=
  - H <= r < H /\ - W <= c < W.

(** The cell the subscripts [r], [c] denote, counting from the end when
    negative. *)
Definition wrapped (W H r c : Z) : cell := (r mod H, c mod W).

(** ** Vocabulary of the carving-phase properties *)

(** The state after the entry [top] was popped from the stack, [l] being
    what is left of it, and sealed. *)
Definition popped (top : cell) (l : list cell) (w : world) : world :=
  set_board (put (board w) top "O")
    (add_log [Write (fst top) (snd top) "O"]
       (add_log [Pop top] (set_path l (add_log [Cursor top] w)))).

(** The state after the unvisited cell [u] was made the cursor and carved
    while backtracking. *)
Definition recarved (u : cell) (w : world) : world :=
  set_isBacktracking false
    (set_board (put (board w) u "X")
       (add_log [Write (fst u) (snd u) "X"] (add_log [Cursor u] w))).

(** Why the main loop stops: no cell holds ['.'] any more, or the stack ran
    empty in backtracking mode. *)
Definition ended (W H : Z) (w : world) : Prop :=
  (forall p, inb W H p -> cellOf (board w) p <> "."%char)
  \/ (isBacktracking w = true /\ path w = []).

(** According to the trace, [p] was carved. *)
Definition carvedIn (evs : list event) (p : cell) : Prop :=
  Write (fst p) (snd p) "X" ∈ evs.

(** According to the trace, [p] was popped from the stack. *)
Definition poppedIn (evs : list event) (p : cell) : Prop := Pop p ∈ evs.

(** The markers on the board are the ones the trace accounts for. *)
Definition traced (W H : Z) (w : world) : Prop :=
  forall p, inb W H p ->
    (cellOf (board w) p = "X"%char
     <-> carvedIn (log w) p /\ ~ poppedIn (log w) p)
    /\ (cellOf (board w) p = "O"%char <-> poppedIn (log w) p).

(** The cells that were marked in the buffer [b0], the start cell [s]
    apart, are as they were, and none of them is on the stack. *)
Definition respected (W H : Z) (b0 : list (list ascii)) (s : cell)
  (w : world) : Prop :=
  (forall p, p ∈ path w -> free (cellOf b0 p) = true)
  /\ (forall p, inb W H p -> p <> s -> free (cellOf b0 p) = false ->
                cellOf (board w) p = cellOf b0 p).

(** Against the board [b1], the markers of [w] have only advanced: what
    was sealed is sealed, what was carved is carved or sealed, and what is
    unvisited was unvisited. *)
Definition advanced (W H : Z) (b1 : list (list ascii)) (w : world) : Prop :=
  forall p, inb W H p ->
    (cellOf b1 p = "O"%char -> cellOf (board w) p = "O"%char)
    /\ (cellOf b1 p = "X"%char ->
        cellOf (board w) p = "X"%char \/ cellOf (board w) p = "O"%char)
    /\ (cellOf (board w) p = "."%char -> cellOf b1 p = "."%char).

(** [J] is kept by every step of the carving phase: it depends on the
    board, the stack and the trace only, and survives reads, a pop with its
    seal, a cell carved while backtracking, and a forward move. *)
Record tracks (W H : Z) (s : cell) (allowed : ascii -> Prop) (g : nat -> Z)
  (J : world -> Prop) : Prop := {
  tracks_ext :
    forall w w', board w' = board w -> path w' = path w -> log w' = log w ->
                 J w -> J w';
  tracks_reads :
    forall w evs, Inv W H s allowed g w -> J w -> reads W H evs ->
                  J (add_log evs w);
  tracks_pop :
    forall w l top, Inv W H s allowed g w -> J w -> path w = l ++ [top] ->
                    J (popped top l w);
  tracks_recarve :
    forall w u, Inv W H s allowed g w -> J w -> inb W H u ->
                cellOf (board w) u = "."%char -> J (recarved u w);
  tracks_forward :
    forall w w' q,
      Inv W H s allowed g w -> J w -> inb W H q ->
      free (cellOf (board w) q) = true ->
      board w' = put (board w) q "X" -> path w' = path w ++ [q] ->
      log w' = log w ++ [Write (fst q) (snd q) "X"; Cursor q; Push q] ->
      J w'
}.

(** * Properties *)

(** ** Subscripts *)

Lemma py_index_inside (n i : Z) :
  0 <= i < n -> py_index n i = Some (Z.to_nat i).
Proof.
  intros Hi. unfold py_index.
  destruct (Z.leb_spec 0 i); [|lia].
  destruct (Z.ltb_spec i n); [reflexivity|lia].
Qed.

Lemma getitem_inside {A : Type} (l : list A) (i : Z) :
  0 <= i < Z.of_nat (length l) -> getitem l i = l !! Z.to_nat i.
Proof. intros Hi. unfold getitem. now rewrite py_index_inside. Qed.

Lemma setitem_inside {A : Type} (l : list A) (i : Z) (x : A) :
  0 <= i < Z.of_nat (length l) -> setitem l i x = Some (<[Z.to_nat i := x]> l).
Proof. intros Hi. unfold setitem. now rewrite py_index_inside. Qed.

Section Grid.

Variables W H : Z.

Lemma wfb_row (b : list (list ascii)) (p : cell) :
  wfb W H b -> inb W H p ->
  exists row, b !! Z.to_nat (fst p) = Some row
              /\ length row = Z.to_nat W
              /\ row !! Z.to_nat (snd p) = Some (cellOf b p).
Proof.
  intros [Hlen Hrows] [Hr Hc].
  destruct (lookup_lt_is_Some_2 b (Z.to_nat (fst p))) as [row Hrow]; [lia|].
  assert (Hl : length row = Z.to_nat W).
  { rewrite Forall_forall in Hrows. apply Hrows.
    eapply list_elem_of_lookup_2; eauto. }
  destruct (lookup_lt_is_Some_2 row (Z.to_nat (snd p))) as [x Hx]; [lia|].
  exists row. unfold cellOf. rewrite Hrow, Hx. auto.
Qed.

Lemma wfb_put (b : list (list ascii)) (p : cell) (ch : ascii) :
  wfb W H b -> wfb W H (put b p ch).
Proof.
  intros [Hlen Hrows]. unfold put.
  destruct (b !! Z.to_nat (fst p)) as [row|] eqn:Hrow; [|split; auto].
  split; [now rewrite length_insert|].
  apply Forall_insert; [assumption|].
  rewrite length_insert.
  rewrite Forall_forall in Hrows. apply Hrows.
  eapply list_elem_of_lookup_2; eauto.
Qed.

Lemma cellOf_put_eq (b : list (list ascii)) (p : cell) (ch : ascii) :
  wfb W H b -> inb W H p -> cellOf (put b p ch) p = ch.
Proof.
  intros Hb Hp. destruct (wfb_row b p Hb Hp) as (row & Hrow & Hl & Hx).
  destruct Hb as [Hlen _]. destruct Hp as [Hr Hc].
  unfold put, cellOf. rewrite Hrow.
  rewrite list_lookup_insert_eq by lia.
  rewrite list_lookup_insert_eq by lia. reflexivity.
Qed.

Lemma cellOf_put_ne (b : list (list ascii)) (p q : cell) (ch : ascii) :
  inb W H p -> inb W H q -> p <> q -> cellOf (put b p ch) q = cellOf b q.
Proof.
  intros [Hr Hc] [Hr' Hc'] Hne. unfold put, cellOf.
  destruct (b !! Z.to_nat (fst p)) as [row|] eqn:Hrow; [|reflexivity].
  destruct (decide (Z.to_nat (fst p) = Z.to_nat (fst q))) as [e|n].
  - rewrite <- e. rewrite list_lookup_insert_eq
      by (eapply lookup_lt_Some; eauto).
    rewrite Hrow. rewrite list_lookup_insert_ne; [reflexivity|].
    intros e'. apply Hne. destruct p, q; simpl in *. f_equal; lia.
  - rewrite list_lookup_insert_ne by assumption. reflexivity.
Qed.

End Grid.

(** ** Counting unmarked cells *)

Lemma unmarked_app (l1 l2 : list (list ascii)) :
  unmarked (l1 ++ l2) = (unmarked l1 + unmarked l2)%nat.
Proof.
  unfold unmarked. rewrite concat_app, List.filter_app, length_app. reflexivity.
Qed.

Lemma unmarked_middle (l1 l2 : list (list ascii)) (r1 r2 : list ascii) (x : ascii) :
  unmarked (l1 ++ (r1 ++ x :: r2) :: l2)
  = (unmarked l1
     + (length (List.filter free r1) + (if free x then 1 else 0)
        + length (List.filter free r2))
     + unmarked l2)%nat.
Proof.
  rewrite unmarked_app. change ((r1 ++ x :: r2) :: l2) with ([r1 ++ x :: r2] ++ l2).
  rewrite unmarked_app. unfold unmarked at 2. simpl. rewrite app_nil_r.
  rewrite List.filter_app, length_app. simpl.
  destruct (free x); simpl; lia.
Qed.

Lemma unmarked_le (b : list (list ascii)) :
  (unmarked b <= length (concat b))%nat.
Proof. unfold unmarked. apply List.filter_length_le. Qed.

Section Counting.

Variables W H : Z.

Lemma wfb_size (b : list (list ascii)) :
  wfb W H b -> length (concat b) = (Z.to_nat H * Z.to_nat W)%nat.
Proof.
  intros [Hlen Hrows]. rewrite <- Hlen. clear Hlen.
  induction Hrows as [|row b Hrow _ IH]; [reflexivity|].
  simpl. rewrite length_app, IH, Hrow. lia.
Qed.

Lemma unmarked_put (b : list (list ascii)) (p : cell) (ch : ascii) :
  wfb W H b -> inb W H p ->
  (unmarked (put b p ch) + (if free (cellOf b p) then 1 else 0)
   = unmarked b + (if free ch then 1 else 0))%nat.
Proof.
  intros Hb Hp. destruct (wfb_row W H b p Hb Hp) as (row & Hrow & Hl & Hx).
  destruct Hb as [Hlen _]. destruct Hp as [Hr Hc].
  unfold put. rewrite Hrow.
  rewrite insert_take_drop by lia.
  rewrite (insert_take_drop row) by lia.
  rewrite unmarked_middle.
  replace (unmarked b) with
    (unmarked (take (Z.to_nat (fst p)) b
               ++ (take (Z.to_nat (snd p)) row
                   ++ cellOf b p :: drop (S (Z.to_nat (snd p))) row)
               :: drop (S (Z.to_nat (fst p))) b)).
  - rewrite unmarked_middle.
    destruct (free (cellOf b p)), (free ch); lia.
  - f_equal. rewrite (take_drop_middle row _ _ Hx).
    apply take_drop_middle. assumption.
Qed.

(** Marking a free cell uses up one unmarked cell. *)
Lemma unmarked_carve (b : list (list ascii)) (p : cell) :
  wfb W H b -> inb W H p -> free (cellOf b p) = true ->
  (unmarked (put b p "X") + 1 = unmarked b)%nat.
Proof.
  intros Hb Hp Hf. pose proof (unmarked_put b p "X" Hb Hp) as E.
  rewrite Hf in E. simpl in E. lia.
Qed.

(** Overwriting a marked cell with a mark changes nothing. *)
Lemma unmarked_remark (b : list (list ascii)) (p : cell) (ch : ascii) :
  wfb W H b -> inb W H p -> free (cellOf b p) = false -> free ch = false ->
  unmarked (put b p ch) = unmarked b.
Proof.
  intros Hb Hp Hf Hch. pose proof (unmarked_put b p ch Hb Hp) as E.
  rewrite Hf, Hch in E. lia.
Qed.

Lemma unmarked_has_free (b : list (list ascii)) (p : cell) :
  wfb W H b -> inb W H p -> free (cellOf b p) = true ->
  (1 <= unmarked b)%nat.
Proof.
  intros Hb Hp Hf. pose proof (unmarked_carve b p Hb Hp Hf). lia.
Qed.

Lemma unmarked_has_mark (b : list (list ascii)) (p : cell) :
  wfb W H b -> inb W H p -> free (cellOf b p) = false ->
  (unmarked b + 1 <= Z.to_nat H * Z.to_nat W)%nat.
Proof.
  intros Hb Hp Hf.
  pose proof (unmarked_put b p "." Hb Hp) as E. rewrite Hf in E.
  simpl in E.
  pose proof (unmarked_le (put b p ".")) as L.
  rewrite (wfb_size _ (wfb_put W H b p "." Hb)) in L. lia.
Qed.

End Counting.

(** ** Rules for outcomes *)

Lemma post_bind {A B : Type} (m : M A) (k : A -> M B) (w : world)
  (Q : B -> world -> Prop) (T : world -> Prop) :
  post (m w) (fun a w' => post (k a w') Q T) T -> post (bind m k w) Q T.
Proof. unfold bind. destruct (m w); simpl; auto. Qed.

Lemma post_ret {A : Type} (a : A) (w : world) (Q : A -> world -> Prop)
  (T : world -> Prop) : Q a w -> post (ret a w) Q T.
Proof. auto. Qed.

Lemma post_gets {A : Type} (f : world -> A) (w : world)
  (Q : A -> world -> Prop) (T : world -> Prop) :
  Q (f w) w -> post (gets f w) Q T.
Proof. auto. Qed.

Lemma post_modify (f : world -> world) (w : world)
  (Q : unit -> world -> Prop) (T : world -> Prop) :
  Q tt (f w) -> post (modify f w) Q T.
Proof. auto. Qed.

Lemma post_emit (e : event) (w : world) (Q : unit -> world -> Prop)
  (T : world -> Prop) : Q tt (add_log [e] w) -> post (emit e w) Q T.
Proof. auto. Qed.

(** One step of symbolic execution through the monad's own operations. *)
Ltac step :=
  lazymatch goal with
  | |- post (bind _ _ _) _ _ => apply post_bind
  | |- post (ret _ _) _ _ => apply post_ret; cbv beta
  | |- post (gets _ _) _ _ => apply post_gets; cbv beta
  | |- post (modify _ _) _ _ => apply post_modify; cbv beta
  | |- post (emit _ _) _ _ => apply post_emit; cbv beta
  end.

Lemma post_mono {A : Type} (o : outcome A) (Q Q' : A -> world -> Prop)
  (T T' : world -> Prop) :
  post o Q T -> (forall a w, Q a w -> Q' a w) -> (forall w, T w -> T' w) ->
  post o Q' T'.
Proof. destruct o; simpl; auto. Qed.

Lemma post_done {A : Type} (o : outcome A) (Q : A -> world -> Prop) :
  post o Q never -> exists a w, o = Done a w /\ Q a w.
Proof. destruct o; simpl; try contradiction. eauto. Qed.

Lemma add_log_app (e1 e2 : list event) (w : world) :
  add_log e2 (add_log e1 w) = add_log (e1 ++ e2) w.
Proof. unfold add_log. simpl. now rewrite app_assoc. Qed.

Lemma add_log_nil (w : world) : add_log [] w = w.
Proof. destruct w. unfold add_log. simpl. now rewrite app_nil_r. Qed.

Lemma reads_app (W H : Z) (e1 e2 : list event) :
  reads W H e1 -> reads W H e2 -> reads W H (e1 ++ e2).
Proof. unfold reads. intros. now apply Forall_app. Qed.

Lemma reads_nil (W H : Z) : reads W H [].
Proof. constructor. Qed.

Lemma reads_one (W H r c : Z) : inb W H (r, c) -> reads W H [Read r c].
Proof. intros. repeat constructor. eauto. Qed.

Create HintDb grid.
#[local] Hint Resolve reads_app reads_nil reads_one : grid.

Section Access.

Variables W H : Z.

Lemma post_load (r c : Z) (w : world) (Q : ascii -> world -> Prop)
  (T : world -> Prop) :
  wfw W H w -> inb W H (r, c) ->
  Q (cellOf (board w) (r, c)) (add_log [Read r c] w) ->
  post (load r c w) Q T.
Proof.
  intros (_ & _ & Hb) Hp HQ.
  destruct (wfb_row W H _ _ Hb Hp) as (row & Hrow & Hl & Hx).
  destruct Hb as [Hlen _]. destruct Hp as [Hr Hc]. simpl in *.
  unfold load, bind, emit, modify, gets. simpl.
  rewrite getitem_inside, Hrow by lia.
  rewrite getitem_inside, Hx by lia. exact HQ.
Qed.

Lemma post_store (r c : Z) (ch : ascii) (w : world)
  (Q : unit -> world -> Prop) (T : world -> Prop) :
  wfw W H w -> inb W H (r, c) ->
  Q tt (set_board (put (board w) (r, c) ch) (add_log [Write r c ch] w)) ->
  post (store r c ch w) Q T.
Proof.
  intros (_ & _ & Hb) Hp HQ.
  destruct (wfb_row W H _ _ Hb Hp) as (row & Hrow & Hl & Hx).
  destruct Hb as [Hlen _]. destruct Hp as [Hr Hc]. simpl in *.
  unfold store, bind, emit, modify, gets. simpl.
  rewrite py_index_inside, Hrow by lia.
  rewrite setitem_inside by lia. simpl.
  unfold put in HQ. simpl in HQ. rewrite Hrow in HQ. exact HQ.
Qed.

End Access.

(** ** Worlds that differ by ghost events or consumed draws *)

Lemma wfw_add_log (W H : Z) (evs : list event) (w : world) :
  wfw W H w -> wfw W H (add_log evs w).
Proof. intros Hw. exact Hw. Qed.

Lemma wfw_set_draws (W H : Z) (n : nat) (w : world) :
  wfw W H w -> wfw W H (set_draws n w).
Proof. intros Hw. exact Hw. Qed.

Lemma wfw_set_path (W H : Z) (p : list cell) (w : world) :
  wfw W H w -> wfw W H (set_path p w).
Proof. intros Hw. exact Hw. Qed.

Lemma wfw_set_flag (W H : Z) (f : bool) (w : world) :
  wfw W H w -> wfw W H (set_isBacktracking f w) /\ wfw W H (set_finished f w).
Proof. intros Hw. split; exact Hw. Qed.

Lemma wfw_put (W H : Z) (p : cell) (ch : ascii) (w : world) :
  wfw W H w -> wfw W H (set_board (put (board w) p ch) w).
Proof.
  intros (Hw & Hh & Hb). repeat split; simpl; try assumption;
    apply (wfb_put W H _ p ch Hb).
Qed.

#[local] Hint Resolve wfw_add_log wfw_set_draws wfw_set_path wfw_put : grid.

Lemma set_draws_same (n : nat) (w : world) : n = draws w -> set_draws n w = w.
Proof. intros ->. now destruct w. Qed.

Ltac zbool :=
  repeat match goal with
    | |- context [(?a >=? ?b)] => rewrite (Z.geb_leb a b)
    | |- context [(?a <=? ?b)] => destruct (Z.leb_spec a b)
    | |- context [(?a <? ?b)] => destruct (Z.ltb_spec a b)
    | |- context [(?a =? ?b)] => destruct (Z.eqb_spec a b)
    end; simpl; try lia.

(** ** Looking around the cursor *)

Section Looking.

Variables W H : Z.

Lemma post_occupied (r c : Z) (ch : ascii) (w : world)
  (Q : bool -> world -> Prop) (T : world -> Prop) :
  wfw W H w -> inb W H (r, c) ->
  (forall evs, reads W H evs ->
     Q (taken (board w) ch (r, c)) (add_log evs w)) ->
  post (occupied r c ch w) Q T.
Proof.
  intros Hw Hp HQ. unfold occupied.
  apply post_bind, (post_load W H); auto.
  assert (Et : taken (board w) ch (r, c)
               = if (cellOf (board w) (r, c) =? ch)%char then true
                 else (cellOf (board w) (r, c) =? "O")%char)
    by (unfold taken; now destruct (cellOf (board w) (r, c) =? ch)%char).
  destruct (cellOf (board w) (r, c) =? ch)%char eqn:E; simpl.
  - rewrite <- Et. apply HQ. auto with grid.
  - apply post_bind, (post_load W H); auto with grid.
    simpl. rewrite add_log_app, <- Et. apply HQ. auto with grid.
Qed.

Lemma post_probe (outside : bool) (r c : Z) (ch : ascii) (d : Z)
  (acc : list Z) (w : world) (Q : list Z -> world -> Prop)
  (T : world -> Prop) :
  wfw W H w -> (outside = false -> inb W H (r, c)) ->
  (forall evs, reads W H evs ->
     Q (if outside || taken (board w) ch (r, c) then acc ++ [d] else acc)
       (add_log evs w)) ->
  post (probe outside r c ch d acc w) Q T.
Proof.
  intros Hw Hp HQ. unfold probe. destruct outside; simpl.
  - rewrite <- (add_log_nil w). apply (HQ []). auto with grid.
  - apply post_bind, post_occupied; auto.
Qed.

Lemma dirBlocked_down b ch r c :
  inb W H (r, c) ->
  dirBlocked W H b ch (r, c) 0 = (r + 1 >=? H) || taken b ch (r + 1, c).
Proof.
  intros [Hr Hc]. simpl in *. unfold dirBlocked, target, inbb. simpl.
  f_equal. zbool.
Qed.

Lemma dirBlocked_up b ch r c :
  inb W H (r, c) ->
  dirBlocked W H b ch (r, c) 1 = (r - 1 <? 0) || taken b ch (r - 1, c).
Proof.
  intros [Hr Hc]. simpl in *. unfold dirBlocked, target, inbb. simpl.
  f_equal. zbool.
Qed.

Lemma dirBlocked_right b ch r c :
  inb W H (r, c) ->
  dirBlocked W H b ch (r, c) 2 = (c + 1 >=? W) || taken b ch (r, c + 1).
Proof.
  intros [Hr Hc]. simpl in *. unfold dirBlocked, target, inbb. simpl.
  f_equal. zbool.
Qed.

Lemma dirBlocked_left b ch r c :
  inb W H (r, c) ->
  dirBlocked W H b ch (r, c) 3 = (c - 1 <? 0) || taken b ch (r, c - 1).
Proof.
  intros [Hr Hc]. simpl in *. unfold dirBlocked, target, inbb. simpl.
  f_equal. zbool.
Qed.

Lemma post_getBlockedDirections (p : cell) (ch : ascii) (w : world)
  (Q : list Z -> world -> Prop) (T : world -> Prop) :
  wfw W H w -> inb W H p ->
  (forall evs, reads W H evs ->
     Q (blockedList W H (board w) ch p) (add_log evs w)) ->
  post (getBlockedDirections p ch w) Q T.
Proof.
  intros Hw Hp HQ. destruct p as [r c]. pose proof Hp as [Hr Hc].
  pose proof Hw as (HW & HH & _). simpl in Hr, Hc.
  unfold getBlockedDirections.
  apply post_bind. simpl. rewrite HH.
  apply post_bind, post_probe; auto.
  { intros E. split; simpl; [|lia]. rewrite Z.geb_leb in E.
    apply Z.leb_gt in E. lia. }
  intros e0 He0.
  apply post_bind, post_probe; auto with grid.
  { intros E. split; simpl; [|lia]. apply Z.ltb_ge in E. lia. }
  intros e1 He1.
  apply post_bind. simpl. rewrite HW.
  apply post_bind, post_probe; auto with grid.
  { intros E. split; simpl; [lia|]. rewrite Z.geb_leb in E.
    apply Z.leb_gt in E. lia. }
  intros e2 He2.
  apply post_bind, post_probe; auto with grid.
  { intros E. split; simpl; [lia|]. apply Z.ltb_ge in E. lia. }
  intros e3 He3. simpl.
  rewrite !add_log_app.
  match goal with |- Q ?l _ =>
    replace l with (blockedList W H (board w) ch (r, c)) end.
  { apply HQ. auto with grid. }
  unfold blockedList. simpl List.filter.
  rewrite dirBlocked_down, dirBlocked_up, dirBlocked_right, dirBlocked_left
    by assumption.
  destruct ((r + 1 >=? H) || taken (board w) ch (r + 1, c)),
    ((r - 1 <? 0) || taken (board w) ch (r - 1, c)),
    ((c + 1 >=? W) || taken (board w) ch (r, c + 1)),
    ((c - 1 <? 0) || taken (board w) ch (r, c - 1)); reflexivity.
Qed.

Lemma post_peek (inside : bool) (r c : Z) (acc : list cell) (w : world)
  (Q : list cell -> world -> Prop) (T : world -> Prop) :
  wfw W H w -> (inside = true -> inb W H (r, c)) ->
  (forall evs acc', reads W H evs ->
     acc' = acc
     \/ (acc' = acc ++ [(r, c)] /\ inb W H (r, c)
         /\ cellOf (board w) (r, c) = "."%char) ->
     Q acc' (add_log evs w)) ->
  post (peek inside r c acc w) Q T.
Proof.
  intros Hw Hp HQ. unfold peek. destruct inside; simpl.
  - apply post_bind, (post_load W H); auto.
    simpl. apply HQ; auto with grid.
    destruct (Ascii.eqb_spec (cellOf (board w) (r, c)) "."); auto.
  - rewrite <- (add_log_nil w). apply (HQ []); auto with grid.
Qed.

Lemma post_choice {A : Type} (l : list A) (w : world)
  (Q : A -> world -> Prop) (T : world -> Prop) :
  l <> [] ->
  (forall x, x ∈ l -> Q x (set_draws (S (draws w)) w)) ->
  post (choice l w) Q T.
Proof.
  intros Hl HQ. unfold choice. destruct l as [|a l]; [congruence|].
  set (l' := a :: l) in *.
  assert (Hlen : 0 < Z.of_nat (length l')) by (subst l'; simpl; lia).
  pose proof (Z.mod_pos_bound (gen w (draws w)) _ Hlen) as Hb.
  destruct (lookup_lt_is_Some_2 l'
              (Z.to_nat (gen w (draws w) mod Z.of_nat (length l'))))
    as [x Hx]; [lia|].
  rewrite Hx. simpl. apply HQ. eapply list_elem_of_lookup_2; eauto.
Qed.

Lemma post_foundUnvisitedCell (p : cell) (w : world)
  (Q : option cell -> world -> Prop) (T : world -> Prop) :
  wfw W H w -> inb W H p ->
  (forall evs n r, reads W H evs ->
     match r with
     | Some u => inb W H u /\ cellOf (board w) u = "."%char
                 /\ n = S (draws w)
     | None => n = draws w
     end ->
     Q r (set_draws n (add_log evs w))) ->
  post (foundUnvisitedCell p w) Q T.
Proof.
  intros Hw Hp HQ. destruct p as [r c]. pose proof Hp as [Hr Hc].
  pose proof Hw as (HW & HH & _). simpl in Hr, Hc.
  set (good := fun u : cell =>
                 inb W H u /\ cellOf (board w) u = "."%char).
  assert (Hstep : forall acc acc' q,
             Forall good acc ->
             acc' = acc \/ (acc' = acc ++ [q] /\ inb W H q
                            /\ cellOf (board w) q = "."%char) ->
             Forall good acc').
  { intros acc acc' q Ha [->|(-> & Hq & Hd)]; auto.
    apply Forall_app; split; auto.
    constructor; [split; assumption|constructor]. }
  unfold foundUnvisitedCell.
  apply post_bind. simpl. rewrite HH.
  apply post_bind, post_peek; auto.
  { intros E. split; simpl; [|lia]. apply Z.ltb_lt in E. lia. }
  intros e0 u0 He0 Hu0. apply (Hstep []) in Hu0; [|constructor].
  apply post_bind, post_peek; auto with grid.
  { intros E. split; simpl; [|lia]. rewrite Z.geb_leb in E.
    apply Z.leb_le in E. lia. }
  intros e1 u1 He1 Hu1. apply (Hstep u0) in Hu1; [|assumption].
  apply post_bind. simpl. rewrite HW.
  apply post_bind, post_peek; auto with grid.
  { intros E. split; simpl; [lia|]. apply Z.ltb_lt in E. lia. }
  intros e2 u2 He2 Hu2. apply (Hstep u1) in Hu2; [|assumption].
  apply post_bind, post_peek; auto with grid.
  { intros E. split; simpl; [lia|]. rewrite Z.geb_leb in E.
    apply Z.leb_le in E. lia. }
  intros e3 u3 He3 Hu3. apply (Hstep u2) in Hu3; [|assumption].
  rewrite !add_log_app.
  destruct u3 as [|a u3].
  - simpl. rewrite <- (set_draws_same (draws w) (add_log _ w)) by reflexivity.
    apply HQ; auto 10 with grid.
  - apply post_bind, post_choice; [discriminate|].
    intros x Hx. simpl. apply HQ; auto 10 with grid.
    rewrite Forall_forall in Hu3. destruct (Hu3 x Hx). auto.
Qed.

End Looking.

(** ** The invariant of the carving phase *)

Lemma carveCount_app (l1 l2 : list event) :
  carveCount (l1 ++ l2) = (carveCount l1 + carveCount l2)%nat.
Proof. unfold carveCount. now rewrite List.filter_app, length_app. Qed.

Lemma popCount_app (l1 l2 : list event) :
  popCount (l1 ++ l2) = (popCount l1 + popCount l2)%nat.
Proof. unfold popCount. now rewrite List.filter_app, length_app. Qed.

Lemma carveCount_reads (W H : Z) (evs : list event) :
  reads W H evs -> carveCount evs = 0%nat.
Proof.
  unfold reads, carveCount. induction 1 as [|e evs (r & c & -> & _) _ IH];
    simpl; auto.
Qed.

Lemma popCount_reads (W H : Z) (evs : list event) :
  reads W H evs -> popCount evs = 0%nat.
Proof.
  unfold reads, popCount. induction 1 as [|e evs (r & c & -> & _) _ IH];
    simpl; auto.
Qed.

Lemma carveCount_accesses (W H : Z) (evs : list event) :
  accesses W H evs -> carveCount evs = 0%nat.
Proof.
  unfold accesses, carveCount.
  induction 1 as [|e evs (r & c & _ & [-> | [-> | ->]]) _ IH]; simpl; auto.
Qed.

Lemma popCount_accesses (W H : Z) (evs : list event) :
  accesses W H evs -> popCount evs = 0%nat.
Proof.
  unfold accesses, popCount.
  induction 1 as [|e evs (r & c & _ & [-> | [-> | ->]]) _ IH]; simpl; auto.
Qed.

Lemma reads_ok (W H : Z) (s : cell) (evs : list event) :
  reads W H evs -> Forall (fun e => ev_inb W H e /\ ev_keeps s e) evs.
Proof.
  unfold reads. intros Hr. eapply Forall_impl; [exact Hr|].
  intros e (r & c & -> & Hp). simpl. auto.
Qed.

Ltac one_event :=
  repeat (apply List.Forall_cons; [split; simpl; auto|]);
  try apply List.Forall_nil.

Section Preservation.

Variables W H : Z.
Variable s : cell.
Variable allowed : ascii -> Prop.
Variable g : nat -> Z.
Hypothesis allowed_X : allowed "X"%char.
Hypothesis allowed_O : allowed "O"%char.

#[local] Abbreviation Inv := (Inv W H s allowed g).

(** Ghost events that are neither carves nor pops, draws and flags do not
    disturb the invariant. *)
Lemma Inv_quiet (w w' : world) (evs : list event) :
  Inv w ->
  boardWidth w' = boardWidth w -> boardHeight w' = boardHeight w ->
  board w' = board w -> path w' = path w -> gen w' = gen w ->
  log w' = log w ++ evs ->
  Forall (fun e => ev_inb W H e /\ ev_keeps s e) evs ->
  carveCount evs = 0%nat -> popCount evs = 0%nat ->
  Inv w'.
Proof.
  intros [Hwf Hg Hs Hp Hn Hl Ha [Hc1 Hc2]] EW EH EB EP EG EL Hevs Hc Hpp.
  destruct Hwf as (HW & HH & Hb).
  constructor; unfold counted; rewrite ?EB, ?EP, ?EL, ?EG; auto.
  - unfold wfw. rewrite EB, EW, EH. auto.
  - apply Forall_app; auto.
  - rewrite carveCount_app, popCount_app, Hc, Hpp. lia.
Qed.

Lemma Inv_reads (w : world) (evs : list event) :
  Inv w -> reads W H evs -> Inv (add_log evs w).
Proof.
  intros HI Hr.
  eapply (Inv_quiet w _ evs);
    eauto using reads_ok, carveCount_reads, popCount_reads.
Qed.

Lemma Inv_cursor (w : world) (p : cell) :
  Inv w -> inb W H p -> Inv (add_log [Cursor p] w).
Proof.
  intros HI Hp. eapply (Inv_quiet w _ [Cursor p]); eauto.
  one_event.
Qed.

Lemma Inv_draws (w : world) (n : nat) : Inv w -> Inv (set_draws n w).
Proof.
  intros HI. eapply (Inv_quiet w _ []); eauto.
  simpl. now rewrite app_nil_r.
Qed.

Lemma Inv_backtracking (w : world) (f : bool) :
  Inv w -> Inv (set_isBacktracking f w).
Proof.
  intros HI. eapply (Inv_quiet w _ []); eauto.
  simpl. now rewrite app_nil_r.
Qed.

Lemma Inv_finished (w : world) (f : bool) : Inv w -> Inv (set_finished f w).
Proof.
  intros HI. eapply (Inv_quiet w _ []); eauto.
  simpl. now rewrite app_nil_r.
Qed.

(** Carving an unmarked cell of the grid. *)
Lemma Inv_mark (w : world) (q : cell) :
  Inv w -> inb W H q -> free (cellOf (board w) q) = true ->
  Inv (set_board (put (board w) q "X")
         (add_log [Write (fst q) (snd q) "X"] w)).
Proof.
  intros [Hwf Hg Hs Hp Hn Hl Ha [Hc1 Hc2]] Hq Hfree.
  pose proof Hwf as (HW & HH & Hb).
  assert (Hcell : forall p, inb W H p ->
            cellOf (put (board w) q "X") p = "X"%char
            \/ cellOf (put (board w) q "X") p = cellOf (board w) p).
  { intros p Hpin. destruct (decide (q = p)) as [->|Hne].
    - left. apply (cellOf_put_eq W H); auto.
    - right. apply (cellOf_put_ne W H); auto. }
  constructor; simpl; auto.
  - apply (wfw_put W H q "X" w Hwf).
  - destruct Hs as [Hs1 Hs2]. split; auto.
    destruct (Hcell s Hs1) as [E|E]; congruence.
  - eapply Forall_impl; [exact Hp|]. simpl.
    intros p (Hp1 & Hp2 & Hp3). split; [assumption|split; [|assumption]].
    destruct (Hcell p Hp1) as [E|E]; congruence.
  - apply Forall_app; split; auto.
    one_event.
  - intros p Hpin. destruct (Hcell p Hpin) as [E|E]; rewrite E; auto.
  - unfold counted. simpl. rewrite carveCount_app, popCount_app.
    pose proof (unmarked_carve W H (board w) q Hb Hq Hfree) as Hu.
    change (carveCount [Write q.1 q.2 "X"]) with 1%nat.
    change (popCount [Write q.1 q.2 "X"]) with 0%nat. lia.
Qed.

(** Sealing a cell that is neither the start cell nor on the stack. *)
Lemma Inv_seal (w : world) (q : cell) :
  Inv w -> inb W H q -> q <> s -> q ∉ path w ->
  Inv (set_board (put (board w) q "O")
         (add_log [Write (fst q) (snd q) "O"] w)).
Proof.
  intros [Hwf Hg Hs Hp Hn Hl Ha [Hc1 Hc2]] Hq Hqs Hqp.
  pose proof Hwf as (HW & HH & Hb).
  constructor; simpl; auto.
  - apply (wfw_put W H q "O" w Hwf).
  - destruct Hs as [Hs1 Hs2]. split; auto.
    rewrite (cellOf_put_ne W H); auto.
  - rewrite Forall_forall in Hp. apply Forall_forall.
    intros p Hpin. destruct (Hp p Hpin) as (Hp1 & Hp2 & Hp3).
    split; [assumption|split; [|assumption]].
    rewrite (cellOf_put_ne W H); auto. intros ->. contradiction.
  - apply Forall_app; split; auto.
    one_event. destruct q. simpl. congruence.
  - intros p Hpin. destruct (decide (q = p)) as [->|Hne].
    + rewrite (cellOf_put_eq W H); auto.
    + rewrite (cellOf_put_ne W H); auto.
  - unfold counted. simpl. rewrite carveCount_app, popCount_app.
    pose proof (unmarked_put W H (board w) q "O" Hb Hq) as Hu.
    change (free "O") with false in Hu.
    change (carveCount [Write q.1 q.2 "O"]) with 0%nat.
    change (popCount [Write q.1 q.2 "O"]) with 0%nat.
    destruct (free (cellOf (board w) q)); lia.
Qed.

(** A forward step: carving an unmarked cell, moving the cursor there and
    pushing it. *)
Lemma Inv_forward (w : world) (q : cell) (n : nat) :
  Inv w -> inb W H q -> free (cellOf (board w) q) = true ->
  Inv (add_log [Push q]
         (set_path (path w ++ [q])
            (add_log [Cursor q]
               (set_board (put (board w) q "X")
                  (add_log [Write (fst q) (snd q) "X"] (set_draws n w)))))).
Proof.
  intros [Hwf Hg Hs Hp Hn Hl Ha [Hc1 Hc2]] Hq Hf.
  pose proof Hwf as (HW & HH & Hb).
  assert (Hx : cellOf (board w) q <> "X"%char).
  { intros E. rewrite E in Hf. discriminate. }
  assert (Hqs : q <> s).
  { intros ->. destruct Hs. contradiction. }
  assert (Hqp : q ∉ path w).
  { intros Hin. rewrite Forall_forall in Hp.
    destruct (Hp q Hin) as (_ & E & _). contradiction. }
  constructor; simpl; auto.
  - split; [exact HW|split; [exact HH|apply wfb_put; exact Hb]].
  - destruct Hs as [Hs1 Hs2]. split; auto.
    rewrite (cellOf_put_ne W H); auto.
  - apply Forall_app; split.
    + rewrite Forall_forall in Hp. apply Forall_forall.
      intros p Hpin. destruct (Hp p Hpin) as (Hp1 & Hp2 & Hp3).
      split; [assumption|split; [|assumption]].
      rewrite (cellOf_put_ne W H); auto. intros ->. contradiction.
    + constructor; [|constructor].
      split; [assumption|split; [|assumption]].
      apply (cellOf_put_eq W H); auto.
  - apply NoDup_app. split; [assumption|split].
    + intros x Hx1 Hx2. apply list_elem_of_singleton in Hx2. congruence.
    + apply NoDup_singleton.
  - rewrite <- !app_assoc. apply Forall_app; split; auto.
    one_event.
  - intros p Hpin. destruct (decide (q = p)) as [->|Hne].
    + rewrite (cellOf_put_eq W H); auto.
    + rewrite (cellOf_put_ne W H); auto.
  - unfold counted. simpl. rewrite <- !app_assoc.
    rewrite carveCount_app, popCount_app, length_app.
    pose proof (unmarked_carve W H (board w) q Hb Hq Hf) as Hu.
    change (carveCount ([Write q.1 q.2 "X"] ++ [Cursor q] ++ [Push q]))
      with 1%nat.
    change (popCount ([Write q.1 q.2 "X"] ++ [Cursor q] ++ [Push q]))
      with 0%nat.
    simpl. lia.
Qed.

(** Popping the top of the stack. *)
Lemma Inv_pop (w : world) (l : list cell) (top : cell) :
  Inv w -> path w = l ++ [top] ->
  Inv (add_log [Pop top] (set_path l (add_log [Cursor top] w)))
  /\ inb W H top /\ top <> s /\ (top ∉ l)
  /\ cellOf (board w) top = "X"%char.
Proof.
  intros [Hwf Hg Hs Hp Hn Hl Ha [Hc1 Hc2]] E. rewrite E in Hp, Hn, Hc2.
  apply Forall_app in Hp as [Hp1 Hp2].
  apply Forall_cons in Hp2 as [(Ht1 & Ht2 & Ht3) _].
  apply NoDup_app in Hn as (Hn1 & Hn2 & _).
  assert (Hnot : top ∉ l).
  { intros Hin. apply (Hn2 top Hin). apply list_elem_of_singleton. reflexivity. }
  split; [|auto].
  constructor; simpl; auto.
  - rewrite <- app_assoc. apply Forall_app; split; auto.
    one_event.
  - unfold counted. simpl. rewrite <- app_assoc.
    rewrite carveCount_app, popCount_app. rewrite length_app in Hc2.
    change (carveCount ([Cursor top] ++ [Pop top])) with 0%nat.
    change (popCount ([Cursor top] ++ [Pop top])) with 1%nat.
    simpl in Hc2. lia.
Qed.

End Preservation.

(** ** Scanning for unvisited cells *)

Section Scanning.

Variables W H : Z.

Lemma post_forEachUntil {A R : Type} (body : A -> M (option R))
  (P : A -> option R -> Prop) (l : list A) :
  forall (pre : list A) (w : world) (Q : option R -> world -> Prop)
         (T : world -> Prop),
    (forall x, x ∈ pre -> P x None) ->
    (forall x evs1 (Q' : option R -> world -> Prop) (T' : world -> Prop),
        x ∈ l -> reads W H evs1 ->
        (forall evs r, reads W H evs -> P x r ->
                       Q' r (add_log evs (add_log evs1 w))) ->
        post (body x (add_log evs1 w)) Q' T') ->
    (forall evs r, reads W H evs ->
        match r with
        | Some v => exists x, x ∈ pre ++ l /\ P x (Some v)
        | None => forall x, x ∈ pre ++ l -> P x None
        end ->
        Q r (add_log evs w)) ->
    post (forEachUntil l body w) Q T.
Proof.
  induction l as [|x l IH]; intros pre w Q T Hpre Hbody HQ.
  - simpl. rewrite <- (add_log_nil w). apply HQ; auto with grid.
    now rewrite app_nil_r.
  - simpl. apply post_bind.
    pose proof (Hbody x []) as Hx. rewrite add_log_nil in Hx.
    apply Hx; auto with grid.
    { apply list_elem_of_here. }
    intros evs r He Hr.
    destruct r as [v|]; simpl.
    + apply HQ; auto with grid. exists x. split; auto.
      apply elem_of_app. right. apply list_elem_of_here.
    + apply (IH (pre ++ [x])).
      * intros y Hy. apply elem_of_app in Hy as [Hy|Hy]; auto.
        apply list_elem_of_singleton in Hy. now subst.
      * intros y evs1 Q' T' Hy He1 HQ'. rewrite add_log_app.
        apply Hbody; auto with grid.
        { now apply list_elem_of_further. }
        intros evs' r' He' Hr'. rewrite <- add_log_app. apply HQ'; auto.
      * intros evs' r' He' Hr'. rewrite add_log_app. apply HQ; auto with grid.
        now rewrite <- app_assoc in Hr'.
Qed.

Lemma post_checkIfThereAreNoMoreDotsInTheBoard (w : world)
  (Q : bool -> world -> Prop) (T : world -> Prop) :
  wfw W H w ->
  (forall evs v, reads W H evs ->
     (if v : bool
      then forall p, inb W H p -> cellOf (board w) p <> "."%char
      else exists p, inb W H p /\ cellOf (board w) p = "."%char) ->
     Q v (add_log evs w)) ->
  post (checkIfThereAreNoMoreDotsInTheBoard w) Q T.
Proof.
  intros Hw HQ. pose proof Hw as (HW & HH & _).
  unfold checkIfThereAreNoMoreDotsInTheBoard.
  apply post_bind. simpl. rewrite HH. apply post_bind.
  apply (post_forEachUntil _
           (fun i r =>
              match r with
              | Some v => v = false
                          /\ exists j, 0 <= j < W
                                       /\ cellOf (board w) (i, j) = "."%char
              | None => forall j, 0 <= j < W ->
                                  cellOf (board w) (i, j) <> "."%char
              end) (range H) []).
  - intros x Hx. inversion Hx.
  - intros i evs1 Q' T' Hi He1 HQ'.
    apply elem_of_seqZ in Hi.
    apply post_bind. simpl. rewrite HW.
    apply (post_forEachUntil _
             (fun j r =>
                match r with
                | Some v => v = false /\ cellOf (board w) (i, j) = "."%char
                | None => cellOf (board w) (i, j) <> "."%char
                end) (range W) []).
    + intros x Hx. inversion Hx.
    + intros j evs2 Q'' T'' Hj He2 HQ''.
      apply elem_of_seqZ in Hj.
      assert (Hin : inb W H (i, j)) by (split; simpl; lia).
      apply post_bind, (post_load W H); auto with grid.
      simpl. apply HQ''; auto with grid.
      destruct (Ascii.eqb_spec (cellOf (board w) (i, j)) "."); auto.
    + intros evs r He Hr. apply HQ'; auto.
      simpl in Hr. destruct r as [v|].
      * destruct Hr as (j & Hj & Hv & Hd). apply elem_of_seqZ in Hj.
        split; auto. exists j. split; auto; lia.
      * intros j Hj. apply Hr. apply elem_of_seqZ. lia.
  - intros evs r He Hr. simpl in Hr. simpl.
    destruct r as [v|].
    + destruct Hr as (i & Hi & -> & j & Hj & Hd).
      apply elem_of_seqZ in Hi. apply HQ; auto.
      exists (i, j). split; auto. split; simpl; lia.
    + apply HQ; auto.
      intros [i j] [Hi Hj]. simpl in *. apply Hr; auto.
      apply elem_of_seqZ. lia.
Qed.

End Scanning.

(** ** Drawing a direction *)

Lemma dirOf_range (x : Z) : 0 <= dirOf x <= 3.
Proof.
  unfold dirOf. pose proof (Z.mod_pos_bound x (3 - 0 + 1)). lia.
Qed.

Lemma randint_dir (w : world) :
  randint 0 3 w = Done (dirOf (gen w (draws w))) (set_draws (S (draws w)) w).
Proof. reflexivity. Qed.

Lemma post_redraw (bl : list Z) (Q : Z -> world -> Prop) (T : world -> Prop)
  (fuel : nat) :
  forall (d : Z) (w : world),
    (forall d' n,
        existsb (Z.eqb d') bl = false -> d' = d \/ 0 <= d' <= 3 ->
        (draws w <= n)%nat -> Q d' (set_draws n w)) ->
    (forall n,
        existsb (Z.eqb d) bl = true ->
        (forall k, (k < fuel)%nat ->
                   existsb (Z.eqb (dirOf (gen w (draws w + k)%nat))) bl = true) ->
        T (set_draws n w)) ->
    post (redraw fuel bl d w) Q T.
Proof.
  induction fuel as [|fuel IH]; intros d w HQ HT; simpl.
  - destruct (existsb (Z.eqb d) bl) eqn:E; simpl.
    + rewrite <- (set_draws_same (draws w) w) by reflexivity.
      apply HT; auto. intros k Hk. lia.
    + rewrite <- (set_draws_same (draws w) w) by reflexivity.
      apply HQ; auto.
  - destruct (existsb (Z.eqb d) bl) eqn:E; simpl.
    + apply post_bind. rewrite randint_dir. simpl.
      apply IH.
      * intros d' n Hd' Hor Hn. simpl in Hn.
        apply (HQ d' n); auto; [right|lia].
        destruct Hor as [->|Hor]; auto using dirOf_range.
      * intros n Hb Hall. apply (HT n); auto.
        intros [|k] Hk.
        -- now rewrite Nat.add_0_r.
        -- simpl in Hall. specialize (Hall k).
           replace (draws w + S k)%nat with (S (draws w + k)) by lia.
           apply Hall. lia.
    + rewrite <- (set_draws_same (draws w) w) by reflexivity.
      apply HQ; auto.
Qed.

(** ** Moving forward *)

Section Forward.

Variables W H : Z.

Lemma blockedList_free (b : list (list ascii)) (ch : ascii) (p : cell) (d : Z) :
  0 <= d <= 3 ->
  existsb (Z.eqb d) (blockedList W H b ch p) = false ->
  dirBlocked W H b ch p d = false.
Proof.
  intros Hd. unfold blockedList. simpl List.filter.
  assert (Hc : d = 0 \/ d = 1 \/ d = 2 \/ d = 3) by lia.
  destruct (dirBlocked W H b ch p 0) eqn:E0,
    (dirBlocked W H b ch p 1) eqn:E1,
    (dirBlocked W H b ch p 2) eqn:E2,
    (dirBlocked W H b ch p 3) eqn:E3;
    destruct Hc as [-> | [-> | [-> | ->]]]; simpl; congruence.
Qed.

Lemma blockedList_short (b : list (list ascii)) (ch : ascii) (p : cell) :
  (length (blockedList W H b ch p) < 4)%nat ->
  exists d, 0 <= d <= 3 /\ existsb (Z.eqb d) (blockedList W H b ch p) = false.
Proof.
  unfold blockedList. simpl List.filter.
  destruct (dirBlocked W H b ch p 0) eqn:E0,
    (dirBlocked W H b ch p 1) eqn:E1,
    (dirBlocked W H b ch p 2) eqn:E2,
    (dirBlocked W H b ch p 3) eqn:E3; simpl; intros Hl; try lia;
    first [ exists 0; split; [lia|reflexivity]
          | exists 1; split; [lia|reflexivity]
          | exists 2; split; [lia|reflexivity]
          | exists 3; split; [lia|reflexivity] ].
Qed.

Lemma blockedList_length (b : list (list ascii)) (ch : ascii) (p : cell) :
  (length (blockedList W H b ch p) <= 4)%nat.
Proof.
  unfold blockedList. etransitivity; [apply List.filter_length_le|].
  simpl. lia.
Qed.

Lemma dirBlocked_free (b : list (list ascii)) (p : cell) (d : Z) :
  dirBlocked W H b "X" p d = false ->
  inb W H (target p d) /\ free (cellOf b (target p d)) = true.
Proof.
  unfold dirBlocked, taken, free, inbb, inb.
  intros E. apply orb_false_iff in E as [E1 E2].
  apply negb_false_iff in E1. apply orb_false_iff in E2 as [E2 E3].
  rewrite E2, E3. split; [|reflexivity].
  repeat (apply andb_true_iff in E1 as [E1 ?]). lia.
Qed.

Variable s : cell.
Variable allowed : ascii -> Prop.
Variable g : nat -> Z.
Hypothesis allowed_X : allowed "X"%char.
Hypothesis allowed_O : allowed "O"%char.

#[local] Abbreviation Inv := (Inv W H s allowed g).

Lemma post_move (fuel : nat) (cc : cell) (bl : list Z) (w : world)
  (Q : cell -> world -> Prop) (T : world -> Prop) :
  Inv w -> inb W H cc -> bl = blockedList W H (board w) "X" cc ->
  (length bl = 4%nat -> Q cc w) ->
  (forall d w',
      (length bl < 4)%nat -> 0 <= d <= 3 -> existsb (Z.eqb d) bl = false ->
      inb W H (target cc d) ->
      free (cellOf (board w) (target cc d)) = true ->
      Inv w' -> board w' = put (board w) (target cc d) "X" ->
      path w' = path w ++ [target cc d] ->
      finished w' = finished w -> isBacktracking w' = isBacktracking w ->
      (draws w < draws w')%nat ->
      log w' = log w ++ [Write (fst (target cc d)) (snd (target cc d)) "X";
                         Cursor (target cc d); Push (target cc d)] ->
      Q (target cc d) w') ->
  (forall n d,
      (length bl < 4)%nat -> 0 <= d <= 3 -> existsb (Z.eqb d) bl = false ->
      (forall k, (k <= fuel)%nat -> dirOf (gen w (draws w + k)%nat) <> d) ->
      T (set_draws n w)) ->
  post (move fuel cc bl "X" w) Q T.
Proof.
  intros HI Hcc Hbl H4 HQ HT. unfold move.
  pose proof (blockedList_length (board w) "X" cc) as Hle. rewrite <- Hbl in Hle.
  destruct (Z.ltb_spec (Z.of_nat (length bl)) 4) as [Hlt|Hge].
  2:{ simpl. apply H4. lia. }
  assert (Hshort : (length bl < 4)%nat) by lia.
  apply post_bind. rewrite randint_dir. simpl.
  apply post_bind, post_redraw.
  - intros d n Hfree Hor Hn. simpl in Hn.
    assert (Hd : 0 <= d <= 3).
    { destruct Hor as [->|Hor]; auto using dirOf_range. }
    pose proof Hfree as Hnb. rewrite Hbl in Hnb.
    apply blockedList_free in Hnb; auto.
    apply dirBlocked_free in Hnb as [Hin Hfr].
    pose proof (inv_wf _ _ _ _ _ _ HI) as Hw.
    pose proof (Inv_forward W H s allowed g allowed_X w (target cc d) n HI
                  Hin Hfr) as HI'.
    assert (Hgoal : forall w',
               w' = add_log [Push (target cc d)]
                      (set_path (path w ++ [target cc d])
                         (add_log [Cursor (target cc d)]
                            (set_board (put (board w) (target cc d) "X")
                               (add_log [Write (fst (target cc d))
                                           (snd (target cc d)) "X"]
                                  (set_draws n w))))) ->
               Q (target cc d) w').
    { intros w' ->. apply (HQ d); auto.
      simpl. now rewrite <- !app_assoc. }
    assert (Hc : d = 0 \/ d = 1 \/ d = 2 \/ d = 3) by lia.
    unfold advance, shift.
    destruct Hc as [-> | [-> | [-> | ->]]]; simpl Z.eqb; cbv iota;
      repeat step; (apply (post_store W H); [exact Hw|exact Hin|]);
      repeat step; apply Hgoal; reflexivity.
  - intros n Hb Hall.
    destruct (blockedList_short (board w) "X" cc) as (d & Hd & Hfree).
    { now rewrite <- Hbl. }
    rewrite <- Hbl in Hfree.
    apply (HT n d); auto.
    intros k Hk E.
    assert (Hblk : existsb (Z.eqb (dirOf (gen w (draws w + k)%nat))) bl = true).
    { destruct k as [|k].
      - now rewrite Nat.add_0_r.
      - specialize (Hall k). simpl in Hall.
        replace (draws w + S k)%nat with (S (draws w + k)) by lia.
        apply Hall. lia. }
    rewrite E in Hblk. congruence.
Qed.

End Forward.

(** ** Backtracking *)

Lemma getitem_last {A : Type} (l : list A) (x : A) :
  getitem (l ++ [x]) (Z.of_nat (length (l ++ [x])) - 1) = Some x.
Proof.
  rewrite getitem_inside by (rewrite length_app; simpl; lia).
  rewrite length_app. simpl.
  replace (Z.to_nat (Z.of_nat (length l + 1) - 1)) with (length l) by lia.
  apply list_lookup_middle. reflexivity.
Qed.

Section Backtracking.

Variables W H : Z.
Variable s : cell.
Variable allowed : ascii -> Prop.
Variable g : nat -> Z.
Hypothesis allowed_X : allowed "X"%char.
Hypothesis allowed_O : allowed "O"%char.

#[local] Abbreviation Inv := (Inv W H s allowed g).

Lemma post_backtrackStep (w : world) (l : list cell) (top : cell)
  (Q : cell -> world -> Prop) (T : world -> Prop) :
  Inv w -> path w = l ++ [top] ->
  (forall cc' w',
      Inv w' -> inb W H cc' -> path w' = l -> finished w' = finished w ->
      (isBacktracking w' = isBacktracking w
       /\ unmarked (board w') = unmarked (board w)
       /\ draws w' = draws w)
      \/ (isBacktracking w' = false
          /\ (unmarked (board w') + 1 = unmarked (board w))%nat
          /\ draws w' = S (draws w)) ->
      cellOf (board w') top = "O"%char
      /\ (cc' = top
          \/ (cc' <> top /\ cellOf (board w) cc' = "."%char
              /\ cellOf (board w') cc' = "X"%char /\ (cc' ∉ l))) ->
      Q cc' w') ->
  post (backtrackStep w) Q T.
Proof.
  intros HI E HQ. unfold backtrackStep.
  step. step. rewrite E, getitem_last.
  repeat step.
  change (path (add_log [Cursor top] w)) with (path w).
  rewrite E, removelast_last.
  destruct (Inv_pop W H s allowed g w l top HI E)
    as (HI1 & Htop & Hts & Htl & Hx).
  unfold moveToSpecificCell. destruct top as [tr tc].
  set (w1 := add_log [Pop (tr, tc)]
               (set_path l (add_log [Cursor (tr, tc)] w))) in *.
  apply (post_store W H); [exact (inv_wf _ _ _ _ _ _ HI1)|exact Htop|].
  pose proof (Inv_seal W H s allowed g allowed_O w1 (tr, tc) HI1 Htop Hts Htl)
    as HI2.
  set (w2 := set_board (put (board w1) (tr, tc) "O")
               (add_log [Write tr tc "O"] w1)) in *.
  assert (HO2 : cellOf (board w2) (tr, tc) = "O"%char).
  { simpl. apply (cellOf_put_eq W H); auto.
    exact (proj2 (proj2 (inv_wf _ _ _ _ _ _ HI))). }
  assert (Hu2 : unmarked (board w2) = unmarked (board w)).
  { apply (unmarked_remark W H); auto.
    - exact (proj2 (proj2 (inv_wf _ _ _ _ _ _ HI))).
    - change (board w1) with (board w). now rewrite Hx. }
  step.
  apply (post_foundUnvisitedCell W H);
    [exact (inv_wf _ _ _ _ _ _ HI2)|exact Htop|].
  intros evs n r Hevs Hr.
  assert (HI3 : Inv (set_draws n (add_log evs w2))).
  { apply Inv_draws, Inv_reads; auto. }
  destruct r as [[ur uc]|].
  - destruct Hr as (Hu & Hdot & Hn).
    change (cellOf (board w2) (ur, uc) = "."%char) in Hdot.
    repeat step.
    apply (post_store W H); [exact (inv_wf _ _ _ _ _ _ HI3)|exact Hu|].
    repeat step.
    apply HQ; auto.
    + apply Inv_backtracking.
      apply (Inv_mark W H s allowed g allowed_X
               (add_log [Cursor (ur, uc)] (set_draws n (add_log evs w2)))
               (ur, uc)); [apply Inv_cursor; auto|exact Hu|].
      change (free (cellOf (board w2) (ur, uc)) = true).
      now rewrite Hdot.
    + right. split; [reflexivity|]. split; [|exact Hn].
      rewrite <- Hu2. apply (unmarked_carve W H); auto.
      * exact (proj2 (proj2 (inv_wf _ _ _ _ _ _ HI2))).
      * simpl. simpl in Hdot. now rewrite Hdot.
    + assert (Hne : (ur, uc) <> (tr, tc)).
      { intros Heq. rewrite Heq, HO2 in Hdot. discriminate Hdot. }
      split.
      * simpl. rewrite (cellOf_put_ne W H); auto.
      * right. split; [exact Hne|]. split; [|split].
        -- rewrite <- Hdot. simpl. symmetry.
           apply (cellOf_put_ne W H); auto.
        -- simpl. apply (cellOf_put_eq W H); auto.
           apply (wfb_put W H). exact (proj2 (proj2 (inv_wf _ _ _ _ _ _ HI))).
        -- intros Hin. pose proof (inv_path _ _ _ _ _ _ HI2) as Hp2.
           rewrite Forall_forall in Hp2.
           destruct (Hp2 _ Hin) as (_ & Hx2 & _).
           assert (E2 : cellOf (board w2) (ur, uc) = "X"%char) by exact Hx2.
           rewrite E2 in Hdot. discriminate Hdot.
  - step. apply HQ; auto.
Qed.

Lemma post_backtrackLoop (Q : cell -> world -> Prop) (fuel : nat) :
  forall (cc : cell) (w : world) (T : world -> Prop),
    Inv w -> inb W H cc ->
    (forall cc' w',
        Inv w' -> inb W H cc' -> finished w' = finished w ->
        isBacktracking w' = false \/ path w' = [] ->
        (isBacktracking w' = isBacktracking w
         /\ unmarked (board w') = unmarked (board w)
         /\ draws w' = draws w
         /\ (isBacktracking w = true -> path w' = [])
         /\ (isBacktracking w = false -> w' = w /\ cc' = cc))
        \/ (isBacktracking w = true /\ isBacktracking w' = false
            /\ (unmarked (board w') + 1 = unmarked (board w))%nat
            /\ draws w' = S (draws w)) ->
        Q cc' w') ->
    (forall w', Inv w' -> (fuel <= length (path w))%nat -> T w') ->
    post (backtrackLoop fuel cc w) Q T.
Proof.
  assert (Hstay : forall cc w,
             Inv w -> inb W H cc ->
             isBacktracking w && (0 <? Z.of_nat (length (path w))) = false ->
             (forall cc' w',
                 Inv w' -> inb W H cc' -> finished w' = finished w ->
                 isBacktracking w' = false \/ path w' = [] ->
                 (isBacktracking w' = isBacktracking w
                  /\ unmarked (board w') = unmarked (board w)
                  /\ draws w' = draws w
                  /\ (isBacktracking w = true -> path w' = [])
         /\ (isBacktracking w = false -> w' = w /\ cc' = cc))
                 \/ (isBacktracking w = true /\ isBacktracking w' = false
                     /\ (unmarked (board w') + 1 = unmarked (board w))%nat
                     /\ draws w' = S (draws w)) ->
                 Q cc' w') ->
             Q cc w).
  { intros cc w HI Hcc Hc HQ.
    assert (Hend : isBacktracking w = false \/ path w = []).
    { apply andb_false_iff in Hc as [Hc|Hc]; [now left|right].
      apply Z.ltb_ge in Hc. destruct (path w); [reflexivity|simpl in Hc; lia]. }
    apply HQ; auto. left. repeat split; auto.
    intros Hb. destruct Hend as [Hf|Hp]; [congruence|assumption]. }
  induction fuel as [|fuel IH]; intros cc w T HI Hcc HQ HT.
  - simpl. step. step. step. step.
    destruct (isBacktracking w && (0 <? Z.of_nat (length (path w)))) eqn:Hc.
    + simpl. apply HT; auto. lia.
    + step. apply (Hstay cc w); auto.
  - simpl. step. step. step. step.
    destruct (isBacktracking w && (0 <? Z.of_nat (length (path w)))) eqn:Hc.
    + apply andb_true_iff in Hc as [Hb Hl]. apply Z.ltb_lt in Hl.
      destruct (exists_last (l := path w)) as (p & a & Ep).
      { intros Ep. rewrite Ep in Hl. simpl in Hl. lia. }
      step. apply (post_backtrackStep w p a); auto.
      intros c1 w1 HI1 Hc1 Hp1 Hf1 Hcase _.
      apply IH; auto.
      * intros cc' w' HI' Hcc' Hf' Hend Hcase'.
        apply HQ; auto; [congruence|].
        destruct Hcase as [(Hb1 & Hu1 & Hd1)|(Hb1 & Hu1 & Hd1)].
        -- destruct Hcase' as [(Hb2 & Hu2 & Hd2 & He2 & _)
                              |(Hb2 & Hb2' & Hu2 & Hd2)].
           ++ left. repeat split; try congruence.
              intros _. apply He2. congruence.
           ++ right. repeat split; try congruence; lia.
        -- destruct Hcase' as [(Hb2 & Hu2 & Hd2 & He2 & _)
                              |(Hb2 & Hb2' & Hu2 & Hd2)].
           ++ right. repeat split; try congruence; lia.
           ++ congruence.
      * intros w' HI' Hle. apply HT; auto.
        rewrite Ep, length_app. simpl. rewrite Hp1 in Hle. lia.
    + step. apply (Hstay cc w); auto.
Qed.

End Backtracking.

(** ** One pass of the main loop *)

Section Pass.

Variables W H : Z.
Variable s : cell.
Variable allowed : ascii -> Prop.
Variable g : nat -> Z.
Hypothesis allowed_X : allowed "X"%char.
Hypothesis allowed_O : allowed "O"%char.

#[local] Abbreviation Inv := (Inv W H s allowed g).

Lemma post_iteration (fuel : nat) (cc : cell) (w : world)
  (Q : cell -> world -> Prop) (T : world -> Prop) :
  Inv w -> inb W H cc ->
  (forall cc' w',
      Inv w' -> inb W H cc' ->
      finished w' = true
      \/ (finished w' = finished w
          /\ (potential w' < potential w)%nat /\ loopHead w'
          /\ ((unmarked (board w') < unmarked (board w))%nat
              \/ switched w w')) ->
      Q cc' w') ->
  (forall w',
      Inv w' ->
      (fuel <= length (path w))%nat
      \/ (exists n d, (draws w <= n <= S (draws w))%nat /\ 0 <= d <= 3
                      /\ forall k, (k <= fuel)%nat -> dirOf (g (n + k)%nat) <> d) ->
      T w') ->
  post (iteration fuel cc w) Q T.
Proof.
  intros HI Hcc HQ HT. unfold iteration.
  step. apply (post_backtrackLoop W H s allowed g allowed_X allowed_O); auto.
  intros c1 w1 HI1 Hc1 Hf1 Hend Hcase.
  step. step. step. step.
  destruct (isBacktracking w1 && (Z.of_nat (length (path w1)) =? 0)) eqn:Hbrk.
  { repeat step. apply HQ; auto using Inv_finished. }
  assert (Hb1 : isBacktracking w1 = false).
  { destruct Hend as [Hb|Hp]; [assumption|].
    rewrite Hp in Hbrk. simpl in Hbrk. now rewrite andb_true_r in Hbrk. }
  assert (Hpot : ((unmarked (board w1) < potential w)%nat
                  /\ isBacktracking w = false /\ w1 = w)
                 \/ ((unmarked (board w1) < unmarked (board w))%nat
                     /\ isBacktracking w = true)).
  { unfold potential.
    destruct Hcase as [(Hb & Hu & Hd & _ & Hsame)|(Hb & _ & Hu & Hd)].
    - left. rewrite Hb1 in Hb. rewrite <- Hb.
      destruct Hsame as [-> _]; auto. split; [lia|auto].
    - right. split; [lia|assumption]. }
  assert (Hdr : (draws w <= draws w1 <= S (draws w))%nat).
  { destruct Hcase as [(_ & _ & Hd & _)|(_ & _ & _ & Hd)]; lia. }
  pose proof (inv_wf _ _ _ _ _ _ HI1) as Hw1.
  step. apply (post_getBlockedDirections W H); auto.
  intros evs Hevs.
  set (bl := blockedList W H (board w1) "X" c1).
  assert (HIe : Inv (add_log evs w1)) by (apply Inv_reads; auto).
  assert (Hfresh : forall w' : world,
             wfw W H w' ->
             (exists p, inb W H p /\ cellOf (board w') p = "."%char) ->
             (1 <= unmarked (board w'))%nat).
  { intros w' (_ & _ & Hb') (p & Hp & Hdot).
    apply (unmarked_has_free W H _ p); auto. now rewrite Hdot. }
  step.
  destruct (Z.eqb_spec (Z.of_nat (length bl)) 4) as [E4|E4].
  - step. step.
    apply (post_move W H s allowed g allowed_X fuel c1 bl); auto.
    + apply Inv_backtracking; auto.
    + intros _. step.
      apply (post_checkIfThereAreNoMoreDotsInTheBoard W H); [exact Hw1|].
      intros evs' v Hevs' Hv. step. destruct v.
      * repeat step. apply HQ; auto.
        apply Inv_finished, Inv_reads; [apply Inv_backtracking|]; auto.
      * repeat step. apply HQ; auto.
        { apply Inv_reads; [apply Inv_backtracking|]; auto. }
        right. split; [exact Hf1|].
        unfold potential, loopHead, switched. simpl.
        split; [|split].
        -- destruct Hpot as [(Hlt & _ & _)|(Hlt & Hbw)].
           ++ unfold potential in Hlt. lia.
           ++ rewrite Hbw. lia.
        -- intros _. apply (Hfresh w1); auto.
        -- destruct Hpot as [(_ & Hbw & ->)|(Hlt & _)]; auto.
    + intros d w' Hlt. lia.
    + intros n d Hlt. lia.
  - step. step.
    apply (post_move W H s allowed g allowed_X fuel c1 bl); auto.
    + intros E. lia.
    + intros d w' Hlt Hd Hfree Hin Hfr HI' Hb' Hp' Hfin' Hbt' Hdr' _.
      pose proof (inv_wf _ _ _ _ _ _ HI') as Hw'.
      assert (Hu' : (unmarked (board w') + 1 = unmarked (board w1))%nat).
      { rewrite Hb'. apply (unmarked_carve W H); auto. apply Hw1. }
      step.
      apply (post_checkIfThereAreNoMoreDotsInTheBoard W H); [exact Hw'|].
      intros evs' v Hevs' Hv. step. destruct v.
      * repeat step. apply HQ; auto.
        apply Inv_finished, Inv_reads; auto.
      * repeat step. apply HQ; auto.
        { apply Inv_reads; auto. }
        right. split; [simpl; simpl in Hfin'; congruence|].
        unfold potential, loopHead. simpl. simpl in Hbt'.
        rewrite Hbt', Hb1.
        split; [|split].
        -- destruct Hpot as [(Hlt' & _ & _)|(Hlt' & Hbw)].
           ++ unfold potential in Hlt'. lia.
           ++ rewrite Hbw. lia.
        -- discriminate.
        -- left. destruct Hpot as [(_ & Hbw & ->)|(Hlt' & _)]; lia.
    + intros n d Hlt Hd Hfree Hall.
      apply HT; [apply Inv_draws; auto|].
      right. exists (draws w1), d. split; [exact Hdr|]. split; [exact Hd|].
      intros k Hk. specialize (Hall k Hk). simpl in Hall.
      now rewrite (inv_gen _ _ _ _ _ _ HI1) in Hall.
Qed.

End Pass.

(** ** More fuel never changes a result *)

Lemma refines_refl {A : Type} (o : outcome A) : refines o o.
Proof. destruct o; simpl; auto. Qed.

Lemma refines_bind {A B : Type} (m1 m2 : M A) (k1 k2 : A -> M B) (w : world) :
  refines (m1 w) (m2 w) ->
  (forall a w', refines (k1 a w') (k2 a w')) ->
  refines (bind m1 k1 w) (bind m2 k2 w).
Proof.
  intros Hm Hk. unfold bind.
  destruct (m1 w) as [a w'|e w'|w'] eqn:E; simpl in *.
  - rewrite <- Hm. apply Hk.
  - now rewrite <- Hm.
  - exact I.
Qed.

Lemma refines_bind_r {A B : Type} (m : M A) (k1 k2 : A -> M B) (w : world) :
  (forall a w', refines (k1 a w') (k2 a w')) ->
  refines (bind m k1 w) (bind m k2 w).
Proof. intros. apply refines_bind; auto using refines_refl. Qed.

Lemma redraw_mono (bl : list Z) (f1 : nat) :
  forall (f2 : nat) (d : Z) (w : world),
    (f1 <= f2)%nat -> refines (redraw f1 bl d w) (redraw f2 bl d w).
Proof.
  induction f1 as [|f1 IH]; intros f2 d w Hle.
  - simpl. destruct (existsb (Z.eqb d) bl) eqn:E.
    + exact I.
    + destruct f2; simpl; rewrite E; reflexivity.
  - destruct f2 as [|f2]; [lia|]. simpl.
    destruct (existsb (Z.eqb d) bl) eqn:E.
    + apply refines_bind_r. intros a w'. apply IH. lia.
    + reflexivity.
Qed.

Lemma move_mono (f1 f2 : nat) (cc : cell) (bl : list Z) (ch : ascii)
  (w : world) :
  (f1 <= f2)%nat -> refines (move f1 cc bl ch w) (move f2 cc bl ch w).
Proof.
  intros Hle. unfold move.
  destruct (Z.of_nat (length bl) <? 4); [|apply refines_refl].
  apply refines_bind_r. intros d0 w0.
  apply refines_bind; [now apply redraw_mono|].
  intros; apply refines_refl.
Qed.

Lemma backtrackLoop_mono (f1 : nat) :
  forall (f2 : nat) (cc : cell) (w : world),
    (f1 <= f2)%nat -> refines (backtrackLoop f1 cc w) (backtrackLoop f2 cc w).
Proof.
  induction f1 as [|f1 IH]; intros f2 cc w Hle.
  - simpl. unfold bind at 1 2. simpl.
    destruct (isBacktracking w && (0 <? Z.of_nat (length (path w)))) eqn:E.
    + exact I.
    + destruct f2; simpl; unfold bind at 1 2; simpl; rewrite E; reflexivity.
  - destruct f2 as [|f2]; [lia|]. simpl.
    apply refines_bind_r. intros bt w1. apply refines_bind_r. intros p w2.
    destruct (bt && (0 <? Z.of_nat (length p))); [|apply refines_refl].
    apply refines_bind_r. intros c w3. apply IH. lia.
Qed.

Lemma iteration_mono (f1 f2 : nat) (cc : cell) (w : world) :
  (f1 <= f2)%nat -> refines (iteration f1 cc w) (iteration f2 cc w).
Proof.
  intros Hle. unfold iteration.
  apply refines_bind; [now apply backtrackLoop_mono|].
  intros c1 w1. apply refines_bind_r. intros bt w2.
  apply refines_bind_r. intros p w3.
  destruct (bt && (Z.of_nat (length p) =? 0)); [apply refines_refl|].
  apply refines_bind_r. intros bl w4. apply refines_bind_r. intros u w5.
  apply refines_bind; [now apply move_mono|].
  intros; apply refines_refl.
Qed.

Lemma mainLoop_mono (r1 : nat) :
  forall (r2 f1 f2 : nat) (cc : cell) (w : world),
    (r1 <= r2)%nat -> (f1 <= f2)%nat ->
    refines (mainLoop r1 f1 cc w) (mainLoop r2 f2 cc w).
Proof.
  induction r1 as [|r1 IH]; intros r2 f1 f2 cc w Hr Hf.
  - simpl. unfold bind at 1. simpl.
    destruct (finished w) eqn:E.
    + destruct r2; simpl; unfold bind at 1; simpl; rewrite E; reflexivity.
    + exact I.
  - destruct r2 as [|r2]; [lia|]. simpl.
    apply refines_bind_r. intros fin w1.
    destruct fin; [apply refines_refl|].
    apply refines_bind; [now apply iteration_mono|].
    intros c w2. apply IH; lia.
Qed.

(** ** The main loop *)

Lemma mainLoop_S (rounds fuel : nat) (cc : cell) (w : world) :
  finished w = false ->
  mainLoop (S rounds) fuel cc w
  = bind (iteration fuel cc) (mainLoop rounds fuel) w.
Proof.
  intros E. simpl. unfold bind at 1. unfold gets. now rewrite E.
Qed.

Lemma mainLoop_finished (rounds fuel : nat) (cc : cell) (w : world) :
  finished w = true -> mainLoop rounds fuel cc w = Done cc w.
Proof.
  intros E. destruct rounds; simpl; unfold bind, gets; now rewrite E.
Qed.

Lemma dirOf_mod (x : Z) : dirOf x = x mod 4.
Proof. reflexivity. Qed.

Lemma fair_window (g : nat -> Z) (n : nat) :
  fair g ->
  exists F : nat, forall d, 0 <= d <= 3 ->
    exists k : nat, (k <= F)%nat /\ dirOf (g (n + k)%nat) = d.
Proof.
  intros Hf.
  destruct (Hf n 0) as [k0 H0]; [lia|].
  destruct (Hf n 1) as [k1 H1]; [lia|].
  destruct (Hf n 2) as [k2 H2]; [lia|].
  destruct (Hf n 3) as [k3 H3]; [lia|].
  exists (k0 + k1 + k2 + k3)%nat. intros d Hd.
  assert (Hc : d = 0 \/ d = 1 \/ d = 2 \/ d = 3) by lia.
  destruct Hc as [-> | [-> | [-> | ->]]];
    [exists k0|exists k1|exists k2|exists k3];
    (split; [lia|rewrite dirOf_mod; assumption]).
Qed.

Section Loop.

Variables W H : Z.
Variable s : cell.
Variable allowed : ascii -> Prop.
Variable g : nat -> Z.
Hypothesis allowed_X : allowed "X"%char.
Hypothesis allowed_O : allowed "O"%char.

#[local] Abbreviation Inv := (Inv W H s allowed g).

(** Whatever the fuel, the loop keeps the invariant, and when it returns the
    run is finished. *)
Lemma post_mainLoop (fuel rounds : nat) :
  forall (cc : cell) (w : world) (Q : cell -> world -> Prop)
         (T : world -> Prop),
    Inv w -> inb W H cc ->
    (forall cc' w', Inv w' -> inb W H cc' -> finished w' = true -> Q cc' w') ->
    (forall w', Inv w' -> T w') ->
    post (mainLoop rounds fuel cc w) Q T.
Proof.
  induction rounds as [|rounds IH]; intros cc w Q T HI Hcc HQ HT; simpl.
  - step. step. destruct (finished w) eqn:E; simpl; auto.
  - step. step. destruct (finished w) eqn:E; [simpl; auto|].
    step.
    apply (post_iteration W H s allowed g allowed_X allowed_O); auto.
Qed.

(** With enough fuel for the inner loops, [rounds] passes suffice as soon
    as [rounds] covers the variant. *)
Lemma mainLoop_total (rounds : nat) :
  fair g ->
  forall (cc : cell) (w : world),
    Inv w -> inb W H cc ->
    (finished w = false -> (potential w <= rounds)%nat /\ loopHead w) ->
    exists fuel cc' w',
      mainLoop rounds fuel cc w = Done cc' w'
      /\ Inv w' /\ inb W H cc' /\ finished w' = true.
Proof.
  intros Hfair.
  induction rounds as [|rounds IH]; intros cc w HI Hcc Hpre.
  - destruct (finished w) eqn:E.
    + exists 0%nat, cc, w. rewrite mainLoop_finished by assumption. auto.
    + destruct (Hpre eq_refl) as [Hp Hl]. unfold potential, loopHead in *.
      destruct (isBacktracking w); [specialize (Hl eq_refl)|]; lia.
  - destruct (finished w) eqn:E.
    + exists 0%nat, cc, w. rewrite mainLoop_finished by assumption. auto.
    + destruct (Hpre eq_refl) as [Hp Hl].
      destruct (fair_window g (draws w) Hfair) as [F0 HF0].
      destruct (fair_window g (S (draws w)) Hfair) as [F1 HF1].
      remember (S (length (path w)) + F0 + F1)%nat as fuel1 eqn:Ef1.
      pose proof (post_iteration W H s allowed g allowed_X allowed_O
                    fuel1 cc w
                    (fun cc' w' =>
                       Inv w' /\ inb W H cc'
                       /\ (finished w' = false ->
                           (potential w' <= rounds)%nat /\ loopHead w'))
                    never HI Hcc) as Hit.
      apply post_done in Hit.
      * destruct Hit as (c1 & w1 & E1 & HI1 & Hc1 & Hpre1).
        destruct (IH c1 w1 HI1 Hc1 Hpre1) as (fuel2 & c2 & w2 & E2 & Hres).
        exists (fuel1 + fuel2)%nat, c2, w2. split; [|exact Hres].
        pose proof (iteration_mono fuel1 (fuel1 + fuel2) cc w ltac:(lia))
          as M1.
        pose proof (mainLoop_mono rounds rounds fuel2 (fuel1 + fuel2) c1 w1
                      ltac:(lia) ltac:(lia)) as M2.
        rewrite E1 in M1. rewrite E2 in M2. simpl in M1, M2.
        rewrite mainLoop_S by assumption.
        unfold bind. rewrite <- M1. exact (eq_sym M2).
      * intros c1 w1 HI1 Hc1 Hcase. split; [auto|split; [auto|]].
        intros Ef. destruct Hcase as [Ht|(_ & Hlt & Hlh & _)];
          [congruence|]. split; [lia|auto].
      * intros w' _ [Hle|(n & d & Hn & Hd & Hall)].
        -- lia.
        -- assert (Hc : n = draws w \/ n = S (draws w)) by lia.
           destruct Hc as [-> | ->].
           ++ destruct (HF0 d Hd) as (k & Hk & Ek).
              apply (Hall k); [lia|assumption].
           ++ destruct (HF1 d Hd) as (k & Hk & Ek).
              apply (Hall k); [lia|assumption].
Qed.

End Loop.

(** ** The finalization pass *)

Lemma polished_idem (x : ascii) : polished (polished x) = polished x.
Proof.
  unfold polished.
  destruct (Ascii.eqb_spec x "X") as [->|HX]; [reflexivity|].
  destruct (Ascii.eqb_spec x "O") as [->|HO]; [reflexivity|].
  destruct (Ascii.eqb_spec x "X"); [contradiction|].
  destruct (Ascii.eqb_spec x "O"); [contradiction|reflexivity].
Qed.

Lemma repainted_refl (W H : Z) (w : world) : wfw W H w -> repainted W H w w.
Proof.
  intros Hw. repeat split; try apply Hw. exists []. split.
  - now rewrite app_nil_r.
  - constructor.
Qed.

Lemma repainted_trans (W H : Z) (w1 w2 w3 : world) :
  repainted W H w1 w2 -> repainted W H w2 w3 -> repainted W H w1 w3.
Proof.
  intros (_ & F1 & P1 & B1 & G1 & D1 & S1 & e1 & L1 & A1)
         (Hw & F2 & P2 & B2 & G2 & D2 & S2 & e2 & L2 & A2).
  split; [exact Hw|].
  repeat split; try congruence.
  exists (e1 ++ e2). split.
  - rewrite L2, L1. now rewrite app_assoc.
  - apply Forall_app. split; assumption.
Qed.

Section Polishing.

Variables W H : Z.

Lemma post_forEach {A : Type} (body : A -> M unit)
  (I : list A -> world -> Prop) (l : list A) :
  forall (pre : list A) (w : world) (Q : unit -> world -> Prop)
         (T : world -> Prop),
    I pre w ->
    (forall x pre' w0 (Q' : unit -> world -> Prop) (T' : world -> Prop),
        x ∈ l -> I pre' w0 ->
        (forall w', I (pre' ++ [x]) w' -> Q' tt w') ->
        post (body x w0) Q' T') ->
    (forall w', I (pre ++ l) w' -> Q tt w') ->
    post (forEach l body w) Q T.
Proof.
  induction l as [|x l IH]; intros pre w Q T HI Hbody HQ; cbn [forEach].
  - step. apply HQ. now rewrite app_nil_r.
  - step. apply (Hbody x pre); auto.
    { apply list_elem_of_here. }
    intros w' HI'. apply (IH (pre ++ [x])); auto.
    + intros y pre' w0 Q' T' Hy. apply Hbody. now apply list_elem_of_further.
    + intros w'' HI''. apply HQ. now rewrite <- app_assoc in HI''.
Qed.

Ltac wf_put :=
  split; [assumption|split; [assumption|simpl; apply wfb_put; assumption]].

Lemma post_polishCell (i j : Z) (w : world) (Q : unit -> world -> Prop)
  (T : world -> Prop) :
  wfw W H w -> inb W H (i, j) ->
  (forall w',
      repainted W H w w' ->
      cellOf (board w') (i, j) = polished (cellOf (board w) (i, j)) ->
      (forall p, inb W H p -> p <> (i, j) ->
                 cellOf (board w') p = cellOf (board w) p) ->
      Q tt w') ->
  post (polishCell i j w) Q T.
Proof.
  intros Hw Hp HQ. pose proof Hw as (HW & HH & Hb).
  assert (Hacc : forall e, (e = Read i j \/ e = Write i j "#"
                            \/ e = Write i j ".") ->
                           exists r c, inb W H (r, c)
                                       /\ (e = Read r c \/ e = Write r c "#"
                                           \/ e = Write r c ".")).
  { intros e He. exists i, j. auto. }
  unfold polishCell. step. apply (post_load W H); auto.
  step. unfold polished.
  destruct (Ascii.eqb_spec (cellOf (board w) (i, j)) "X") as [EX|NX].
  - apply (post_store W H); auto.
    step. apply (post_load W H); [wf_put|auto|].
    simpl. rewrite (cellOf_put_eq W H) by auto. simpl.
    apply HQ.
    + split; [wf_put|].
      repeat split; auto.
      exists [Read i j; Write i j "#"; Read i j]. split.
      * simpl. now rewrite <- !app_assoc.
      * repeat (apply List.Forall_cons; [apply Hacc; auto|]).
        apply List.Forall_nil.
    + simpl. rewrite EX. apply (cellOf_put_eq W H); auto.
    + intros p Hpin Hne. simpl. apply (cellOf_put_ne W H); auto.
  - step. step. apply (post_load W H); auto.
    change (board (add_log [Read i j] w)) with (board w).
    destruct (Ascii.eqb_spec (cellOf (board w) (i, j)) "O") as [EO|NO].
    + apply (post_store W H); auto.
      apply HQ.
      * split; [wf_put|].
        repeat split; auto.
        exists [Read i j; Read i j; Write i j "."]. split.
        -- simpl. now rewrite <- !app_assoc.
        -- repeat (apply List.Forall_cons; [apply Hacc; auto|]).
           apply List.Forall_nil.
      * simpl. rewrite EO. apply (cellOf_put_eq W H); auto.
      * intros p Hpin Hne. simpl. apply (cellOf_put_ne W H); auto.
    + step. apply HQ; auto.
      * split; [exact Hw|]. repeat split; auto.
        exists [Read i j; Read i j]. split.
        -- simpl. now rewrite <- !app_assoc.
        -- repeat (apply List.Forall_cons; [apply Hacc; auto|]).
           apply List.Forall_nil.
      * simpl. unfold polished.
        destruct (Ascii.eqb_spec (cellOf (board w) (i, j)) "X");
          [contradiction|].
        destruct (Ascii.eqb_spec (cellOf (board w) (i, j)) "O");
          [contradiction|reflexivity].
Qed.

Lemma post_polishBoard (w : world) (Q : unit -> world -> Prop)
  (T : world -> Prop) :
  wfw W H w ->
  (forall w',
      repainted W H w w' ->
      (forall p, inb W H p ->
                 cellOf (board w') p = polished (cellOf (board w) p)) ->
      Q tt w') ->
  post (polishBoard w) Q T.
Proof.
  intros Hw HQ. pose proof Hw as (HW & HH & Hb).
  unfold polishBoard. step. step. rewrite HH.
  apply (post_forEach _
           (fun rows w' =>
              repainted W H w w'
              /\ forall p, inb W H p ->
                   cellOf (board w') p = polished (cellOf (board w) p)
                   \/ ((fst p ∉ rows)
                       /\ cellOf (board w') p = cellOf (board w) p))
           (range H) []).
  - split; [now apply repainted_refl|].
    intros p _. right. split; [apply not_elem_of_nil|reflexivity].
  - intros i rows w0 Q' T' Hi [Hrep Hcells] HQ'.
    apply elem_of_seqZ in Hi.
    pose proof Hrep as (Hw0 & _). pose proof Hw0 as (HW0 & _).
    step. step. rewrite HW0.
    apply (post_forEach _
             (fun cols w' =>
                repainted W H w0 w'
                /\ forall p, inb W H p ->
                     (fst p = i -> snd p ∈ cols ->
                      cellOf (board w') p = polished (cellOf (board w) p))
                     /\ (~ (fst p = i /\ snd p ∈ cols) ->
                         cellOf (board w') p = cellOf (board w0) p))
             (range W) []).
    + split; [now apply repainted_refl|].
      intros p _. split; [|reflexivity].
      intros _ Hin. now apply not_elem_of_nil in Hin.
    + intros j cols w1 Q'' T'' Hj [Hrep1 Hcells1] HQ''.
      apply elem_of_seqZ in Hj.
      assert (Hin : inb W H (i, j)) by (split; simpl; lia).
      apply post_polishCell; [apply Hrep1|exact Hin|].
      intros w2 Hrep2 Hij Hother. apply HQ''.
      split; [eapply repainted_trans; eauto|].
      intros p Hp. destruct (decide (p = (i, j))) as [->|Hne].
      * split.
        -- intros _ _. rewrite Hij.
           destruct (decide (j ∈ cols)) as [Hjc|Hjc].
           ++ rewrite (proj1 (Hcells1 (i, j) Hin) eq_refl Hjc).
              apply polished_idem.
           ++ rewrite (proj2 (Hcells1 (i, j) Hin)) by (simpl; tauto).
              destruct (Hcells (i, j) Hin) as [E|[_ E]]; rewrite E;
                auto using polished_idem.
        -- intros Hn. exfalso. apply Hn. simpl. split; [reflexivity|].
           apply elem_of_app. right. apply list_elem_of_here.
      * rewrite (Hother p Hp Hne). destruct (Hcells1 p Hp) as [H1 H2].
        split.
        -- intros Hi' Hc'. apply elem_of_app in Hc' as [Hc'|Hc'].
           ++ auto.
           ++ apply list_elem_of_singleton in Hc'. exfalso. apply Hne.
              destruct p. simpl in *. congruence.
        -- intros Hn. apply H2. intros [Hi' Hc']. apply Hn.
           split; [assumption|]. apply elem_of_app. now left.
    + intros w1 [Hrep1 Hcells1]. apply HQ'.
      split; [eapply repainted_trans; eauto|].
      intros p Hp. destruct (Hcells1 p Hp) as [H1 H2].
      destruct (decide (fst p = i)) as [Hi'|Hi'].
      * left. apply H1; auto. simpl. apply elem_of_seqZ.
        destruct Hp. lia.
      * rewrite H2 by tauto.
        destruct (Hcells p Hp) as [E|[Hnot E]]; [now left|right].
        split; [|assumption].
        intros Hin. apply elem_of_app in Hin as [Hin|Hin]; [contradiction|].
        apply list_elem_of_singleton in Hin. contradiction.
  - intros w' [Hrep Hcells]. apply HQ; auto.
    intros p Hp. destruct (Hcells p Hp) as [E|[Hnot _]]; [assumption|].
    exfalso. apply Hnot. simpl. apply elem_of_seqZ. destruct Hp. lia.
Qed.

End Polishing.

(** ** The whole run *)

Lemma randint_ok (lo hi : Z) (w : world) :
  lo <= hi ->
  randint lo hi w
  = Done (lo + gen w (draws w) mod (hi - lo + 1)) (set_draws (S (draws w)) w).
Proof.
  intros Hle. unfold randint.
  destruct (Z.ltb_spec hi lo); [lia|reflexivity].
Qed.

Lemma randint_range (lo hi x : Z) :
  lo <= hi -> lo <= lo + x mod (hi - lo + 1) <= hi.
Proof.
  intros Hle. pose proof (Z.mod_pos_bound x (hi - lo + 1)). lia.
Qed.

Lemma startCell_inb (W H : Z) (w : world) :
  wfw W H w -> 1 <= W -> 1 <= H -> inb W H (startCell w).
Proof.
  intros (HW & HH & _) Hw Hh. unfold startCell, inb. simpl.
  rewrite HW, HH.
  pose proof (randint_range 0 (H - 1) (gen w (draws w))).
  pose proof (randint_range 0 (W - 1) (gen w (S (draws w)))).
  lia.
Qed.

Lemma chooseStart_eq (W H : Z) (w : world) :
  wfw W H w -> 1 <= W -> 1 <= H ->
  chooseStart w = Done (startCell w) (started w).
Proof.
  intros Hw HW1 HH1. pose proof (startCell_inb W H w Hw HW1 HH1) as Hin.
  pose proof Hw as (HW & HH & Hb).
  assert (Hpost : post (chooseStart w)
                    (fun a w' => Done a w' = Done (startCell w) (started w))
                    never).
  { unfold chooseStart. step. step. step.
    rewrite randint_ok by lia. cbn [post].
    step. step. step.
    rewrite randint_ok by (simpl; lia). cbn [post].
    step. step. step.
    apply (post_store W H); [exact Hw|exact Hin|].
    step. reflexivity. }
  destruct (chooseStart w); simpl in Hpost; try contradiction.
  exact Hpost.
Qed.

Section Run.

Variables W H : Z.
Variable allowed : ascii -> Prop.
Hypothesis allowed_X : allowed "X"%char.
Hypothesis allowed_O : allowed "O"%char.

Lemma Inv_started (w : world) :
  ready W H w ->
  (forall p, inb W H p -> allowed (cellOf (board w) p)) ->
  Inv W H (startCell w) allowed (gen w) (started w).
Proof.
  intros (Hw & HW1 & HH1 & Hfin & Hbt & Hpath & Hlog) Hallowed.
  pose proof (startCell_inb W H w Hw HW1 HH1) as Hin.
  pose proof Hw as (HW & HH & Hb).
  constructor; simpl.
  - split; [exact HW|split; [exact HH|apply wfb_put; exact Hb]].
  - reflexivity.
  - split; [exact Hin|]. apply (cellOf_put_eq W H); auto.
  - rewrite Hpath. constructor.
  - rewrite Hpath. constructor.
  - rewrite Hlog. simpl. one_event.
  - intros p Hp. destruct (decide (startCell w = p)) as [<-|Hne].
    + rewrite (cellOf_put_eq W H); auto.
    + rewrite (cellOf_put_ne W H); auto.
  - unfold counted. simpl. rewrite Hpath, Hlog.
    pose proof (unmarked_has_mark W H (put (board w) (startCell w) "X")
                  (startCell w) (wfb_put W H _ _ _ Hb) Hin) as Hm.
    rewrite (cellOf_put_eq W H) in Hm by auto.
    specialize (Hm eq_refl).
    rewrite Z2Nat.inj_mul by lia.
    change (carveCount _) with 1%nat. change (popCount _) with 0%nat.
    simpl. lia.
Qed.

Lemma started_potential (w : world) :
  ready W H w -> (potential (started w) <= Z.to_nat (W * H))%nat.
Proof.
  intros (Hw & HW1 & HH1 & Hfin & Hbt & Hpath & Hlog).
  pose proof (startCell_inb W H w Hw HW1 HH1) as Hin.
  pose proof Hw as (HW & HH & Hb).
  unfold potential. simpl. rewrite Hbt.
  pose proof (unmarked_has_mark W H (put (board w) (startCell w) "X")
                (startCell w) (wfb_put W H _ _ _ Hb) Hin) as Hm.
  rewrite (cellOf_put_eq W H) in Hm by auto.
  specialize (Hm eq_refl).
  rewrite Z2Nat.inj_mul by lia. lia.
Qed.

(** The carving phase keeps the invariant whatever the fuel. *)
Lemma post_carve (rounds fuel : nat) (w : world) :
  ready W H w ->
  (forall p, inb W H p -> allowed (cellOf (board w) p)) ->
  post (carve rounds fuel w)
    (fun cc w' => Inv W H (startCell w) allowed (gen w) w'
                  /\ inb W H cc /\ finished w' = true)
    (Inv W H (startCell w) allowed (gen w)).
Proof.
  intros Hr Hallowed. pose proof Hr as (Hw & HW1 & HH1 & _).
  unfold carve. step. rewrite (chooseStart_eq W H) by assumption.
  cbn [post].
  apply (post_mainLoop W H (startCell w) allowed (gen w)); auto.
  - now apply Inv_started.
  - now apply (startCell_inb W H).
Qed.

(** With a fair sequence of draws the carving phase returns within
    [W * H] passes of the main loop. *)
Lemma carve_total (w : world) :
  ready W H w -> fair (gen w) ->
  (forall p, inb W H p -> allowed (cellOf (board w) p)) ->
  exists fuel0 cc w',
    (forall rounds fuel,
        (Z.to_nat (W * H) <= rounds)%nat -> (fuel0 <= fuel)%nat ->
        carve rounds fuel w = Done cc w')
    /\ Inv W H (startCell w) allowed (gen w) w'
    /\ inb W H cc /\ finished w' = true.
Proof.
  intros Hr Hfair Hallowed. pose proof Hr as (Hw & HW1 & HH1 & _ & Hbt & _).
  destruct (mainLoop_total W H (startCell w) allowed (gen w)
              allowed_X allowed_O (Z.to_nat (W * H)) Hfair
              (startCell w) (started w))
    as (fuel0 & cc & w' & E & Hres).
  - now apply Inv_started.
  - now apply (startCell_inb W H).
  - intros _. split; [now apply started_potential|].
    unfold loopHead. simpl. rewrite Hbt. discriminate.
  - exists fuel0, cc, w'. split; [|exact Hres].
    intros rounds fuel Hrounds Hfuel.
    unfold carve, bind. rewrite (chooseStart_eq W H) by assumption.
    pose proof (mainLoop_mono (Z.to_nat (W * H)) rounds fuel0 fuel
                  (startCell w) (started w) Hrounds Hfuel) as Hm.
    rewrite E in Hm. simpl in Hm. now rewrite <- Hm.
Qed.

End Run.

Section Finish.

Variables W H : Z.
Variable allowed : ascii -> Prop.
Hypothesis allowed_X : allowed "X"%char.
Hypothesis allowed_O : allowed "O"%char.

(** Whatever the fuel, the run raises nothing; a timeout leaves a state of
    the carving phase, a return leaves a finalized one. *)
Lemma post_run (rounds fuel : nat) (w : world) :
  ready W H w ->
  (forall p, inb W H p -> allowed (cellOf (board w) p)) ->
  post (procedurelyGeneratedBoard rounds fuel w)
    (fun _ w' => exists w1, Inv W H (startCell w) allowed (gen w) w1
                            /\ finished w1 = true /\ finalized W H w1 w')
    (Inv W H (startCell w) allowed (gen w)).
Proof.
  intros Hr Hallowed. unfold procedurelyGeneratedBoard.
  step. eapply post_mono; [apply (post_carve W H allowed); eauto| |auto].
  intros cc w1 (HI1 & Hcc & Hfin). cbv beta.
  step. step. rewrite Hfin.
  step. apply (post_polishBoard W H); [exact (inv_wf _ _ _ _ _ _ HI1)|].
  intros w' Hrep Hcells. repeat step.
  exists w1. split; [exact HI1|]. split; [exact Hfin|]. split; assumption.
Qed.

Lemma run_mono (r1 r2 f1 f2 : nat) (w : world) :
  (r1 <= r2)%nat -> (f1 <= f2)%nat ->
  refines (procedurelyGeneratedBoard r1 f1 w)
          (procedurelyGeneratedBoard r2 f2 w).
Proof.
  intros Hr Hf. unfold procedurelyGeneratedBoard, carve.
  apply refines_bind; [|intros; apply refines_refl].
  apply refines_bind_r. intros c w1. now apply mainLoop_mono.
Qed.

(** With a fair sequence of draws the run returns, within [W * H] passes of
    the main loop. *)
Lemma run_total (w : world) :
  ready W H w -> fair (gen w) ->
  (forall p, inb W H p -> allowed (cellOf (board w) p)) ->
  exists fuel0 w1 w',
    (forall rounds fuel,
        (Z.to_nat (W * H) <= rounds)%nat -> (fuel0 <= fuel)%nat ->
        procedurelyGeneratedBoard rounds fuel w = Done tt w')
    /\ Inv W H (startCell w) allowed (gen w) w1
    /\ finished w1 = true /\ finalized W H w1 w'.
Proof.
  intros Hr Hfair Hallowed.
  destruct (carve_total W H allowed allowed_X allowed_O w Hr Hfair Hallowed)
    as (fuel0 & cc & w1 & Hcarve & HI1 & Hcc & Hfin).
  pose proof (post_run (Z.to_nat (W * H)) fuel0 w Hr Hallowed) as Hpost.
  assert (Hnot : forall w', procedurelyGeneratedBoard (Z.to_nat (W * H)) fuel0 w
                            <> Timeout w').
  { intros w' E. unfold procedurelyGeneratedBoard in E.
    unfold bind at 1 in E. rewrite Hcarve in E by lia.
    unfold bind at 1 in E. unfold gets at 1 in E. rewrite Hfin in E.
    pose proof (post_polishBoard W H w1 (fun _ _ => True) never
                  (inv_wf _ _ _ _ _ _ HI1) (fun _ _ _ => I)) as Hp.
    unfold bind at 1 in E. destruct (polishBoard w1); simpl in Hp;
      try contradiction. discriminate E. }
  destruct (procedurelyGeneratedBoard (Z.to_nat (W * H)) fuel0 w)
    as [[] w'|e w'|w'] eqn:E; simpl in Hpost; try contradiction.
  2:{ exfalso. now apply (Hnot w'). }
  destruct Hpost as (w1' & HI1' & Hfin' & Hfinal).
  exists fuel0, w1', w'. split; [|auto].
  intros rounds fuel Hrounds Hfuel.
  pose proof (run_mono (Z.to_nat (W * H)) rounds fuel0 fuel w Hrounds Hfuel)
    as Hm.
  rewrite E in Hm. simpl in Hm. now rewrite <- Hm.
Qed.

End Finish.

(** ** Construction *)

Lemma wfb_blank (W H : Z) : wfb W H (blank W H).
Proof.
  unfold wfb, blank. split.
  - apply length_replicate.
  - apply Forall_replicate. apply length_replicate.
Qed.

Lemma cellOf_blank (W H : Z) (p : cell) :
  inb W H p -> cellOf (blank W H) p = "."%char.
Proof.
  intros [Hr Hc]. unfold cellOf, blank.
  rewrite lookup_replicate_2 by lia.
  rewrite lookup_replicate_2 by lia. reflexivity.
Qed.

Lemma wfb_pointwise (W H : Z) (P : ascii -> Prop) (b : list (list ascii)) :
  wfb W H b -> (forall p, inb W H p -> P (cellOf b p)) ->
  Forall (Forall P) b.
Proof.
  intros [Hlen Hrows] Hcells.
  apply Forall_lookup. intros i row Hrow.
  apply Forall_lookup. intros j x Hx.
  pose proof (lookup_lt_Some _ _ _ Hrow) as Hi.
  pose proof (lookup_lt_Some _ _ _ Hx) as Hj.
  assert (Hl : length row = Z.to_nat W).
  { rewrite Forall_forall in Hrows. apply Hrows.
    eapply list_elem_of_lookup_2; eauto. }
  specialize (Hcells (Z.of_nat i, Z.of_nat j)).
  unfold cellOf in Hcells. simpl in Hcells.
  rewrite !Nat2Z.id, Hrow, Hx in Hcells. apply Hcells.
  split; simpl; lia.
Qed.

Section Constructed.

Variable seeded : Z -> nat -> Z.

Lemma ready_init (ambient : nat -> Z) (used : nat) (b : list (list ascii))
  (W H : Z) (sd : option Z) :
  1 <= W -> 1 <= H -> wfb W H b ->
  ready W H (init seeded ambient used b W H sd)
  /\ gen (init seeded ambient used b W H sd) = source seeded ambient sd
  /\ board (init seeded ambient used b W H sd) = b.
Proof.
  intros HW HH Hb. unfold ready, wfw, init, source.
  destruct sd; simpl; auto 20.
Qed.

Lemma generate_eq (ambient : nat -> Z) (used : nat) (b : list (list ascii))
  (W H : Z) (sd : option Z) (rounds fuel : nat) (w' : world) :
  procedurelyGeneratedBoard rounds fuel (init seeded ambient used b W H sd)
  = Done tt w' ->
  generate seeded ambient used b W H sd rounds fuel = Done (board w') w'.
Proof.
  intros E. unfold generate, bind. now rewrite E.
Qed.

End Constructed.

(** * The claims *)

Lemma fair_counting : fair counting.
Proof.
  intros n d Hd. exists (Z.to_nat ((d - Z.of_nat n) mod 4)).
  unfold counting.
  pose proof (Z.mod_pos_bound (d - Z.of_nat n) 4 ltac:(lia)) as Hb.
  rewrite Nat2Z.inj_add, Z2Nat.id by lia.
  rewrite Zplus_mod_idemp_r.
  replace (Z.of_nat n + (d - Z.of_nat n)) with d by lia.
  apply Z.mod_small. lia.
Qed.

Lemma accesses_inb (W H : Z) (evs : list event) :
  accesses W H evs -> Forall (ev_inb W H) evs.
Proof.
  intros Ha. eapply Forall_impl; [exact Ha|].
  intros e (r & c & Hin & [-> | [-> | ->]]); exact Hin.
Qed.

Lemma accesses_no_push (W H : Z) (evs : list event) (p : cell) :
  accesses W H evs -> Push p ∉ evs.
Proof.
  intros Ha Hin. unfold accesses in Ha. rewrite Forall_forall in Ha.
  destruct (Ha _ Hin) as (r & c & _ & [E|[E|E]]); discriminate E.
Qed.

(** C10: throughout a run on a buffer of matching dimensions, with width and
    height at least 1, every subscript of the board (read or write) and every
    value the cursor takes lies inside the grid, and nothing is raised; this
    holds for the state reached when the fuel runs out as well as for the
    final state. *)
Theorem accesses_in_bounds (w : world) (W H : Z) (rounds fuel : nat) :
  ready W H w ->
  match procedurelyGeneratedBoard rounds fuel w with
  | Done _ w' => Forall (ev_inb W H) (log w')
  | Timeout w' => Forall (ev_inb W H) (log w')
  | Raise _ _ => False
  end.
Proof.
  intros Hr.
  pose proof (post_run W H (fun _ => True) I I rounds fuel w Hr
                (fun _ _ => I)) as Hpost.
  assert (Hinv : forall w', Inv W H (startCell w) (fun _ => True) (gen w) w' ->
                            Forall (ev_inb W H) (log w')).
  { intros w' HI. eapply Forall_impl; [exact (inv_log _ _ _ _ _ _ HI)|].
    intros e [He _]. exact He. }
  destruct (procedurelyGeneratedBoard rounds fuel w) as [[] w'|e w'|w'];
    simpl in Hpost; auto.
  destruct Hpost as (w1 & HI1 & _ & (_ & _ & _ & _ & _ & _ & _ & evs & -> & Ha)
                     & _).
  apply Forall_app. split; [now apply Hinv|now apply accesses_inb].
Qed.

Lemma accesses_in_bounds_witness :
  match procedurelyGeneratedBoard 4 4
          (World (blank 2 2) 2 2 false [] false None counting 0 []) with
  | Done _ w' => Forall (ev_inb 2 2) (log w')
  | Timeout w' => Forall (ev_inb 2 2) (log w')
  | Raise _ _ => False
  end.
Proof.
  apply accesses_in_bounds.
  unfold ready, wfw. simpl.
  split; [split; [reflexivity|split; [reflexivity|apply (wfb_blank 2 2)]]|].
  repeat split; lia.
Defined.

Section Claims.

Variable seeded : Z -> nat -> Z.

(** With fair draws a run on a buffer of matching dimensions returns. *)
Lemma generate_total (ambient : nat -> Z) (used : nat)
  (b : list (list ascii)) (W H : Z) (sd : option Z) :
  1 <= W -> 1 <= H -> wfb W H b -> fair (source seeded ambient sd) ->
  exists fuel0 grid w',
    forall rounds fuel,
      (Z.to_nat (W * H) <= rounds)%nat -> (fuel0 <= fuel)%nat ->
      generate seeded ambient used b W H sd rounds fuel = Done grid w'.
Proof.
  intros HW HH Hb Hfair.
  destruct (ready_init seeded ambient used b W H sd HW HH Hb)
    as (Hr & Hg & Hboard).
  rewrite <- Hg in Hfair.
  destruct (run_total W H (fun _ => True) I I _ Hr Hfair (fun _ _ => I))
    as (fuel0 & w1 & w' & Hrun & _).
  exists fuel0, (board w'), w'.
  intros rounds fuel Hrounds Hfuel. apply generate_eq. now apply Hrun.
Qed.

(** C4: on a buffer of matching dimensions with width and height at least 1,
    the start cell is chosen as the initial cursor; at every point of the
    carving phase it holds ['X'], is not on the backtrack stack, has never
    been pushed or popped, and every write to it so far wrote ['X']; and when
    the draws are fair the run returns a grid in which it holds the wall
    marker ['#']. *)
Theorem start_cell_stays_wall (ambient : nat -> Z) (used : nat)
  (b : list (list ascii)) (W H : Z) (sd : option Z) :
  1 <= W -> 1 <= H -> wfb W H b ->
  let w0 := init seeded ambient used b W H sd in
  let s := startCell w0 in
  inb W H s
  /\ (exists w1, chooseStart w0 = Done s w1)
  /\ (forall rounds fuel,
         match carve rounds fuel w0 with
         | Done _ w' | Timeout w' =>
             cellOf (board w') s = "X"%char /\ (s ∉ path w')
             /\ (Push s ∉ log w') /\ Forall (ev_keeps s) (log w')
         | Raise _ _ => False
         end)
  /\ (fair (source seeded ambient sd) ->
      exists fuel0 grid w',
        (forall rounds fuel,
            (Z.to_nat (W * H) <= rounds)%nat -> (fuel0 <= fuel)%nat ->
            generate seeded ambient used b W H sd rounds fuel = Done grid w')
        /\ cellOf grid s = "#"%char /\ (Push s ∉ log w')).
Proof.
  intros HW HH Hb w0 s.
  destruct (ready_init seeded ambient used b W H sd HW HH Hb)
    as (Hr & Hg & Hboard).
  fold w0 in Hr, Hg, Hboard.
  pose proof Hr as (Hw & _).
  pose proof (startCell_inb W H w0 Hw HW HH) as Hs. fold s in Hs.
  assert (Hkeep : forall w', Inv W H s (fun _ => True) (gen w0) w' ->
                             cellOf (board w') s = "X"%char /\ (s ∉ path w')
                             /\ (Push s ∉ log w')
                             /\ Forall (ev_keeps s) (log w')).
  { intros w' HI. split; [exact (proj2 (inv_start _ _ _ _ _ _ HI))|].
    split; [|split].
    - intros Hin. pose proof (inv_path _ _ _ _ _ _ HI) as Hp.
      rewrite Forall_forall in Hp. destruct (Hp s Hin) as (_ & _ & Hne).
      now apply Hne.
    - intros Hin. pose proof (inv_log _ _ _ _ _ _ HI) as Hl.
      rewrite Forall_forall in Hl. destruct (Hl _ Hin) as (_ & Hne).
      now apply Hne.
    - eapply Forall_impl; [exact (inv_log _ _ _ _ _ _ HI)|].
      intros e [_ He]. exact He. }
  split; [exact Hs|]. split; [|split].
  - exists (started w0). now apply (chooseStart_eq W H).
  - intros rounds fuel.
    pose proof (post_carve W H (fun _ => True) I I rounds fuel w0 Hr
                  (fun _ _ => I)) as Hpost.
    destruct (carve rounds fuel w0) as [c w'|e w'|w']; simpl in Hpost; auto.
    apply Hkeep. apply Hpost.
  - intros Hfair. rewrite <- Hg in Hfair.
    destruct (run_total W H (fun _ => True) I I w0 Hr Hfair (fun _ _ => I))
      as (fuel0 & w1 & w' & Hrun & HI1 & Hfin & Hrep & Hcells).
    exists fuel0, (board w'), w'. split; [|split].
    + intros rounds fuel Hrounds Hfuel. apply generate_eq. now apply Hrun.
    + rewrite (Hcells s Hs).
      destruct (Hkeep w1 HI1) as (-> & _). reflexivity.
    + destruct Hrep as (_ & _ & _ & _ & _ & _ & _ & evs & -> & Ha).
      intros Hin. apply elem_of_app in Hin as [Hin|Hin].
      * now apply (Hkeep w1 HI1).
      * now apply (accesses_no_push W H evs s Ha).
Qed.

(** C5: on a fresh all-unvisited grid with width and height at least 1, any
    grid the run returns holds only ['#'] and ['.'], and with fair draws
    the run does return one, of the given dimensions. *)
Theorem alphabet_closure (ambient : nat -> Z) (used : nat) (W H : Z)
  (sd : option Z) :
  1 <= W -> 1 <= H ->
  (forall rounds fuel grid w',
      generate seeded ambient used (blank W H) W H sd rounds fuel
      = Done grid w' ->
      Forall (Forall (fun x => x = "#"%char \/ x = "."%char)) grid)
  /\ (fair (source seeded ambient sd) ->
      exists fuel0 grid w',
        (forall rounds fuel,
            (Z.to_nat (W * H) <= rounds)%nat -> (fuel0 <= fuel)%nat ->
            generate seeded ambient used (blank W H) W H sd rounds fuel
            = Done grid w')
        /\ wfb W H grid
        /\ Forall (Forall (fun x => x = "#"%char \/ x = "."%char)) grid).
Proof.
  intros HW HH.
  set (allowed := fun x : ascii =>
                    x = "."%char \/ x = "X"%char \/ x = "O"%char).
  set (w0 := init seeded ambient used (blank W H) W H sd).
  destruct (ready_init seeded ambient used (blank W H) W H sd HW HH
              (wfb_blank W H)) as (Hr & Hg & Hboard).
  fold w0 in Hr, Hg, Hboard.
  assert (Hallowed : forall p, inb W H p -> allowed (cellOf (board w0) p)).
  { intros p Hp. rewrite Hboard, cellOf_blank by assumption. now left. }
  assert (Hfinal : forall w1 w',
             Inv W H (startCell w0) allowed (gen w0) w1 ->
             finalized W H w1 w' ->
             wfb W H (board w')
             /\ Forall (Forall (fun x => x = "#"%char \/ x = "."%char))
                       (board w')).
  { intros w1 w' HI1 (Hrep & Hcells).
    assert (Hb' : wfb W H (board w')) by apply Hrep.
    split; [exact Hb'|].
    apply (wfb_pointwise W H); [exact Hb'|].
    intros p Hp. rewrite (Hcells p Hp).
    destruct (inv_alpha _ _ _ _ _ _ HI1 p Hp) as [-> | [-> | ->]];
      simpl; auto. }
  split.
  - intros rounds fuel grid w' E.
    pose proof (post_run W H allowed (or_intror (or_introl eq_refl))
                  (or_intror (or_intror eq_refl)) rounds fuel w0 Hr Hallowed)
      as Hpost.
    unfold generate, bind in E. fold w0 in E.
    destruct (procedurelyGeneratedBoard rounds fuel w0) as [[] w1|e w1|w1];
      try discriminate E.
    simpl in Hpost. destruct Hpost as (wc & HIc & _ & Hfin).
    unfold getBoard, gets in E. injection E as <- <-.
    now apply (Hfinal wc w1).
  - intros Hfair. rewrite <- Hg in Hfair.
    destruct (run_total W H allowed (or_intror (or_introl eq_refl))
                (or_intror (or_intror eq_refl)) w0 Hr Hfair Hallowed)
      as (fuel0 & w1 & w' & Hrun & HI1 & Hfin & Hfinalized).
    exists fuel0, (board w'), w'. split.
    + intros rounds fuel Hrounds Hfuel. apply generate_eq. now apply Hrun.
    + now apply (Hfinal w1 w').
Qed.

(** C2: with a seed, a run does not depend on the state the module-level
    generator was in before the object was constructed: two runs on fresh
    grids of the same dimensions have the same outcome for every amount of
    fuel, and with fair draws both return the same grid. *)
Theorem generation_deterministic (W H s : Z) (ambient1 ambient2 : nat -> Z)
  (used1 used2 : nat) :
  1 <= W -> 1 <= H ->
  (forall rounds fuel,
      generate seeded ambient1 used1 (blank W H) W H (Some s) rounds fuel
      = generate seeded ambient2 used2 (blank W H) W H (Some s) rounds fuel)
  /\ (fair (seeded s) ->
      exists fuel0 grid w',
        forall rounds fuel,
          (Z.to_nat (W * H) <= rounds)%nat -> (fuel0 <= fuel)%nat ->
          generate seeded ambient1 used1 (blank W H) W H (Some s) rounds fuel
          = Done grid w'
          /\ generate seeded ambient2 used2 (blank W H) W H (Some s)
               rounds fuel = Done grid w').
Proof.
  intros HW HH. split; [reflexivity|].
  intros Hfair.
  destruct (generate_total ambient1 used1 (blank W H) W H (Some s) HW HH
              (wfb_blank W H) Hfair) as (fuel0 & grid & w' & Hrun).
  exists fuel0, grid, w'. intros rounds fuel Hrounds Hfuel.
  split; [now apply Hrun|]. now apply (Hrun rounds fuel).
Qed.

End Claims.

(** C3 (as stated) fails: with width 0 the run raises [ValueError], the
    error of [random.randint] on an empty range, not [InvalidDimensions];
    and [ValueError] is not the only error, since a buffer smaller than the
    declared dimensions makes the first subscript raise [IndexError]. *)
Lemma no_invalid_dimensions_error :
  ~ (exists w', generate (fun _ => counting) counting 0 (blank 0 5) 0 5 None
                  1 1 = Raise InvalidDimensions w')
  /\ (exists w', generate (fun _ => counting) counting 0 (blank 0 5) 0 5 None
                   1 1 = Raise ValueError w')
  /\ (exists w', generate (fun _ => counting) counting 0 [] 1 1 None
                   1 1 = Raise IndexError w').
Proof.
  split; [|split].
  - intros [w' E]. vm_compute in E. discriminate E.
  - eexists. vm_compute. reflexivity.
  - eexists. vm_compute. reflexivity.
Qed.

(** C3 (amended): with width or height at most 0 the run fails at once, for
    every buffer and every amount of fuel, with the [ValueError] of the
    start-cell draw; the caller's buffer is untouched, no cell has been read
    or written, and the stack and the flags are as constructed. *)
Theorem invalid_dimensions_fail (seeded : Z -> nat -> Z) (ambient : nat -> Z)
  (used : nat) (b : list (list ascii)) (W H : Z) (sd : option Z)
  (rounds fuel : nat) :
  W <= 0 \/ H <= 0 ->
  exists w',
    generate seeded ambient used b W H sd rounds fuel = Raise ValueError w'
    /\ board w' = b /\ log w' = [] /\ path w' = []
    /\ finished w' = false /\ isBacktracking w' = false.
Proof.
  intros Hdim.
  unfold generate, procedurelyGeneratedBoard, carve, chooseStart.
  unfold bind at 1 2 3 4 5. unfold gets at 1.
  assert (Hinit : forall w0, w0 = init seeded ambient used b W H sd ->
                             boardHeight w0 = H /\ boardWidth w0 = W
                             /\ board w0 = b /\ log w0 = [] /\ path w0 = []
                             /\ finished w0 = false
                             /\ isBacktracking w0 = false).
  { intros w0 ->. unfold init. destruct sd; simpl; auto 10. }
  destruct (Hinit _ eq_refl) as (HH & HW & Hb & Hl & Hp & Hf & Hbt).
  rewrite HH. unfold randint at 1.
  destruct (Z.ltb_spec (H - 1) 0) as [Hneg|Hpos].
  - eexists. split; [reflexivity|]. auto 10.
  - unfold bind at 1 2. unfold gets at 1. cbn [boardWidth set_draws].
    rewrite HW. unfold randint at 1.
    destruct (Z.ltb_spec (W - 1) 0) as [Hneg|Hpos']; [|lia].
    eexists. split; [reflexivity|]. simpl. auto 10.
Qed.

Lemma invalid_dimensions_fail_witness :
  exists w',
    generate (fun _ => counting) counting 0 (blank (-1) (-1)) (-1) (-1)
      (Some 7) 3 3 = Raise ValueError w'
    /\ board w' = blank (-1) (-1) /\ log w' = [] /\ path w' = []
    /\ finished w' = false /\ isBacktracking w' = false.
Proof.
  apply invalid_dimensions_fail. left. lia.
Defined.

(** C8 (as stated) fails: the generator never resets the buffer.  On a buffer
    holding ['O'] in both cells the cell beside the start cell still holds
    ['O'] when the start cell has been carved, and the run returns a grid
    that differs from the one it returns on a fresh grid. *)
Lemma grid_not_reset :
  (exists w1, chooseStart (init (fun _ => counting) (script [0; 0; 2]) 0
                             [["O"; "O"]]%char 2 1 None) = Done (0, 0) w1
              /\ cellOf (board w1) (0, 1) = "O"%char)
  /\ (exists w', generate (fun _ => counting) (script [0; 0; 2]) 0
                   [["O"; "O"]]%char 2 1 None 2 2
                 = Done [["#"; "."]]%char w')
  /\ (exists w', generate (fun _ => counting) (script [0; 0; 2]) 0
                   (blank 2 1) 2 1 None 2 2
                 = Done [["#"; "#"]]%char w').
Proof.
  split; [|split].
  - eexists. split; [vm_compute; reflexivity|reflexivity].
  - eexists. vm_compute. reflexivity.
  - eexists. vm_compute. reflexivity.
Qed.

(** C8 (amended): construction keeps the caller's buffer as it is, and
    generation begins by drawing the start cell and marking it ['X']; every
    other cell keeps the character the caller supplied. *)
Theorem start_marks_one_cell (seeded : Z -> nat -> Z) (ambient : nat -> Z)
  (used : nat) (b : list (list ascii)) (W H : Z) (sd : option Z) :
  1 <= W -> 1 <= H -> wfb W H b ->
  let w0 := init seeded ambient used b W H sd in
  board w0 = b
  /\ exists w1,
       chooseStart w0 = Done (startCell w0) w1
       /\ inb W H (startCell w0)
       /\ cellOf (board w1) (startCell w0) = "X"%char
       /\ (forall p, inb W H p -> p <> startCell w0 ->
                     cellOf (board w1) p = cellOf b p)
       /\ log w1 = [Cursor (startCell w0);
                    Write (fst (startCell w0)) (snd (startCell w0)) "X"].
Proof.
  intros HW HH Hb w0.
  destruct (ready_init seeded ambient used b W H sd HW HH Hb)
    as (Hr & Hg & Hboard).
  fold w0 in Hr, Hg, Hboard.
  destruct Hr as (Hw & _ & _ & _ & _ & _ & Hlog).
  pose proof (startCell_inb W H w0 Hw HW HH) as Hs.
  split; [exact Hboard|].
  exists (started w0). split; [now apply (chooseStart_eq W H)|].
  split; [exact Hs|]. unfold started. simpl. rewrite Hboard, Hlog.
  split; [apply (cellOf_put_eq W H); auto|].
  split; [|reflexivity].
  intros p Hp Hne. apply (cellOf_put_ne W H); auto.
Qed.

Lemma start_marks_one_cell_witness :
  let w0 := init (fun _ => counting) counting 5 (blank 3 2) 3 2 None in
  board w0 = blank 3 2
  /\ exists w1,
       chooseStart w0 = Done (startCell w0) w1
       /\ inb 3 2 (startCell w0)
       /\ cellOf (board w1) (startCell w0) = "X"%char
       /\ (forall p, inb 3 2 p -> p <> startCell w0 ->
                     cellOf (board w1) p = cellOf (blank 3 2) p)
       /\ log w1 = [Cursor (startCell w0);
                    Write (fst (startCell w0)) (snd (startCell w0)) "X"].
Proof.
  apply (start_marks_one_cell (fun _ => counting) counting 5 (blank 3 2) 3 2
           None); [lia|lia|apply (wfb_blank 3 2)].
Defined.

(** ** The choice of a direction *)

Lemma redraw_first (bl : list Z) (g : nat -> Z) (k : nat) :
  forall (fuel n : nat) (w : world),
    gen w = g ->
    (forall j, (j < k)%nat -> blockedIn bl (dirOf (g (n + j)%nat)) = true) ->
    blockedIn bl (dirOf (g (n + k)%nat)) = false ->
    (k <= fuel)%nat ->
    redraw fuel bl (dirOf (g n)) (set_draws (S n) w)
    = Done (dirOf (g (n + k)%nat)) (set_draws (S (n + k)) w).
Proof.
  unfold blockedIn.
  induction k as [|k IH]; intros fuel n w Hg Hblocked Hfree Hfuel.
  - rewrite Nat.add_0_r in *.
    destruct fuel; simpl; rewrite Hfree; reflexivity.
  - destruct fuel as [|fuel]; [lia|].
    pose proof (Hblocked 0%nat ltac:(lia)) as H0.
    rewrite Nat.add_0_r in H0.
    simpl. rewrite H0. unfold bind. rewrite randint_dir. simpl.
    rewrite Hg.
    specialize (IH fuel (S n) w Hg).
    replace (S n + k)%nat with (n + S k)%nat in IH by lia.
    apply IH; [|assumption|lia].
    intros j Hj. replace (S n + j)%nat with (n + S j)%nat by lia.
    apply Hblocked. lia.
Qed.

Lemma redraw_starved (bl : list Z) (g : nat -> Z) (fuel : nat) :
  forall (n : nat) (w : world),
    gen w = g ->
    (forall j, (j <= fuel)%nat -> blockedIn bl (dirOf (g (n + j)%nat)) = true) ->
    redraw fuel bl (dirOf (g n)) (set_draws (S n) w)
    = Timeout (set_draws (S (n + fuel)) w).
Proof.
  unfold blockedIn.
  induction fuel as [|fuel IH]; intros n w Hg Hblocked.
  - pose proof (Hblocked 0%nat ltac:(lia)) as H0.
    rewrite Nat.add_0_r in *. simpl. rewrite H0. reflexivity.
  - pose proof (Hblocked 0%nat ltac:(lia)) as H0.
    rewrite Nat.add_0_r in H0.
    simpl. rewrite H0. unfold bind. rewrite randint_dir. simpl.
    rewrite Hg.
    replace (S (n + S fuel)) with (S (S n + fuel)) by lia.
    refine (IH (S n) w Hg _).
    intros j Hj. replace (S n + j)%nat with (n + S j)%nat by lia.
    apply Hblocked. lia.
Qed.

Lemma first_free (P : nat -> bool) (fuel : nat) :
  (exists k, (k <= fuel)%nat /\ P k = false
             /\ forall j, (j < k)%nat -> P j = true)
  \/ (forall j, (j <= fuel)%nat -> P j = true).
Proof.
  induction fuel as [|fuel [(k & Hk & Hf & Hb)|Hall]].
  - destruct (P 0%nat) eqn:E.
    + right. intros j Hj. now replace j with 0%nat by lia.
    + left. exists 0%nat. split; [lia|]. split; [assumption|]. intros; lia.
  - left. exists k. split; [lia|auto].
  - destruct (P (S fuel)) eqn:E.
    + right. intros j Hj.
      destruct (decide (j = S fuel)) as [->|]; [assumption|].
      apply Hall. lia.
    + left. exists (S fuel). split; [lia|]. split; [assumption|].
      intros j Hj. apply Hall. lia.
Qed.

(** C6: when fewer than four directions are blocked, [move] draws from all
    four directions again and again and goes in the direction of the first
    draw that is not blocked, having thrown away exactly the blocked draws
    before it (or it runs out of fuel because every draw so far was
    blocked); the direction it goes in is one of 0..3 and is not in the
    blocked list, so when the list is the one [getBlockedDirections]
    computes the destination is a cell of the grid that is neither carved
    nor sealed. *)
Theorem direction_by_rejection_sampling (fuel : nat) (cc : cell)
  (bl : list Z) (ch : ascii) (w : world) :
  Z.of_nat (length bl) < 4 ->
  ((exists k,
       (k <= fuel)%nat
       /\ (forall j, (j < k)%nat -> blockedIn bl (draw w j) = true)
       /\ blockedIn bl (draw w k) = false
       /\ 0 <= draw w k <= 3
       /\ move fuel cc bl ch w
          = advance (draw w k) cc ch (set_draws (S (draws w + k)) w))
   \/ ((forall j, (j <= fuel)%nat -> blockedIn bl (draw w j) = true)
       /\ move fuel cc bl ch w = Timeout (set_draws (S (draws w + fuel)) w)))
  /\ (forall W H d,
         bl = blockedList W H (board w) "X" cc ->
         0 <= d <= 3 -> blockedIn bl d = false ->
         inb W H (target cc d)
         /\ free (cellOf (board w) (target cc d)) = true).
Proof.
  intros Hlen. split.
  - assert (Hmove : move fuel cc bl ch w
                    = bind (redraw fuel bl (draw w 0))
                        (fun d => advance d cc ch)
                        (set_draws (S (draws w)) w)).
    { unfold move. destruct (Z.ltb_spec (Z.of_nat (length bl)) 4); [|lia].
      unfold bind at 1. rewrite randint_dir. unfold draw.
      now rewrite Nat.add_0_r. }
    destruct (first_free (fun j => blockedIn bl (draw w j)) fuel)
      as [(k & Hk & Hf & Hb)|Hall].
    + left. exists k. split; [exact Hk|]. split; [exact Hb|].
      split; [exact Hf|]. split; [apply dirOf_range|].
      rewrite Hmove. unfold bind, draw. rewrite Nat.add_0_r.
      rewrite (redraw_first bl (gen w) k fuel (draws w) w eq_refl Hb Hf Hk).
      reflexivity.
    + right. split; [exact Hall|].
      rewrite Hmove. unfold bind, draw. rewrite Nat.add_0_r.
      rewrite (redraw_starved bl (gen w) fuel (draws w) w eq_refl Hall).
      reflexivity.
  - intros W H d -> Hd Hfree.
    apply (dirBlocked_free W H).
    now apply blockedList_free.
Qed.

Lemma direction_by_rejection_sampling_witness :
  let w := World [["X"; "."]]%char 2 1 false [] false None
             (script [0; 1; 3; 2]) 0 [] in
  ((exists k,
       (k <= 5)%nat
       /\ (forall j, (j < k)%nat -> blockedIn [0; 1; 3] (draw w j) = true)
       /\ blockedIn [0; 1; 3] (draw w k) = false
       /\ 0 <= draw w k <= 3
       /\ move 5 (0, 0) [0; 1; 3] "X" w
          = advance (draw w k) (0, 0) "X" (set_draws (S (draws w + k)) w))
   \/ ((forall j, (j <= 5)%nat -> blockedIn [0; 1; 3] (draw w j) = true)
       /\ move 5 (0, 0) [0; 1; 3] "X" w
          = Timeout (set_draws (S (draws w + 5)) w)))
  /\ (forall W H d,
         [0; 1; 3] = blockedList W H (board w) "X" (0, 0) ->
         0 <= d <= 3 -> blockedIn [0; 1; 3] d = false ->
         inb W H (target (0, 0) d)
         /\ free (cellOf (board w) (target (0, 0) d)) = true).
Proof.
  apply (direction_by_rejection_sampling 5 (0, 0) [0; 1; 3] "X"). simpl. lia.
Defined.

(** The three blocked draws 0, 1, 3 are thrown away and the fourth is taken:
    four raw numbers are consumed for one move. *)
Example three_redraws :
  match move 5 (0, 0) [0; 1; 3] "X"
          (World [["X"; "."]]%char 2 1 false [] false None
             (script [0; 1; 3; 2]) 0 []) with
  | Done c w' =>
      c = (0, 1) /\ board w' = [["X"; "X"]]%char /\ path w' = [(0, 1)]
      /\ draws w' = 4%nat
  | _ => False
  end.
Proof. vm_compute. auto. Qed.

(** ** Termination *)

(** Carve and backtrack steps are bounded by twice the number of cells other
    than the start cell: each such cell is carved at most once and popped at
    most once. *)
Lemma Inv_steps (W H : Z) (s : cell) (allowed : ascii -> Prop) (g : nat -> Z)
  (w : world) :
  Inv W H s allowed g w ->
  (stepCount (log w) <= 2 * (Z.to_nat (W * H) - 1))%nat.
Proof.
  intros HI. destruct (inv_count _ _ _ _ _ _ HI) as [Hc1 Hc2].
  unfold stepCount. lia.
Qed.

Lemma stepCount_accesses (W H : Z) (l evs : list event) :
  accesses W H evs -> stepCount (l ++ evs) = stepCount l.
Proof.
  intros Ha. unfold stepCount.
  rewrite carveCount_app, popCount_app.
  rewrite (carveCount_accesses W H evs Ha), (popCount_accesses W H evs Ha).
  lia.
Qed.

(** With draws that never produce the one free direction the rejection loop
    of the first pass uses up any amount of fuel. *)
Lemma starved_strip (rounds fuel : nat) :
  exists w',
    procedurelyGeneratedBoard (S rounds) fuel
      (init (fun _ => counting) (script []) 0 (blank 2 1) 2 1 None)
    = Timeout w'
    /\ draws w' = (fuel + 3)%nat /\ path w' = [] /\ finished w' = false.
Proof.
  set (w0 := init (fun _ => counting) (script []) 0 (blank 2 1) 2 1 None).
  assert (Hstart : chooseStart w0 = Done (0, 0) (started w0)).
  { apply (chooseStart_eq 2 1); [|lia|lia].
    split; [reflexivity|split; [reflexivity|apply (wfb_blank 2 1)]]. }
  assert (Hidle : backtrackLoop fuel (0, 0) (started w0)
                  = Done (0, 0) (started w0)).
  { destruct fuel; reflexivity. }
  assert (Hlook : exists w2,
             getBlockedDirections (0, 0) "X" (started w0) = Done [0; 1; 3] w2
             /\ gen w2 = script [] /\ draws w2 = 2%nat /\ path w2 = []
             /\ finished w2 = false /\ isBacktracking w2 = false).
  { eexists. split; [vm_compute; reflexivity|]. auto 10. }
  destruct Hlook as (w2 & Hlook & Hg2 & Hd2 & Hp2 & Hf2 & Hb2).
  assert (Hmove : move fuel (0, 0) [0; 1; 3] "X" w2
                  = Timeout (set_draws (S (draws w2 + fuel)) w2)).
  { unfold move. change (Z.of_nat (length [0; 1; 3]) <? 4) with true.
    cbv iota. unfold bind at 1. rewrite randint_dir.
    unfold bind at 1.
    rewrite (redraw_starved [0; 1; 3] (gen w2) fuel (draws w2) w2 eq_refl);
      [reflexivity|].
    intros j _. rewrite Hg2. unfold script.
    destruct (draws w2 + j)%nat as [|n]; [reflexivity|].
    destruct n; reflexivity. }
  exists (set_draws (S (draws w2 + fuel)) w2).
  split; [|simpl; split; [lia|auto]].
  unfold procedurelyGeneratedBoard, carve.
  unfold bind at 1 2. rewrite Hstart.
  rewrite mainLoop_S by reflexivity.
  unfold bind at 1. unfold iteration.
  unfold bind at 1. rewrite Hidle.
  unfold bind at 1 2. unfold gets at 1 2.
  change (isBacktracking (started w0)) with false. cbn [andb].
  unfold bind at 1. rewrite Hlook.
  unfold bind at 1. change (Z.of_nat (length [0; 1; 3]) =? 4) with false.
  cbv iota. unfold ret at 1.
  unfold bind at 1. rewrite Hmove. reflexivity.
Qed.

(** C1 (as stated) fails on a strip of five cells started at the second one
    with three draws to the right: three cells are carved and the same three
    are popped, six carve and backtrack steps on five cells; and the fourth
    pass of the main loop carves nothing, pops nothing and does not end the
    run (it only switches to backtracking mode). *)
Lemma pass_without_progress :
  let w0 := init (fun _ => counting) (script [0; 1; 2; 2; 2]) 0
              (blank 5 1) 5 1 None in
  (exists w', procedurelyGeneratedBoard 5 5 w0 = Done tt w'
              /\ stepCount (log w') = 6%nat
              /\ ~ (stepCount (log w') <= Z.to_nat (5 * 1))%nat)
  /\ (exists w3 w4, carve 3 5 w0 = Timeout w3
                    /\ iteration 5 (0, 4) w3 = Done (0, 4) w4
                    /\ ~ productive w3 w4).
Proof.
  split.
  - eexists. split; [vm_compute; reflexivity|].
    split; [vm_compute; reflexivity|]. vm_compute. lia.
  - eexists. eexists. split; [vm_compute; reflexivity|].
    split; [vm_compute; reflexivity|].
    unfold productive. vm_compute.
    intros [Hf|[Hu|Hp]]; [discriminate Hf|lia|lia].
Qed.

(** C1 (amended): on a buffer of matching dimensions, with width and height
    at least 1, generation returns when the draws are fair, within
    width x height passes of the main loop.  Whatever the draws: the variant
    (unmarked cells, plus one outside backtracking mode) is at most
    width x height when the loop starts; every pass that returns either ends
    the run or lowers the variant, by carving a cell or by only switching to
    backtracking mode with board and stack unchanged; and the carve and
    backtrack steps of a run, at its end or when the fuel runs out, number
    at most 2 x (width x height - 1). *)
Theorem generation_terminates (seeded : Z -> nat -> Z) (ambient : nat -> Z)
  (used : nat) (b : list (list ascii)) (W H : Z) (sd : option Z) :
  1 <= W -> 1 <= H -> wfb W H b ->
  let w0 := init seeded ambient used b W H sd in
  (fair (source seeded ambient sd) ->
   exists fuel0 grid w',
     forall rounds fuel,
       (Z.to_nat (W * H) <= rounds)%nat -> (fuel0 <= fuel)%nat ->
       generate seeded ambient used b W H sd rounds fuel = Done grid w')
  /\ (potential (started w0) <= Z.to_nat (W * H))%nat
  /\ (forall fuel cc w cc' w',
         Inv W H (startCell w0) (fun _ => True) (gen w0) w -> inb W H cc ->
         iteration fuel cc w = Done cc' w' ->
         Inv W H (startCell w0) (fun _ => True) (gen w0) w'
         /\ (finished w' = true
             \/ (finished w' = finished w
                 /\ (potential w' < potential w)%nat
                 /\ ((unmarked (board w') < unmarked (board w))%nat
                     \/ switched w w'))))
  /\ (forall rounds fuel,
         match procedurelyGeneratedBoard rounds fuel w0 with
         | Done _ w' | Timeout w' =>
             (stepCount (log w') <= 2 * (Z.to_nat (W * H) - 1))%nat
         | Raise _ _ => False
         end).
Proof.
  intros HW HH Hb w0.
  destruct (ready_init seeded ambient used b W H sd HW HH Hb)
    as (Hr & Hg & Hboard).
  fold w0 in Hr, Hg, Hboard.
  split; [intros Hfair; now apply generate_total|].
  split; [now apply (started_potential W H)|].
  split; [|intros rounds fuel;
           pose proof (post_run W H (fun _ => True) I I rounds fuel w0 Hr
                         (fun _ _ => I)) as Hpost;
           destruct (procedurelyGeneratedBoard rounds fuel w0)
             as [[] w'|e w'|w']; simpl in Hpost;
           [|exact Hpost|exact (Inv_steps _ _ _ _ _ _ Hpost)];
           destruct Hpost as (w1 & HI1 & _ & (_ & _ & _ & _ & _ & _ & _
                                              & evs & -> & Hacc) & _);
           rewrite (stepCount_accesses W H _ _ Hacc);
           exact (Inv_steps _ _ _ _ _ _ HI1)].
  intros fuel cc w cc' w' HI Hcc E.
  pose proof (post_iteration W H (startCell w0) (fun _ => True) (gen w0) I I
                fuel cc w
                (fun _ w' =>
                   Inv W H (startCell w0) (fun _ => True) (gen w0) w'
                   /\ (finished w' = true
                       \/ (finished w' = finished w
                           /\ (potential w' < potential w)%nat
                           /\ ((unmarked (board w') < unmarked (board w))%nat
                               \/ switched w w'))))
                (fun _ => True) HI Hcc) as Hpost.
  rewrite E in Hpost. simpl in Hpost. apply Hpost; [|auto].
  intros c1 w1 HI1 _ Hcase. split; [exact HI1|].
  destruct Hcase as [Hf|(Hf & Hlt & _ & Hc)]; [now left|right; auto].
Qed.

Lemma generation_terminates_witness :
  let w0 := init (fun _ => counting) counting 0 (blank 3 2) 3 2 None in
  (fair (source (fun _ => counting) counting None) ->
   exists fuel0 grid w',
     forall rounds fuel,
       (Z.to_nat (3 * 2) <= rounds)%nat -> (fuel0 <= fuel)%nat ->
       generate (fun _ => counting) counting 0 (blank 3 2) 3 2 None
         rounds fuel = Done grid w')
  /\ (potential (started w0) <= Z.to_nat (3 * 2))%nat
  /\ (forall fuel cc w cc' w',
         Inv 3 2 (startCell w0) (fun _ => True) (gen w0) w -> inb 3 2 cc ->
         iteration fuel cc w = Done cc' w' ->
         Inv 3 2 (startCell w0) (fun _ => True) (gen w0) w'
         /\ (finished w' = true
             \/ (finished w' = finished w
                 /\ (potential w' < potential w)%nat
                 /\ ((unmarked (board w') < unmarked (board w))%nat
                     \/ switched w w'))))
  /\ (forall rounds fuel,
         match procedurelyGeneratedBoard rounds fuel w0 with
         | Done _ w' | Timeout w' =>
             (stepCount (log w') <= 2 * (Z.to_nat (3 * 2) - 1))%nat
         | Raise _ _ => False
         end).
Proof.
  apply (generation_terminates (fun _ => counting) counting 0 (blank 3 2) 3 2
           None); [lia|lia|apply (wfb_blank 3 2)].
Defined.

(** ** The backtrack stack *)

Ltac not_in_list :=
  let Hin := fresh "Hin" in
  intros Hin;
  repeat (apply elem_of_cons in Hin; destruct Hin as [Hin|Hin];
          [discriminate Hin|]);
  now apply elem_of_nil in Hin.

(** C7 (as stated) fails on a grid of three columns and two rows: the cell
    (1, 2) is carved while backtracking, becomes the cursor, and is never
    pushed; when the carving phase ends it is carved, not sealed, not the
    start cell, and not on the stack. *)
Lemma carved_cell_off_stack :
  let w0 := init (fun _ => counting) (script [0; 0; 2; 0; 3; 0; 1]) 0
              (blank 3 2) 3 2 None in
  exists c w',
    carve 6 6 w0 = Done c w'
    /\ startCell w0 = (0, 0)
    /\ board w' = [["X"; "X"; "X"]; ["O"; "O"; "X"]]%char
    /\ path w' = [(0, 1); (0, 2)]
    /\ cellOf (board w') (1, 2) = "X"%char
    /\ (Cursor (1, 2) ∈ log w')
    /\ (Push (1, 2) ∉ log w')
    /\ ((1, 2) ∉ path w').
Proof.
  eexists. eexists. split; [vm_compute; reflexivity|].
  split; [reflexivity|]. split; [reflexivity|]. split; [reflexivity|].
  split; [reflexivity|]. cbn [log path]. split; [|split].
  - apply list_elem_of_In. simpl. tauto.
  - not_in_list.
  - not_in_list.
Qed.

(** C7 (amended): a forward move pushes the cell the cursor advances into,
    at the top of the stack; a backtracking step removes exactly the top
    entry and seals it, and a cell it then carves from an unvisited
    neighbour becomes the cursor without being pushed; and at every point of
    the carving phase the stack holds pairwise distinct cells that are all
    carved (['X']).  So the stack holds carved, unsealed cells in the order
    they were pushed, but not every carved, unsealed cell. *)
Theorem stack_discipline (seeded : Z -> nat -> Z) (ambient : nat -> Z)
  (used : nat) (b : list (list ascii)) (W H : Z) (sd : option Z) :
  1 <= W -> 1 <= H -> wfb W H b ->
  let w0 := init seeded ambient used b W H sd in
  let I := Inv W H (startCell w0) (fun _ => True) (gen w0) in
  (forall rounds fuel,
      match carve rounds fuel w0 with
      | Done _ w' | Timeout w' =>
          I w' /\ NoDup (path w')
          /\ Forall (fun p => cellOf (board w') p = "X"%char) (path w')
      | Raise _ _ => False
      end)
  /\ (forall fuel cc w cc' w',
         I w -> inb W H cc ->
         move fuel cc (blockedList W H (board w) "X" cc) "X" w = Done cc' w' ->
         (cc' = cc /\ w' = w)
         \/ (path w' = path w ++ [cc'] /\ cellOf (board w') cc' = "X"%char
             /\ free (cellOf (board w) cc') = true))
  /\ (forall w l top cc' w',
         I w -> path w = l ++ [top] ->
         backtrackStep w = Done cc' w' ->
         path w' = l /\ cellOf (board w') top = "O"%char
         /\ (cc' = top
             \/ (cc' <> top /\ cellOf (board w) cc' = "."%char
                 /\ cellOf (board w') cc' = "X"%char /\ (cc' ∉ path w')))).
Proof.
  intros HW HH Hb w0 I0.
  destruct (ready_init seeded ambient used b W H sd HW HH Hb)
    as (Hr & Hg & Hboard).
  fold w0 in Hr, Hg, Hboard.
  assert (Hstack : forall w', I0 w' ->
                              I0 w' /\ NoDup (path w')
                              /\ Forall (fun p => cellOf (board w') p = "X"%char)
                                        (path w')).
  { intros w' HI. split; [exact HI|]. split; [exact (inv_nodup _ _ _ _ _ _ HI)|].
    eapply Forall_impl; [exact (inv_path _ _ _ _ _ _ HI)|].
    intros p (_ & Hx & _). exact Hx. }
  split; [|split].
  - intros rounds fuel.
    pose proof (post_carve W H (fun _ => True) I I rounds fuel w0 Hr
                  (fun _ _ => I)) as Hpost.
    destruct (carve rounds fuel w0) as [c w'|e w'|w']; simpl in Hpost; auto.
    apply Hstack. apply Hpost.
  - intros fuel cc w cc' w' HI Hcc E.
    pose proof (post_move W H (startCell w0) (fun _ => True) (gen w0) I
                  fuel cc (blockedList W H (board w) "X" cc) w
                  (fun c w1 =>
                     (c = cc /\ w1 = w)
                     \/ (path w1 = path w ++ [c]
                         /\ cellOf (board w1) c = "X"%char
                         /\ free (cellOf (board w) c) = true))
                  (fun _ => True) HI Hcc eq_refl) as Hpost.
    rewrite E in Hpost. simpl in Hpost. apply Hpost; auto.
    intros d w1 _ _ _ Hin Hfree HI1 Hb1 Hp1 _ _ _ _. right.
    split; [exact Hp1|]. split; [|exact Hfree].
    rewrite Hb1. apply (cellOf_put_eq W H); auto.
    exact (proj2 (proj2 (inv_wf _ _ _ _ _ _ HI))).
  - intros w l top cc' w' HI Hp E.
    pose proof (post_backtrackStep W H (startCell w0) (fun _ => True) (gen w0)
                  I I w l top
                  (fun c w1 =>
                     path w1 = l /\ cellOf (board w1) top = "O"%char
                     /\ (c = top
                         \/ (c <> top /\ cellOf (board w) c = "."%char
                             /\ cellOf (board w1) c = "X"%char
                             /\ (c ∉ path w1))))
                  (fun _ => True) HI Hp) as Hpost.
    rewrite E in Hpost. simpl in Hpost. apply Hpost.
    intros c w1 _ _ Hp1 _ _ (HO & Hc). split; [exact Hp1|].
    split; [exact HO|]. now rewrite Hp1.
Qed.

Lemma stack_discipline_witness :
  let w0 := init (fun _ => counting) counting 0 (blank 3 2) 3 2 None in
  let I := Inv 3 2 (startCell w0) (fun _ => True) (gen w0) in
  (forall rounds fuel,
      match carve rounds fuel w0 with
      | Done _ w' | Timeout w' =>
          I w' /\ NoDup (path w')
          /\ Forall (fun p => cellOf (board w') p = "X"%char) (path w')
      | Raise _ _ => False
      end)
  /\ (forall fuel cc w cc' w',
         I w -> inb 3 2 cc ->
         move fuel cc (blockedList 3 2 (board w) "X" cc) "X" w = Done cc' w' ->
         (cc' = cc /\ w' = w)
         \/ (path w' = path w ++ [cc'] /\ cellOf (board w') cc' = "X"%char
             /\ free (cellOf (board w) cc') = true))
  /\ (forall w l top cc' w',
         I w -> path w = l ++ [top] ->
         backtrackStep w = Done cc' w' ->
         path w' = l /\ cellOf (board w') top = "O"%char
         /\ (cc' = top
             \/ (cc' <> top /\ cellOf (board w) cc' = "."%char
                 /\ cellOf (board w') cc' = "X"%char /\ (cc' ∉ path w')))).
Proof.
  apply (stack_discipline (fun _ => counting) counting 0 (blank 3 2) 3 2 None);
    [lia|lia|apply (wfb_blank 3 2)].
Defined.

(** ** The strip of two cells *)

Lemma board_2x1 (b : list (list ascii)) :
  wfb 2 1 b -> b = [[cellOf b (0, 0); cellOf b (0, 1)]].
Proof.
  intros [Hlen Hrows]. unfold cellOf. simpl.
  destruct b as [|row [|row' b]]; try discriminate Hlen.
  apply Forall_cons in Hrows as [Hrow _].
  destruct row as [|x [|y [|z row]]]; try discriminate Hrow.
  reflexivity.
Qed.

(** Whatever the draws, a run on the strip returns nothing but the all-wall
    grid; it can only stop short for lack of passes or of fuel for the
    rejection loop. *)
Lemma strip_post (w : world) (rounds fuel : nat) (T : world -> Prop) :
  ready 2 1 w -> board w = blank 2 1 ->
  (forall w',
      rounds = 0%nat \/ fuel = 0%nat
      \/ (exists d, 0 <= d <= 3
                    /\ forall k, (k <= fuel)%nat ->
                                 dirOf (gen w (S (S (draws w)) + k)%nat) <> d) ->
      T w') ->
  post (procedurelyGeneratedBoard rounds fuel w)
    (fun _ w' => stripEnd (startCell w) w') T.
Proof.
  intros Hr Hblank HT.
  pose proof Hr as (Hw & HW1 & HH1 & Hfin & Hbt & Hpath & Hlog).
  pose proof (startCell_inb 2 1 w Hw HW1 HH1) as Hs.
  pose proof (Inv_started 2 1 (fun _ => True) I w Hr (fun _ _ => I)) as HIs.
  set (s := startCell w) in *.
  assert (Hcases : s = (0, 0) \/ s = (0, 1)).
  { destruct s as [r c]. destruct Hs as [Hsr Hsc]. simpl in *.
    assert (r = 0) by lia. assert (c = 0 \/ c = 1) by lia.
    subst r. destruct H0; subst c; auto. }
  assert (Hboard : board (started w) = put (blank 2 1) s "X").
  { unfold started. simpl. now rewrite Hblank. }
  assert (Hdir : forall d,
             0 <= d <= 3 ->
             blockedIn (blockedList 2 1 (board (started w)) "X" s) d = false ->
             put (board (started w)) (target s d) "X" = [["X"; "X"]]%char
             /\ target s d <> s).
  { intros d Hd. rewrite Hboard.
    assert (Hc : d = 0 \/ d = 1 \/ d = 2 \/ d = 3) by lia.
    destruct Hcases as [-> | ->]; destruct Hc as [-> | [-> | [-> | ->]]];
      vm_compute; intros E; try discriminate E; split; congruence. }
  assert (Hlen : length (blockedList 2 1 (board (started w)) "X" s) = 3%nat).
  { rewrite Hboard. destruct Hcases as [-> | ->]; reflexivity. }
  assert (Hfs : finished (started w) = false) by exact Hfin.
  assert (Hbs : isBacktracking (started w) = false) by exact Hbt.
  assert (Hps : path (started w) = []) by exact Hpath.
  unfold procedurelyGeneratedBoard, carve.
  step. step. rewrite (chooseStart_eq 2 1) by assumption. cbn [post].
  fold s.
  destruct rounds as [|rounds].
  { cbn [mainLoop]. step. step. rewrite Hfs. cbn [post timeout].
    apply HT. now left. }
  rewrite mainLoop_S by assumption.
  step. unfold iteration.
  step.
  apply (post_backtrackLoop 2 1 s (fun _ => True) (gen w) I I); auto.
  2:{ intros w1 _ Hle. rewrite Hps in Hle. simpl in Hle.
      apply HT. right. left. lia. }
  intros c1 w1 _ _ _ _ Hcase.
  destruct Hcase as [(_ & _ & _ & _ & Hsame)|(Hb & _)]; [|congruence].
  destruct (Hsame Hbs) as [-> ->].
  step. step. step. step. rewrite Hbs. cbn [andb].
  step.
  apply (post_getBlockedDirections 2 1); [exact (inv_wf _ _ _ _ _ _ HIs)|auto|].
  intros evs Hevs.
  set (bl := blockedList 2 1 (board (started w)) "X" s) in *.
  step. rewrite Hlen. change (Z.of_nat 3 =? 4) with false. cbv iota.
  step. step.
  apply (post_move 2 1 s (fun _ => True) (gen w) I fuel s bl); auto.
  - apply Inv_reads; auto.
  - intros E. lia.
  - intros d w1 _ Hd Hfree Hin _ HI1 Hb1 Hp1 Hf1 Hbt1 _ Hl1.
    destruct (Hdir d Hd Hfree) as (Hxx & Hne).
    change (board (add_log evs (started w))) with (board (started w)) in Hb1.
    rewrite Hxx in Hb1.
    step.
    apply (post_checkIfThereAreNoMoreDotsInTheBoard 2 1);
      [exact (inv_wf _ _ _ _ _ _ HI1)|].
    intros evs' v Hevs' Hv.
    destruct v.
    2:{ exfalso. destruct Hv as ([r c] & [Hr' Hc'] & Hdot).
        rewrite Hb1 in Hdot. simpl in Hr', Hc'.
        assert (r = 0) by lia. assert (c = 0 \/ c = 1) by lia.
        subst r. destruct H0; subst c; discriminate Hdot. }
    repeat step.
    rewrite mainLoop_finished by reflexivity. cbn [post].
    step. step. cbn [finished set_finished].
    step.
    apply (post_polishBoard 2 1).
    { apply wfw_set_flag. apply wfw_add_log.
      exact (inv_wf _ _ _ _ _ _ HI1). }
    intros w' (Hw' & _ & Hp' & Hbt' & _ & _ & _ & evs2 & Hl' & Ha2) Hcells.
    repeat step.
    cbn [board set_finished add_log path isBacktracking log] in *.
    split; [|split; [|split]].
    + rewrite (board_2x1 (board w') (proj2 (proj2 Hw'))).
      rewrite (Hcells (0, 0)) by (split; simpl; lia).
      rewrite (Hcells (0, 1)) by (split; simpl; lia).
      rewrite Hb1. reflexivity.
    + rewrite Hl', Hl1. rewrite !popCount_app.
      rewrite (popCount_accesses 2 1 evs2 Ha2).
      rewrite (popCount_reads 2 1 evs' Hevs').
      rewrite (popCount_reads 2 1 evs Hevs).
      unfold started. cbn [log set_board add_log set_draws].
      rewrite Hlog. reflexivity.
    + rewrite Hbt', Hbt1. exact Hbs.
    + exists (target s d). rewrite Hp', Hp1.
      change (path (add_log evs (started w))) with (path (started w)).
      rewrite Hps. split; [reflexivity|]. split; [exact Hne|].
      split; [exact Hin|].
      rewrite Hl', Hl1. apply elem_of_app. left. apply elem_of_app. left.
      apply elem_of_app. right.
      apply list_elem_of_In. simpl. tauto.
  - intros n d _ Hd Hfree Hall.
    apply HT. right. right. exists d. split; [exact Hd|]. exact Hall.
Qed.

(** With fair draws the run on the strip returns after one pass. *)
Lemma strip_run (w : world) :
  ready 2 1 w -> board w = blank 2 1 -> fair (gen w) ->
  exists fuel0 w',
    (forall rounds fuel,
        (1 <= rounds)%nat -> (fuel0 <= fuel)%nat ->
        procedurelyGeneratedBoard rounds fuel w = Done tt w')
    /\ stripEnd (startCell w) w'.
Proof.
  intros Hr Hblank Hfair.
  destruct (fair_window (gen w) (S (S (draws w))) Hfair) as [F HF].
  pose proof (strip_post w 1 (S F) never Hr Hblank) as Hpost.
  apply post_done in Hpost.
  - destruct Hpost as ([] & w' & E & Hres).
    exists (S F), w'. split; [|exact Hres].
    intros rounds fuel Hrounds Hfuel.
    pose proof (run_mono 1 rounds (S F) fuel w Hrounds Hfuel) as Hm.
    rewrite E in Hm. simpl in Hm. now rewrite <- Hm.
  - intros w' [E|[E|(d & Hd & Hall)]]; try discriminate E.
    destruct (HF d Hd) as (k & Hk & Ek).
    apply (Hall k); [lia|exact Ek].
Qed.

(** C9: on a fresh grid of two columns and one row, for every seed (and
    without one), the only grid a run returns is the one in which both cells
    hold ['#']: the cell beside the start cell is pushed by a forward move,
    nothing is ever popped, and the run never enters backtracking mode; and
    with fair draws the run does return, after one pass of the main loop. *)
Theorem strip_of_two_is_all_wall (seeded : Z -> nat -> Z)
  (ambient : nat -> Z) (used : nat) (sd : option Z) :
  let w0 := init seeded ambient used (blank 2 1) 2 1 sd in
  (forall rounds fuel grid w',
      generate seeded ambient used (blank 2 1) 2 1 sd rounds fuel
      = Done grid w' ->
      grid = [["#"; "#"]]%char /\ stripEnd (startCell w0) w')
  /\ (fair (source seeded ambient sd) ->
      exists fuel0 w',
        (forall rounds fuel,
            (1 <= rounds)%nat -> (fuel0 <= fuel)%nat ->
            generate seeded ambient used (blank 2 1) 2 1 sd rounds fuel
            = Done [["#"; "#"]]%char w')
        /\ stripEnd (startCell w0) w').
Proof.
  intros w0.
  destruct (ready_init seeded ambient used (blank 2 1) 2 1 sd
              ltac:(lia) ltac:(lia) (wfb_blank 2 1)) as (Hr & Hg & Hboard).
  fold w0 in Hr, Hg, Hboard.
  split.
  - intros rounds fuel grid w' E.
    pose proof (strip_post w0 rounds fuel (fun _ => True) Hr Hboard
                  (fun _ _ => I)) as Hpost.
    unfold generate, bind in E. fold w0 in E.
    destruct (procedurelyGeneratedBoard rounds fuel w0) as [[] w1|e w1|w1];
      try discriminate E.
    simpl in Hpost. unfold getBoard, gets in E. injection E as <- <-.
    split; [apply Hpost|exact Hpost].
  - intros Hfair. rewrite <- Hg in Hfair.
    destruct (strip_run w0 Hr Hboard Hfair) as (fuel0 & w' & Hrun & Hend).
    exists fuel0, w'. split; [|exact Hend].
    intros rounds fuel Hrounds Hfuel.
    rewrite <- (proj1 Hend). apply generate_eq. now apply Hrun.
Qed.

(** ** Instances *)

Lemma start_cell_stays_wall_witness :
  let w0 := init (fun _ => counting) counting 0 (blank 3 2) 3 2 None in
  let s := startCell w0 in
  inb 3 2 s
  /\ (exists w1, chooseStart w0 = Done s w1)
  /\ (forall rounds fuel,
         match carve rounds fuel w0 with
         | Done _ w' | Timeout w' =>
             cellOf (board w') s = "X"%char /\ (s ∉ path w')
             /\ (Push s ∉ log w') /\ Forall (ev_keeps s) (log w')
         | Raise _ _ => False
         end)
  /\ (fair (source (fun _ => counting) counting None) ->
      exists fuel0 grid w',
        (forall rounds fuel,
            (Z.to_nat (3 * 2) <= rounds)%nat -> (fuel0 <= fuel)%nat ->
            generate (fun _ => counting) counting 0 (blank 3 2) 3 2 None
              rounds fuel = Done grid w')
        /\ cellOf grid s = "#"%char /\ (Push s ∉ log w')).
Proof.
  apply (start_cell_stays_wall (fun _ => counting) counting 0 (blank 3 2) 3 2
           None); [lia|lia|apply (wfb_blank 3 2)].
Defined.

Lemma alphabet_closure_witness :
  (forall rounds fuel grid w',
      generate (fun _ => counting) counting 0 (blank 3 2) 3 2 None rounds fuel
      = Done grid w' ->
      Forall (Forall (fun x => x = "#"%char \/ x = "."%char)) grid)
  /\ (fair (source (fun _ => counting) counting None) ->
      exists fuel0 grid w',
        (forall rounds fuel,
            (Z.to_nat (3 * 2) <= rounds)%nat -> (fuel0 <= fuel)%nat ->
            generate (fun _ => counting) counting 0 (blank 3 2) 3 2 None
              rounds fuel = Done grid w')
        /\ wfb 3 2 grid
        /\ Forall (Forall (fun x => x = "#"%char \/ x = "."%char)) grid).
Proof.
  apply (alphabet_closure (fun _ => counting) counting 0 3 2 None); lia.
Defined.

Lemma generation_deterministic_witness :
  (forall rounds fuel,
      generate (fun _ => counting) (script [1; 2]) 0 (blank 3 2) 3 2 (Some 7)
        rounds fuel
      = generate (fun _ => counting) (script [3]) 9 (blank 3 2) 3 2 (Some 7)
          rounds fuel)
  /\ (fair counting ->
      exists fuel0 grid w',
        forall rounds fuel,
          (Z.to_nat (3 * 2) <= rounds)%nat -> (fuel0 <= fuel)%nat ->
          generate (fun _ => counting) (script [1; 2]) 0 (blank 3 2) 3 2
            (Some 7) rounds fuel = Done grid w'
          /\ generate (fun _ => counting) (script [3]) 9 (blank 3 2) 3 2
               (Some 7) rounds fuel = Done grid w').
Proof.
  apply (generation_deterministic (fun _ => counting) 3 2 7
           (script [1; 2]) (script [3]) 0 9); lia.
Defined.

(** A run on three columns and two rows, seeded, from start to finish. *)
Example seeded_run :
  exists w',
    generate (fun s => script [s; 0; 2; 0; 3; 0; 1]) counting 0
      (blank 3 2) 3 2 (Some 0) 6 6
    = Done [["#"; "#"; "#"]; ["."; "."; "#"]]%char w'.
Proof. eexists. vm_compute. reflexivity. Qed.

(** * Further properties of the methods *)

(** ** Subscripts that wrap or fall outside *)

Lemma py_index_wrap (n i : Z) :
  - n <= i < n -> py_index n i = Some (Z.to_nat (i mod n)).
Proof.
  intros Hi. unfold py_index.
  destruct (Z.leb_spec 0 i); destruct (Z.ltb_spec i n); simpl; try lia.
  - now rewrite Z.mod_small by lia.
  - destruct (Z.leb_spec (- n) i); destruct (Z.ltb_spec i 0); simpl; try lia.
    do 2 f_equal. apply (Z.mod_unique i n (-1)); lia.
Qed.

Lemma py_index_Some (n i : Z) (k : nat) :
  py_index n i = Some k -> - n <= i < n.
Proof.
  unfold py_index.
  destruct (Z.leb_spec 0 i); destruct (Z.ltb_spec i n); simpl; try lia;
    destruct (Z.leb_spec (- n) i); destruct (Z.ltb_spec i 0); simpl;
    try lia; discriminate.
Qed.

Lemma wrapped_inb (W H r c : Z) :
  subscriptable W H r c -> inb W H (wrapped W H r c).
Proof.
  intros [Hr Hc]. unfold wrapped. split; simpl.
  - apply Z.mod_pos_bound. lia.
  - apply Z.mod_pos_bound. lia.
Qed.

Lemma wrapped_inside (W H r c : Z) :
  inb W H (r, c) -> wrapped W H r c = (r, c).
Proof.
  intros [Hr Hc]. simpl in *. unfold wrapped.
  now rewrite !Z.mod_small by lia.
Qed.

Lemma store_wrap (W H r c : Z) (ch : ascii) (w : world) :
  wfw W H w -> subscriptable W H r c ->
  store r c ch w
  = Done tt (set_board (put (board w) (wrapped W H r c) ch)
               (add_log [Write r c ch] w)).
Proof.
  intros (HW & HH & Hlen & Hrows) [Hr Hc].
  pose proof (Z.mod_pos_bound r H ltac:(lia)) as Hrm.
  pose proof (Z.mod_pos_bound c W ltac:(lia)) as Hcm.
  destruct (lookup_lt_is_Some_2 (board w) (Z.to_nat (r mod H)))
    as [row Hrow]; [lia|].
  assert (Hl : length row = Z.to_nat W).
  { rewrite Forall_forall in Hrows. apply Hrows.
    eapply list_elem_of_lookup_2; eauto. }
  unfold store, emit, modify, gets, bind. cbn [board add_log].
  rewrite Hlen, Z2Nat.id by lia. rewrite (py_index_wrap H r Hr), Hrow.
  unfold setitem. rewrite Hl, Z2Nat.id by lia. rewrite (py_index_wrap W c Hc).
  unfold put, wrapped. cbn [fst snd]. rewrite Hrow. reflexivity.
Qed.

Lemma store_outside (W H r c : Z) (ch : ascii) (w : world) :
  wfw W H w -> ~ subscriptable W H r c ->
  store r c ch w = Raise IndexError (add_log [Write r c ch] w).
Proof.
  intros (HW & HH & Hlen & Hrows) Hn.
  unfold store, emit, modify, gets, bind. cbn [board add_log].
  destruct (py_index (Z.of_nat (length (board w))) r) as [k|] eqn:Ek;
    [|reflexivity].
  destruct (board w !! k) as [row|] eqn:Erow; [|reflexivity].
  unfold setitem.
  destruct (py_index (Z.of_nat (length row)) c) as [k'|] eqn:Ec;
    [|reflexivity].
  exfalso. apply Hn.
  apply py_index_Some in Ek. apply py_index_Some in Ec.
  assert (Hl : length row = Z.to_nat W).
  { rewrite Forall_forall in Hrows. apply Hrows.
    eapply list_elem_of_lookup_2; eauto. }
  unfold subscriptable. lia.
Qed.

Lemma load_wrap (W H r c : Z) (w : world) :
  wfw W H w -> subscriptable W H r c ->
  load r c w
  = Done (cellOf (board w) (wrapped W H r c)) (add_log [Read r c] w).
Proof.
  intros (HW & HH & Hlen & Hrows) [Hr Hc].
  pose proof (Z.mod_pos_bound r H ltac:(lia)) as Hrm.
  pose proof (Z.mod_pos_bound c W ltac:(lia)) as Hcm.
  destruct (lookup_lt_is_Some_2 (board w) (Z.to_nat (r mod H)))
    as [row Hrow]; [lia|].
  assert (Hl : length row = Z.to_nat W).
  { rewrite Forall_forall in Hrows. apply Hrows.
    eapply list_elem_of_lookup_2; eauto. }
  destruct (lookup_lt_is_Some_2 row (Z.to_nat (c mod W))) as [x Hx]; [lia|].
  unfold load, emit, modify, gets, bind. cbn [board add_log].
  unfold getitem at 1. rewrite Hlen, Z2Nat.id by lia.
  rewrite (py_index_wrap H r Hr), Hrow.
  unfold getitem. rewrite Hl, Z2Nat.id by lia.
  rewrite (py_index_wrap W c Hc), Hx.
  unfold cellOf, wrapped. cbn [fst snd]. rewrite Hrow, Hx. reflexivity.
Qed.

(** X1: [moveToSpecificCell] follows Python's subscript rules.  On a
    buffer of [H] rows of [W] cells it writes exactly when the row lies in
    [[-H, H)] and the column in [[-W, W)], a negative subscript landing on
    the cell counted from the end; otherwise it raises [IndexError] and the
    board is unchanged. *)
Theorem moveToSpecificCell_subscripts (W H r c : Z) (ch : ascii) (w : world) :
  wfw W H w ->
  match moveToSpecificCell (r, c) ch w with
  | Done _ w' =>
      subscriptable W H r c
      /\ inb W H (wrapped W H r c)
      /\ board w' = put (board w) (wrapped W H r c) ch
  | Raise e w' =>
      e = IndexError /\ ~ subscriptable W H r c /\ board w' = board w
  | Timeout _ => False
  end.
Proof.
  intros Hw. unfold moveToSpecificCell. cbn [fst snd].
  assert (Hdec : subscriptable W H r c \/ ~ subscriptable W H r c)
    by (unfold subscriptable; lia).
  destruct Hdec as [Hs|Hs].
  - rewrite (store_wrap W H r c ch w Hw Hs).
    split; [exact Hs|]. split; [now apply wrapped_inb|reflexivity].
  - rewrite (store_outside W H r c ch w Hw Hs). auto.
Qed.

Lemma moveToSpecificCell_subscripts_witness :
  match moveToSpecificCell (-1, -1) "X"
          (World (blank 3 2) 3 2 false [] false None counting 0 []) with
  | Done _ w' =>
      subscriptable 3 2 (-1) (-1)
      /\ inb 3 2 (wrapped 3 2 (-1) (-1))
      /\ board w' = put (blank 3 2) (wrapped 3 2 (-1) (-1)) "X"
  | Raise e w' =>
      e = IndexError /\ ~ subscriptable 3 2 (-1) (-1)
      /\ board w' = blank 3 2
  | Timeout _ => False
  end.
Proof.
  apply (moveToSpecificCell_subscripts 3 2 (-1) (-1) "X"
           (World (blank 3 2) 3 2 false [] false None counting 0 [])).
  split; [reflexivity|split; [reflexivity|apply (wfb_blank 3 2)]].
Defined.

(** X2: writing a cell and reading it back.  After
    [moveToSpecificCell([r, c], ch)] with acceptable subscripts,
    [self.board[r][c]] reads [ch]; every other cell of the grid, the shape
    of the buffer, the stack, the flags and the generator are as before. *)
Theorem moveToSpecificCell_then_read (W H r c : Z) (ch : ascii) (w : world) :
  wfw W H w -> subscriptable W H r c ->
  exists w',
    moveToSpecificCell (r, c) ch w = Done tt w'
    /\ wfw W H w'
    /\ load r c w' = Done ch (add_log [Read r c] w')
    /\ (forall q, inb W H q -> q <> wrapped W H r c ->
                  cellOf (board w') q = cellOf (board w) q)
    /\ path w' = path w /\ finished w' = finished w
    /\ isBacktracking w' = isBacktracking w /\ draws w' = draws w.
Proof.
  intros Hw Hs. pose proof (wrapped_inb W H r c Hs) as Hin.
  pose proof Hw as (HW & HH & Hb).
  eexists. split.
  { unfold moveToSpecificCell. cbn [fst snd]. apply (store_wrap W H); auto. }
  assert (Hw' : wfw W H (set_board (put (board w) (wrapped W H r c) ch)
                           (add_log [Write r c ch] w))).
  { split; [exact HW|split; [exact HH|apply wfb_put; exact Hb]]. }
  split; [exact Hw'|]. split.
  { rewrite (load_wrap W H r c _ Hw' Hs). cbn [board set_board].
    now rewrite (cellOf_put_eq W H). }
  split; [|auto].
  intros q Hq Hne. cbn [board set_board]. apply (cellOf_put_ne W H); auto.
Qed.

Lemma moveToSpecificCell_then_read_witness :
  exists w',
    moveToSpecificCell (1, -3) "O"
      (World (blank 3 2) 3 2 false [] false None counting 0 [])
    = Done tt w'
    /\ wfw 3 2 w'
    /\ load 1 (-3) w' = Done "O"%char (add_log [Read 1 (-3)] w')
    /\ (forall q, inb 3 2 q -> q <> wrapped 3 2 1 (-3) ->
                  cellOf (board w') q = cellOf (blank 3 2) q)
    /\ path w' = [] /\ finished w' = false
    /\ isBacktracking w' = false /\ draws w' = 0%nat.
Proof.
  apply (moveToSpecificCell_then_read 3 2 1 (-3) "O"
           (World (blank 3 2) 3 2 false [] false None counting 0 [])).
  - split; [reflexivity|split; [reflexivity|apply (wfb_blank 3 2)]].
  - unfold subscriptable. lia.
Defined.

(** ** The two scans of the neighbourhood *)

Lemma inbb_spec (W H : Z) (p : cell) : inbb W H p = true <-> inb W H p.
Proof.
  unfold inbb, inb. rewrite !andb_true_iff, !Z.leb_le, !Z.ltb_lt. tauto.
Qed.

Lemma dir_cases (d : Z) : 0 <= d <= 3 <-> d = 0 \/ d = 1 \/ d = 2 \/ d = 3.
Proof. lia. Qed.

Lemma dirBlocked_spec (W H : Z) (b : list (list ascii)) (ch : ascii)
  (p : cell) (d : Z) :
  dirBlocked W H b ch p d = true
  <-> (~ inb W H (target p d) \/ cellOf b (target p d) = ch
       \/ cellOf b (target p d) = "O"%char).
Proof.
  unfold dirBlocked, taken.
  rewrite !orb_true_iff, negb_true_iff, !Ascii.eqb_eq.
  rewrite <- inbb_spec. destruct (inbb W H (target p d)); intuition congruence.
Qed.

Lemma blockedList_spec (W H : Z) (b : list (list ascii)) (ch : ascii)
  (p : cell) (d : Z) :
  d ∈ blockedList W H b ch p
  <-> 0 <= d <= 3
      /\ (~ inb W H (target p d) \/ cellOf b (target p d) = ch
          \/ cellOf b (target p d) = "O"%char).
Proof.
  unfold blockedList. rewrite list_elem_of_In, List.filter_In.
  rewrite dirBlocked_spec, dir_cases. simpl. intuition congruence.
Qed.

Lemma blockedList_sorted (W H : Z) (b : list (list ascii)) (ch : ascii)
  (p : cell) :
  StronglySorted Z.lt (blockedList W H b ch p).
Proof.
  unfold blockedList. simpl.
  destruct (dirBlocked W H b ch p 0), (dirBlocked W H b ch p 1),
    (dirBlocked W H b ch p 2), (dirBlocked W H b ch p 3);
    repeat (constructor; try lia).
Qed.

Lemma getBlockedDirections_eq (W H : Z) (p : cell) (ch : ascii) (w : world) :
  wfw W H w -> inb W H p ->
  exists evs,
    reads W H evs
    /\ getBlockedDirections p ch w
       = Done (blockedList W H (board w) ch p) (add_log evs w).
Proof.
  intros Hw Hp.
  pose proof (post_getBlockedDirections W H p ch w
                (fun bl w' => exists evs,
                     reads W H evs
                     /\ Done bl w'
                        = Done (blockedList W H (board w) ch p)
                            (add_log evs w))
                never Hw Hp) as Hpost.
  destruct (getBlockedDirections p ch w) as [bl w'|e w'|w'];
    simpl in Hpost; [|exfalso|exfalso]; apply Hpost;
    intros evs He; exists evs; auto.
Qed.

(** X3: [getBlockedDirections] at a cell of the grid returns, in increasing
    order and without repetition, exactly the directions (0 down, 1 up,
    2 right, 3 left) whose neighbour lies outside the grid or holds
    [character] or ['O']; it only reads the board and raises nothing. *)
Theorem blocked_directions_characterised (W H : Z) (p : cell) (ch : ascii)
  (w : world) :
  wfw W H w -> inb W H p ->
  exists bl evs,
    getBlockedDirections p ch w = Done bl (add_log evs w)
    /\ reads W H evs
    /\ StronglySorted Z.lt bl
    /\ forall d,
         d ∈ bl
         <-> 0 <= d <= 3
             /\ (~ inb W H (target p d)
                 \/ cellOf (board w) (target p d) = ch
                 \/ cellOf (board w) (target p d) = "O"%char).
Proof.
  intros Hw Hp.
  destruct (getBlockedDirections_eq W H p ch w Hw Hp) as (evs & He & E).
  exists (blockedList W H (board w) ch p), evs.
  split; [exact E|]. split; [exact He|].
  split; [apply blockedList_sorted|]. intros d. apply blockedList_spec.
Qed.

Lemma blocked_directions_characterised_witness :
  exists bl evs,
    getBlockedDirections (0, 0) "X"
      (World (blank 3 2) 3 2 false [] false None counting 0 [])
    = Done bl
        (add_log evs
           (World (blank 3 2) 3 2 false [] false None counting 0 []))
    /\ reads 3 2 evs
    /\ StronglySorted Z.lt bl
    /\ forall d,
         d ∈ bl
         <-> 0 <= d <= 3
             /\ (~ inb 3 2 (target (0, 0) d)
                 \/ cellOf (blank 3 2) (target (0, 0) d) = "X"%char
                 \/ cellOf (blank 3 2) (target (0, 0) d) = "O"%char).
Proof.
  apply (blocked_directions_characterised 3 2 (0, 0) "X"
           (World (blank 3 2) 3 2 false [] false None counting 0 [])).
  - split; [reflexivity|split; [reflexivity|apply (wfb_blank 3 2)]].
  - split; simpl; lia.
Defined.

Section Candidates.

Variables W H : Z.

Lemma post_peek_exact (inside : bool) (r c : Z) (acc : list cell) (w : world)
  (Q : list cell -> world -> Prop) (T : world -> Prop) :
  wfw W H w -> (inside = true -> inb W H (r, c)) ->
  (forall evs, reads W H evs ->
     Q (if inside && (cellOf (board w) (r, c) =? ".")%char
        then acc ++ [(r, c)] else acc)
       (add_log evs w)) ->
  post (peek inside r c acc w) Q T.
Proof.
  intros Hw Hp HQ. unfold peek. destruct inside; cbn [andb].
  - apply post_bind, (post_load W H); auto.
    cbn [post ret]. apply HQ. auto with grid.
  - rewrite <- (add_log_nil w). apply (HQ []). auto with grid.
Qed.

Lemma unvisited_spec (b : list (list ascii)) (q : cell) :
  unvisited W H b q = true <-> inb W H q /\ cellOf b q = "."%char.
Proof.
  unfold unvisited. now rewrite andb_true_iff, inbb_spec, Ascii.eqb_eq.
Qed.

Lemma unvisitedList_spec (b : list (list ascii)) (p u : cell) :
  u ∈ unvisitedList W H b p
  <-> (exists d, 0 <= d <= 3 /\ u = target p d)
      /\ inb W H u /\ cellOf b u = "."%char.
Proof.
  unfold unvisitedList. rewrite list_elem_of_In, List.filter_In.
  rewrite unvisited_spec. simpl. split.
  - intros [[E|[E|[E|[E|[]]]]] Hu]; (split; [|exact Hu]);
      [exists 0|exists 1|exists 2|exists 3]; auto with lia.
  - intros [(d & Hd & ->) Hu]. split; [|exact Hu].
    apply dir_cases in Hd. destruct Hd as [-> | [-> | [-> | ->]]]; auto.
Qed.

Lemma unvisited_down (b : list (list ascii)) (r c : Z) :
  inb W H (r, c) ->
  unvisited W H b (r + 1, c) = (r + 1 <? H) && (cellOf b (r + 1, c) =? ".")%char.
Proof.
  intros [Hr Hc]. simpl in *. unfold unvisited, inbb. simpl.
  f_equal. zbool.
Qed.

Lemma unvisited_up (b : list (list ascii)) (r c : Z) :
  inb W H (r, c) ->
  unvisited W H b (r - 1, c) = (r - 1 >=? 0) && (cellOf b (r - 1, c) =? ".")%char.
Proof.
  intros [Hr Hc]. simpl in *. unfold unvisited, inbb. simpl.
  f_equal. zbool.
Qed.

Lemma unvisited_right (b : list (list ascii)) (r c : Z) :
  inb W H (r, c) ->
  unvisited W H b (r, c + 1) = (c + 1 <? W) && (cellOf b (r, c + 1) =? ".")%char.
Proof.
  intros [Hr Hc]. simpl in *. unfold unvisited, inbb. simpl.
  f_equal. zbool.
Qed.

Lemma unvisited_left (b : list (list ascii)) (r c : Z) :
  inb W H (r, c) ->
  unvisited W H b (r, c - 1) = (c - 1 >=? 0) && (cellOf b (r, c - 1) =? ".")%char.
Proof.
  intros [Hr Hc]. simpl in *. unfold unvisited, inbb. simpl.
  f_equal. zbool.
Qed.

Lemma post_foundUnvisitedCell_exact (p : cell) (w : world)
  (Q : option cell -> world -> Prop) (T : world -> Prop) :
  wfw W H w -> inb W H p ->
  (forall evs, reads W H evs ->
     match unvisitedList W H (board w) p with
     | [] => Q None (add_log evs w)
     | l => forall u, u ∈ l ->
                      Q (Some u) (set_draws (S (draws w)) (add_log evs w))
     end) ->
  post (foundUnvisitedCell p w) Q T.
Proof.
  intros Hw Hp HQ. destruct p as [r c]. pose proof Hp as [Hr Hc].
  pose proof Hw as (HW & HH & _). simpl in Hr, Hc.
  unfold foundUnvisitedCell.
  apply post_bind. cbn [post gets]. rewrite HH.
  apply post_bind, post_peek_exact; auto.
  { intros E. split; simpl; [|lia]. apply Z.ltb_lt in E. lia. }
  intros e0 He0.
  apply post_bind, post_peek_exact; auto with grid.
  { intros E. split; simpl; [|lia]. rewrite Z.geb_leb in E.
    apply Z.leb_le in E. lia. }
  intros e1 He1.
  apply post_bind. cbn [post gets boardWidth add_log]. rewrite HW.
  apply post_bind, post_peek_exact; auto with grid.
  { intros E. split; simpl; [lia|]. apply Z.ltb_lt in E. lia. }
  intros e2 He2.
  apply post_bind, post_peek_exact; auto with grid.
  { intros E. split; simpl; [lia|]. rewrite Z.geb_leb in E.
    apply Z.leb_le in E. lia. }
  intros e3 He3.
  rewrite !add_log_app, <- ?app_assoc. cbn [board add_log].
  assert (He : reads W H (e0 ++ e1 ++ e2 ++ e3)) by auto with grid.
  specialize (HQ _ He).
  match goal with |- post (match ?l with _ => _ end _) _ _ =>
    replace l with (unvisitedList W H (board w) (r, c)) end.
  2:{ unfold unvisitedList.
      change (target (r, c) 0) with (r + 1, c).
      change (target (r, c) 1) with (r - 1, c).
      change (target (r, c) 2) with (r, c + 1).
      change (target (r, c) 3) with (r, c - 1).
      cbn [List.filter].
      rewrite unvisited_down, unvisited_up, unvisited_right, unvisited_left
        by assumption.
      destruct ((r + 1 <? H) && (cellOf (board w) (r + 1, c) =? ".")%char),
        ((r - 1 >=? 0) && (cellOf (board w) (r - 1, c) =? ".")%char),
        ((c + 1 <? W) && (cellOf (board w) (r, c + 1) =? ".")%char),
        ((c - 1 >=? 0) && (cellOf (board w) (r, c - 1) =? ".")%char);
        reflexivity. }
  destruct (unvisitedList W H (board w) (r, c)) as [|a l].
  - step. exact HQ.
  - apply post_bind, post_choice; [discriminate|].
    intros x Hx. step. cbn [draws add_log]. now apply HQ.
Qed.

End Candidates.

(** X4: [foundUnvisitedCell] at a cell of the grid returns the empty list
    exactly when no neighbour inside the grid holds ['.'], and then consumes
    no random number; otherwise it returns one of the neighbours inside the
    grid that hold ['.'] and consumes exactly one random number.  The board,
    the stack and the flags are untouched. *)
Theorem unvisited_neighbour_found (W H : Z) (p : cell) (w : world) :
  wfw W H w -> inb W H p ->
  exists evs,
    reads W H evs
    /\ ((foundUnvisitedCell p w = Done None (add_log evs w)
         /\ forall d, 0 <= d <= 3 -> inb W H (target p d) ->
                      cellOf (board w) (target p d) <> "."%char)
        \/ (exists d,
               0 <= d <= 3 /\ inb W H (target p d)
               /\ cellOf (board w) (target p d) = "."%char
               /\ foundUnvisitedCell p w
                  = Done (Some (target p d))
                      (set_draws (S (draws w)) (add_log evs w)))).
Proof.
  intros Hw Hp.
  pose proof (post_foundUnvisitedCell_exact W H p w
                (fun r w' => exists evs,
                     reads W H evs
                     /\ ((Done r w' = Done None (add_log evs w)
                          /\ forall d, 0 <= d <= 3 -> inb W H (target p d) ->
                               cellOf (board w) (target p d) <> "."%char)
                         \/ (exists d,
                                0 <= d <= 3 /\ inb W H (target p d)
                                /\ cellOf (board w) (target p d) = "."%char
                                /\ Done r w'
                                   = Done (Some (target p d))
                                       (set_draws (S (draws w))
                                          (add_log evs w)))))
                never Hw Hp) as Hpost.
  destruct (foundUnvisitedCell p w) as [r w'|e w'|w'];
    simpl in Hpost; [|exfalso|exfalso]; apply Hpost; intros evs He;
    destruct (unvisitedList W H (board w) p) as [|a l] eqn:El.
  all: try (exists evs; split; [exact He|left]; split; [reflexivity|];
            intros d Hd Hin Hdot;
            assert (Hu : target p d ∈ unvisitedList W H (board w) p)
              by (apply unvisitedList_spec; eauto);
            rewrite El in Hu; now apply elem_of_nil in Hu).
  all: intros u Hu; rewrite <- El in Hu;
    apply unvisitedList_spec in Hu as ((d & Hd & ->) & Hin & Hdot);
    exists evs; split; [exact He|right]; exists d; auto.
Qed.

Lemma unvisited_neighbour_found_witness :
  exists evs,
    reads 3 2 evs
    /\ ((foundUnvisitedCell (0, 0)
           (World (blank 3 2) 3 2 false [] false None counting 0 [])
         = Done None
             (add_log evs
                (World (blank 3 2) 3 2 false [] false None counting 0 []))
         /\ forall d, 0 <= d <= 3 -> inb 3 2 (target (0, 0) d) ->
                      cellOf (blank 3 2) (target (0, 0) d) <> "."%char)
        \/ (exists d,
               0 <= d <= 3 /\ inb 3 2 (target (0, 0) d)
               /\ cellOf (blank 3 2) (target (0, 0) d) = "."%char
               /\ foundUnvisitedCell (0, 0)
                    (World (blank 3 2) 3 2 false [] false None counting 0 [])
                  = Done (Some (target (0, 0) d))
                      (set_draws 1
                         (add_log evs
                            (World (blank 3 2) 3 2 false [] false None
                               counting 0 []))))).
Proof.
  apply (unvisited_neighbour_found 3 2 (0, 0)
           (World (blank 3 2) 3 2 false [] false None counting 0 [])).
  - split; [reflexivity|split; [reflexivity|apply (wfb_blank 3 2)]].
  - split; simpl; lia.
Defined.

Lemma foundUnvisitedCell_eq (W H : Z) (p : cell) (w : world) :
  wfw W H w -> inb W H p ->
  exists r w',
    foundUnvisitedCell p w = Done r w'
    /\ (r = None <-> unvisitedList W H (board w) p = []).
Proof.
  intros Hw Hp.
  pose proof (post_foundUnvisitedCell_exact W H p w
                (fun r _ => r = None <-> unvisitedList W H (board w) p = [])
                never Hw Hp) as Hpost.
  destruct (foundUnvisitedCell p w) as [r w'|e w'|w'];
    simpl in Hpost; [exists r, w'; split; [reflexivity|]|exfalso|exfalso];
    apply Hpost; intros evs He;
    destruct (unvisitedList W H (board w) p) as [|a l]; try tauto;
    intros u _; split; discriminate.
Qed.

Lemma blocked_unvisited (W H : Z) (b : list (list ascii)) (p : cell) (d : Z) :
  (inb W H (target p d) -> marker (cellOf b (target p d))) ->
  dirBlocked W H b "X" p d = negb (unvisited W H b (target p d)).
Proof.
  intros Hm. unfold dirBlocked, unvisited, taken.
  destruct (inbb W H (target p d)) eqn:E; [|reflexivity].
  apply inbb_spec in E. destruct (Hm E) as [-> | [-> | ->]]; reflexivity.
Qed.

(** X5: the two scans agree on boards over the three markers.  If every
    neighbour of a cell inside the grid holds ['.'], ['X'] or ['O'], then
    [getBlockedDirections] reports all four directions blocked exactly when
    [foundUnvisitedCell] finds nothing. *)
Theorem blocked_iff_nothing_unvisited (W H : Z) (p : cell) (w : world) :
  wfw W H w -> inb W H p ->
  (forall d, 0 <= d <= 3 -> inb W H (target p d) ->
             marker (cellOf (board w) (target p d))) ->
  exists bl w1 r w2,
    getBlockedDirections p "X" w = Done bl w1
    /\ foundUnvisitedCell p w = Done r w2
    /\ (length bl = 4%nat <-> r = None).
Proof.
  intros Hw Hp Hm.
  destruct (getBlockedDirections_eq W H p "X" w Hw Hp) as (evs & _ & E1).
  destruct (foundUnvisitedCell_eq W H p w Hw Hp) as (r & w2 & E2 & Hr).
  exists (blockedList W H (board w) "X" p), (add_log evs w), r, w2.
  split; [exact E1|]. split; [exact E2|]. rewrite Hr.
  unfold blockedList, unvisitedList. cbn [List.filter].
  rewrite !blocked_unvisited by (apply Hm; lia).
  destruct (unvisited W H (board w) (target p 0)),
    (unvisited W H (board w) (target p 1)),
    (unvisited W H (board w) (target p 2)),
    (unvisited W H (board w) (target p 3));
    cbn [negb length]; split; intros E; try reflexivity; try discriminate E.
Qed.

Lemma blocked_iff_nothing_unvisited_witness :
  exists bl w1 r w2,
    getBlockedDirections (1, 1) "X"
      (World (blank 3 2) 3 2 false [] false None counting 0 [])
    = Done bl w1
    /\ foundUnvisitedCell (1, 1)
         (World (blank 3 2) 3 2 false [] false None counting 0 [])
       = Done r w2
    /\ (length bl = 4%nat <-> r = None).
Proof.
  apply (blocked_iff_nothing_unvisited 3 2 (1, 1)
           (World (blank 3 2) 3 2 false [] false None counting 0 [])).
  - split; [reflexivity|split; [reflexivity|apply (wfb_blank 3 2)]].
  - split; simpl; lia.
  - intros d Hd Hin. left. apply (cellOf_blank 3 2). exact Hin.
Defined.

(** ** The scan for remaining dots *)

Lemma checkIfThereAreNoMoreDotsInTheBoard_eq (W H : Z) (w : world) :
  wfw W H w ->
  exists v evs,
    checkIfThereAreNoMoreDotsInTheBoard w = Done v (add_log evs w)
    /\ reads W H evs
    /\ (if v : bool
        then forall p, inb W H p -> cellOf (board w) p <> "."%char
        else exists p, inb W H p /\ cellOf (board w) p = "."%char).
Proof.
  intros Hw.
  pose proof (post_checkIfThereAreNoMoreDotsInTheBoard W H w
                (fun v w' => exists evs,
                     w' = add_log evs w /\ reads W H evs
                     /\ (if v : bool
                         then forall p, inb W H p ->
                                        cellOf (board w) p <> "."%char
                         else exists p, inb W H p
                                        /\ cellOf (board w) p = "."%char))
                never Hw) as Hpost.
  destruct (checkIfThereAreNoMoreDotsInTheBoard w) as [v w'|e w'|w'];
    simpl in Hpost.
  - destruct Hpost as (evs & -> & He & Hv); [|exists v, evs; auto].
    intros evs v' He Hv. exists evs. auto.
  - exfalso. apply Hpost. intros evs v' He Hv. exists evs. auto.
  - exfalso. apply Hpost. intros evs v' He Hv. exists evs. auto.
Qed.

(** X6: [checkIfThereAreNoMoreDotsInTheBoard] answers [True] exactly when no
    cell of the grid holds ['.'] (cells holding anything else, marked or
    not, do not count); it only reads the board and raises nothing. *)
Theorem no_more_dots_scan (W H : Z) (w : world) :
  wfw W H w ->
  exists v evs,
    checkIfThereAreNoMoreDotsInTheBoard w = Done v (add_log evs w)
    /\ reads W H evs
    /\ (v = true <-> forall p, inb W H p -> cellOf (board w) p <> "."%char).
Proof.
  intros Hw.
  destruct (checkIfThereAreNoMoreDotsInTheBoard_eq W H w Hw)
    as (v & evs & E & He & Hv).
  exists v, evs. split; [exact E|]. split; [exact He|].
  destruct v.
  - tauto.
  - split; [discriminate|].
    intros Hall. destruct Hv as (p & Hp & Hdot). now destruct (Hall p Hp).
Qed.

Lemma no_more_dots_scan_witness :
  exists v evs,
    checkIfThereAreNoMoreDotsInTheBoard
      (World [["X"; "#"]; ["O"; " "]]%char 2 2 false [] false None counting 0 [])
    = Done v
        (add_log evs
           (World [["X"; "#"]; ["O"; " "]]%char 2 2 false [] false None
              counting 0 []))
    /\ reads 2 2 evs
    /\ (v = true
        <-> forall p, inb 2 2 p ->
                      cellOf [["X"; "#"]; ["O"; " "]]%char p <> "."%char).
Proof.
  apply (no_more_dots_scan 2 2
           (World [["X"; "#"]; ["O"; " "]]%char 2 2 false [] false None
              counting 0 [])).
  split; [reflexivity|split; [reflexivity|]].
  split; [reflexivity|]. repeat constructor.
Defined.

Lemma scan_no_columns {R : Type} (body : Z -> Z -> M (option R)) (w : world)
  (l : list Z) :
  boardWidth w <= 0 ->
  forEachUntil l
    (fun i => wd <- gets boardWidth;; forEachUntil (range wd) (body i)) w
  = Done None w.
Proof.
  intros Hwd. induction l as [|i l IH]; [reflexivity|].
  cbn [forEachUntil]. unfold bind at 1. unfold bind at 1. unfold gets at 1.
  unfold range at 1. unfold seqZ.
  replace (Z.to_nat (boardWidth w)) with 0%nat by lia.
  cbn [seq fmap list_fmap forEachUntil ret]. exact IH.
Qed.

(** X7: with a height or a width that is not positive the scan reads no
    cell at all and answers [True], whatever the buffer holds. *)
Theorem no_more_dots_degenerate (w : world) :
  boardHeight w <= 0 \/ boardWidth w <= 0 ->
  checkIfThereAreNoMoreDotsInTheBoard w = Done true w.
Proof.
  intros Hdim. unfold checkIfThereAreNoMoreDotsInTheBoard.
  unfold bind at 1. unfold gets at 1. unfold bind at 1.
  destruct (Z.le_gt_cases (boardHeight w) 0) as [Hh|Hh].
  - unfold range at 1. unfold seqZ.
    replace (Z.to_nat (boardHeight w)) with 0%nat by lia.
    reflexivity.
  - destruct Hdim as [Hd|Hd]; [lia|].
    rewrite (scan_no_columns
               (fun i j => x <- load i j;;
                           ret (if (x =? ".")%char then Some false else None))
               w (range (boardHeight w)) Hd).
    reflexivity.
Qed.

Lemma no_more_dots_degenerate_witness :
  checkIfThereAreNoMoreDotsInTheBoard
    (World [["."; "."]]%char 0 1 false [] false None counting 0 [])
  = Done true (World [["."; "."]]%char 0 1 false [] false None counting 0 []).
Proof.
  apply (no_more_dots_degenerate
           (World [["."; "."]]%char 0 1 false [] false None counting 0 [])).
  right. simpl. lia.
Defined.

(** ** The finalization pass on its own *)

(** Two boards of the same shape with the same cells are the same list. *)
Lemma board_ext (W H : Z) (b1 b2 : list (list ascii)) :
  wfb W H b1 -> wfb W H b2 ->
  (forall p, inb W H p -> cellOf b1 p = cellOf b2 p) ->
  b1 = b2.
Proof.
  intros [Hl1 Hr1] [Hl2 Hr2] Hcells.
  apply list_eq. intros i.
  destruct (decide (i < length b1)%nat) as [Hi|Hi].
  2:{ rewrite !lookup_ge_None_2 by lia. reflexivity. }
  destruct (lookup_lt_is_Some_2 b1 i) as [row1 E1]; [lia|].
  destruct (lookup_lt_is_Some_2 b2 i) as [row2 E2]; [lia|].
  rewrite E1, E2. f_equal.
  assert (L1 : length row1 = Z.to_nat W).
  { rewrite Forall_forall in Hr1. apply Hr1.
    eapply list_elem_of_lookup_2; eauto. }
  assert (L2 : length row2 = Z.to_nat W).
  { rewrite Forall_forall in Hr2. apply Hr2.
    eapply list_elem_of_lookup_2; eauto. }
  apply list_eq. intros j.
  destruct (decide (j < length row1)%nat) as [Hj|Hj].
  2:{ rewrite !lookup_ge_None_2 by lia. reflexivity. }
  destruct (lookup_lt_is_Some_2 row1 j) as [x1 X1]; [lia|].
  destruct (lookup_lt_is_Some_2 row2 j) as [x2 X2]; [lia|].
  rewrite X1, X2. f_equal.
  assert (Hin : inb W H (Z.of_nat i, Z.of_nat j)) by (split; simpl; lia).
  specialize (Hcells _ Hin). unfold cellOf in Hcells. simpl in Hcells.
  rewrite !Nat2Z.id in Hcells. now rewrite E1, E2, X1, X2 in Hcells.
Qed.

Lemma polishBoard_eq (W H : Z) (w : world) :
  wfw W H w ->
  exists w',
    polishBoard w = Done tt w'
    /\ repainted W H w w'
    /\ forall p, inb W H p ->
                 cellOf (board w') p = polished (cellOf (board w) p).
Proof.
  intros Hw.
  pose proof (post_polishBoard W H w
                (fun _ w' =>
                   repainted W H w w'
                   /\ forall p, inb W H p ->
                        cellOf (board w') p = polished (cellOf (board w) p))
                never Hw) as Hpost.
  destruct (polishBoard w) as [[] w'|e w'|w']; simpl in Hpost;
    [exists w'; split; [reflexivity|]|exfalso|exfalso];
    apply Hpost; auto.
Qed.

Lemma polished_cases (x : ascii) :
  (x = "X"%char -> polished x = "#"%char)
  /\ (x = "O"%char -> polished x = "."%char)
  /\ (x <> "X"%char -> x <> "O"%char -> polished x = x)
  /\ polished x <> "X"%char /\ polished x <> "O"%char.
Proof.
  unfold polished.
  destruct (Ascii.eqb_spec x "X") as [->|HX].
  { repeat split; try reflexivity; try discriminate; congruence. }
  destruct (Ascii.eqb_spec x "O") as [->|HO].
  { repeat split; try reflexivity; try discriminate; congruence. }
  repeat split; congruence.
Qed.

(** X8: [polishBoard] on a buffer of matching dimensions rewrites every
    cell of the grid independently: ['X'] becomes ['#'], ['O'] becomes ['.'],
    any other character stays.  Afterwards no cell holds ['X'] or ['O']; the
    shape of the buffer, the stack, the flags and the generator are
    untouched, and nothing is raised. *)
Theorem polishBoard_replaces_markers (W H : Z) (w : world) :
  wfw W H w ->
  exists w',
    polishBoard w = Done tt w'
    /\ wfw W H w'
    /\ (forall p, inb W H p ->
          (cellOf (board w) p = "X"%char -> cellOf (board w') p = "#"%char)
          /\ (cellOf (board w) p = "O"%char -> cellOf (board w') p = "."%char)
          /\ (cellOf (board w) p <> "X"%char ->
              cellOf (board w) p <> "O"%char ->
              cellOf (board w') p = cellOf (board w) p)
          /\ cellOf (board w') p <> "X"%char
          /\ cellOf (board w') p <> "O"%char)
    /\ path w' = path w /\ finished w' = finished w
    /\ isBacktracking w' = isBacktracking w /\ draws w' = draws w.
Proof.
  intros Hw.
  destruct (polishBoard_eq W H w Hw)
    as (w' & E & (Hw' & Hf & Hp & Hb & _ & Hd & _) & Hcells).
  exists w'. split; [exact E|]. split; [exact Hw'|].
  split; [|auto].
  intros p Hp'. rewrite (Hcells p Hp'). apply polished_cases.
Qed.

Lemma polishBoard_replaces_markers_witness :
  exists w',
    polishBoard
      (World [["X"; "."]; ["O"; "X"]]%char 2 2 true [] true None counting 0 [])
    = Done tt w'
    /\ wfw 2 2 w'
    /\ (forall p, inb 2 2 p ->
          (cellOf [["X"; "."]; ["O"; "X"]]%char p = "X"%char ->
           cellOf (board w') p = "#"%char)
          /\ (cellOf [["X"; "."]; ["O"; "X"]]%char p = "O"%char ->
              cellOf (board w') p = "."%char)
          /\ (cellOf [["X"; "."]; ["O"; "X"]]%char p <> "X"%char ->
              cellOf [["X"; "."]; ["O"; "X"]]%char p <> "O"%char ->
              cellOf (board w') p = cellOf [["X"; "."]; ["O"; "X"]]%char p)
          /\ cellOf (board w') p <> "X"%char
          /\ cellOf (board w') p <> "O"%char)
    /\ path w' = [] /\ finished w' = true
    /\ isBacktracking w' = true /\ draws w' = 0%nat.
Proof.
  apply (polishBoard_replaces_markers 2 2
           (World [["X"; "."]; ["O"; "X"]]%char 2 2 true [] true None
              counting 0 [])).
  split; [reflexivity|split; [reflexivity|]].
  split; [reflexivity|]. repeat constructor.
Defined.

(** X9: [polishBoard] is idempotent: a second pass right after the first
    changes no cell. *)
Theorem polishBoard_idempotent (W H : Z) (w : world) :
  wfw W H w ->
  exists w' w'',
    polishBoard w = Done tt w'
    /\ polishBoard w' = Done tt w''
    /\ board w'' = board w'.
Proof.
  intros Hw.
  destruct (polishBoard_eq W H w Hw) as (w' & E & (Hw' & _) & Hcells).
  destruct (polishBoard_eq W H w' Hw') as (w'' & E' & (Hw'' & _) & Hcells').
  exists w', w''. split; [exact E|]. split; [exact E'|].
  apply (board_ext W H); [apply Hw''|apply Hw'|].
  intros p Hp. rewrite (Hcells' p Hp), (Hcells p Hp). apply polished_idem.
Qed.

Lemma polishBoard_idempotent_witness :
  exists w' w'',
    polishBoard
      (World [["X"; "."]; ["O"; "X"]]%char 2 2 true [] true None counting 0 [])
    = Done tt w'
    /\ polishBoard w' = Done tt w''
    /\ board w'' = board w'.
Proof.
  apply (polishBoard_idempotent 2 2
           (World [["X"; "."]; ["O"; "X"]]%char 2 2 true [] true None
              counting 0 [])).
  split; [reflexivity|split; [reflexivity|]].
  split; [reflexivity|]. repeat constructor.
Defined.

(** ** A move the caller did not block *)

Lemma move_first_draw (fuel : nat) (cc : cell) (bl : list Z) (ch : ascii)
  (w : world) :
  Z.of_nat (length bl) < 4 -> blockedIn bl (draw w 0) = false ->
  move fuel cc bl ch w = advance (draw w 0) cc ch (set_draws (S (draws w)) w).
Proof.
  intros Hlen Hfree. unfold move.
  destruct (Z.ltb_spec (Z.of_nat (length bl)) 4); [|lia].
  unfold bind at 1. rewrite randint_dir. unfold bind at 1.
  unfold draw, blockedIn in *. rewrite Nat.add_0_r in *.
  destruct fuel; cbn [redraw]; rewrite Hfree; reflexivity.
Qed.

(** X10: [move] trusts the list it is given.  If the direction drawn is not
    in the list although its neighbour lies outside the grid, a step down
    from the last row or right from the last column raises [IndexError];
    the board and the stack are unchanged and one random number has been
    consumed. *)
Theorem move_off_grid_raises (W H : Z) (fuel : nat) (cc : cell)
  (bl : list Z) (ch : ascii) (w : world) (d : Z) :
  wfw W H w -> inb W H cc -> Z.of_nat (length bl) < 4 ->
  draw w 0 = d -> blockedIn bl d = false ->
  d = 0 \/ d = 2 -> ~ inb W H (target cc d) ->
  exists w',
    move fuel cc bl ch w = Raise IndexError w'
    /\ board w' = board w /\ path w' = path w /\ draws w' = S (draws w).
Proof.
  intros Hw Hcc Hlen Hd Hfree Hdir Hout.
  rewrite (move_first_draw fuel cc bl ch w Hlen) by now rewrite Hd.
  rewrite Hd. destruct cc as [r c]. destruct Hcc as [Hr Hc]. simpl in Hr, Hc.
  assert (Hw1 : wfw W H (set_draws (S (draws w)) w)) by auto with grid.
  unfold advance. destruct Hdir as [-> | ->].
  - change (0 =? 0) with true. cbn [shift fst snd].
    assert (Hn : ~ subscriptable W H (r + 1) c).
    { intros [Hs _]. apply Hout. split; simpl; lia. }
    unfold bind, ret. cbv beta iota. cbn [fst snd].
    rewrite (store_outside W H _ _ ch _ Hw1 Hn).
    eexists. split; [reflexivity|]. auto.
  - change (2 =? 0) with false. change (2 =? 1) with false.
    change (2 =? 2) with true. cbn [shift fst snd].
    assert (Hn : ~ subscriptable W H r (c + 1)).
    { intros [_ Hs]. apply Hout. split; simpl; lia. }
    unfold bind at 1. unfold ret at 1.
    unfold bind at 1. unfold ret at 1.
    unfold bind, ret. cbv beta iota. cbn [fst snd].
    rewrite (store_outside W H _ _ ch _ Hw1 Hn).
    eexists. split; [reflexivity|]. auto.
Qed.

Lemma move_off_grid_raises_witness :
  exists w',
    move 3 (1, 0) [] "X"
      (World (blank 3 2) 3 2 false [] false None (script [0]) 0 [])
    = Raise IndexError w'
    /\ board w' = blank 3 2 /\ path w' = [] /\ draws w' = 1%nat.
Proof.
  apply (move_off_grid_raises 3 2 3 (1, 0) [] "X"
           (World (blank 3 2) 3 2 false [] false None (script [0]) 0 []) 0).
  - split; [reflexivity|split; [reflexivity|apply (wfb_blank 3 2)]].
  - split; simpl; lia.
  - simpl. lia.
  - reflexivity.
  - reflexivity.
  - left. reflexivity.
  - unfold inb. simpl. lia.
Defined.

(** X11: in the same situation a step up from row 0 or left from column 0
    raises nothing: the negative subscript wraps, the character is written
    into the last row (or last column) of the same column (or row), and the
    position pushed on the stack and handed back as cursor has coordinate
    -1. *)
Theorem move_off_grid_wraps (W H : Z) (fuel : nat) (cc : cell)
  (bl : list Z) (ch : ascii) (w : world) (d : Z) :
  wfw W H w -> inb W H cc -> Z.of_nat (length bl) < 4 ->
  draw w 0 = d -> blockedIn bl d = false ->
  d = 1 \/ d = 3 -> ~ inb W H (target cc d) ->
  exists w',
    move fuel cc bl ch w = Done (target cc d) w'
    /\ target cc d = (if d =? 1 then (-1, snd cc) else (fst cc, -1))
    /\ board w'
       = put (board w)
           (if d =? 1 then (H - 1, snd cc) else (fst cc, W - 1)) ch
    /\ path w' = path w ++ [target cc d]
    /\ draws w' = S (draws w).
Proof.
  intros Hw Hcc Hlen Hd Hfree Hdir Hout.
  rewrite (move_first_draw fuel cc bl ch w Hlen) by now rewrite Hd.
  rewrite Hd. destruct cc as [r c]. destruct Hcc as [Hr Hc]. simpl in Hr, Hc.
  assert (Hw1 : wfw W H (set_draws (S (draws w)) w)) by auto with grid.
  unfold advance. destruct Hdir as [-> | ->].
  - assert (Er : r = 0).
    { destruct (decide (r = 0)); [assumption|]. exfalso. apply Hout.
      split; simpl; lia. }
    subst r.
    change (1 =? 0) with false. change (1 =? 1) with true.
    change (1 =? 2) with false. change (1 =? 3) with false.
    cbn [shift fst snd target].
    assert (Hs : subscriptable W H (0 - 1) c) by (unfold subscriptable; lia).
    unfold bind, ret. cbv beta iota. cbn [fst snd].
    rewrite (store_wrap W H _ _ ch _ Hw1 Hs).
    eexists. split; [reflexivity|]. cbn.
    split; [reflexivity|]. split; [|auto].
    unfold wrapped. f_equal. f_equal.
    + symmetry. apply (Z.mod_unique (0 - 1) H (-1)); lia.
    + apply Z.mod_small. lia.
  - assert (Ec : c = 0).
    { destruct (decide (c = 0)); [assumption|]. exfalso. apply Hout.
      split; simpl; lia. }
    subst c.
    change (3 =? 0) with false. change (3 =? 1) with false.
    change (3 =? 2) with false. change (3 =? 3) with true.
    cbn [shift fst snd target].
    assert (Hs : subscriptable W H r (0 - 1)) by (unfold subscriptable; lia).
    unfold bind at 1. unfold ret at 1.
    unfold bind at 1. unfold ret at 1.
    unfold bind, ret. cbv beta iota. cbn [fst snd].
    rewrite (store_wrap W H _ _ ch _ Hw1 Hs).
    eexists. split; [reflexivity|]. cbn.
    split; [reflexivity|]. split; [|auto].
    unfold wrapped. f_equal. f_equal.
    + apply Z.mod_small. lia.
    + symmetry. apply (Z.mod_unique (0 - 1) W (-1)); lia.
Qed.

Lemma move_off_grid_wraps_witness :
  exists w',
    move 3 (0, 2) [] "X"
      (World (blank 3 2) 3 2 false [] false None (script [1]) 0 [])
    = Done (target (0, 2) 1) w'
    /\ target (0, 2) 1 = (if 1 =? 1 then (-1, snd (0, 2)) else (fst (0, 2), -1))
    /\ board w'
       = put (blank 3 2)
           (if 1 =? 1 then (2 - 1, snd (0, 2)) else (fst (0, 2), 3 - 1)) "X"
    /\ path w' = [] ++ [target (0, 2) 1]
    /\ draws w' = 1%nat.
Proof.
  apply (move_off_grid_wraps 3 2 3 (0, 2) [] "X"
           (World (blank 3 2) 3 2 false [] false None (script [1]) 0 []) 1).
  - split; [reflexivity|split; [reflexivity|apply (wfb_blank 3 2)]].
  - split; simpl; lia.
  - simpl. lia.
  - reflexivity.
  - reflexivity.
  - left. reflexivity.
  - unfold inb. simpl. lia.
Defined.

(** ** Calling the generator again *)

(** X12: a second call of [procedurelyGeneratedBoard] on an object whose run
    has finished does not generate again.  For any amount of fuel it draws a
    start cell (two random numbers), marks it, skips the main loop and runs
    the finalization pass: the drawn cell becomes ['#'], every other cell is
    what [polishBoard] makes of it, and the stack and the flags stay as they
    were. *)
Theorem second_call_adds_one_wall (W H : Z) (rounds fuel : nat) (w : world) :
  wfw W H w -> 1 <= W -> 1 <= H -> finished w = true ->
  exists w',
    procedurelyGeneratedBoard rounds fuel w = Done tt w'
    /\ inb W H (startCell w)
    /\ cellOf (board w') (startCell w) = "#"%char
    /\ (forall p, inb W H p -> p <> startCell w ->
                  cellOf (board w') p = polished (cellOf (board w) p))
    /\ wfw W H w'
    /\ path w' = path w /\ finished w' = true
    /\ isBacktracking w' = isBacktracking w
    /\ draws w' = S (S (draws w)).
Proof.
  intros Hw HW1 HH1 Hfin.
  pose proof (startCell_inb W H w Hw HW1 HH1) as Hin.
  pose proof Hw as (HW & HH & Hb).
  assert (Hws : wfw W H (started w)).
  { split; [exact HW|split; [exact HH|apply wfb_put; exact Hb]]. }
  destruct (polishBoard_eq W H (started w) Hws)
    as (w' & E & (Hw' & Hf & Hp & Hbt & _ & Hd & _) & Hcells).
  exists w'. split.
  { unfold procedurelyGeneratedBoard, carve.
    unfold bind at 1. unfold bind at 1.
    rewrite (chooseStart_eq W H w Hw HW1 HH1).
    rewrite mainLoop_finished by exact Hfin.
    unfold bind at 1. unfold gets at 1.
    change (finished (started w)) with (finished w). rewrite Hfin.
    unfold bind at 1. rewrite E. reflexivity. }
  split; [exact Hin|]. split.
  { rewrite (Hcells _ Hin). cbn [board started set_board].
    now rewrite (cellOf_put_eq W H). }
  split.
  { intros p Hp' Hne. rewrite (Hcells _ Hp'). cbn [board started set_board].
    now rewrite (cellOf_put_ne W H) by auto. }
  split; [exact Hw'|].
  rewrite Hp, Hf, Hbt, Hd. auto.
Qed.

Lemma second_call_adds_one_wall_witness :
  exists w',
    procedurelyGeneratedBoard 0 0
      (World [["#"; "."]; ["."; "."]]%char 2 2 true [] true None
         (script [1; 1]) 0 [])
    = Done tt w'
    /\ inb 2 2
         (startCell
            (World [["#"; "."]; ["."; "."]]%char 2 2 true [] true None
               (script [1; 1]) 0 []))
    /\ cellOf (board w')
         (startCell
            (World [["#"; "."]; ["."; "."]]%char 2 2 true [] true None
               (script [1; 1]) 0 []))
       = "#"%char
    /\ (forall p, inb 2 2 p ->
                  p <> startCell
                         (World [["#"; "."]; ["."; "."]]%char 2 2 true []
                            true None (script [1; 1]) 0 []) ->
                  cellOf (board w') p
                  = polished (cellOf [["#"; "."]; ["."; "."]]%char p))
    /\ wfw 2 2 w'
    /\ path w' = [] /\ finished w' = true
    /\ isBacktracking w' = true
    /\ draws w' = 2%nat.
Proof.
  apply (second_call_adds_one_wall 2 2 0 0
           (World [["#"; "."]; ["."; "."]]%char 2 2 true [] true None
              (script [1; 1]) 0 [])).
  - split; [reflexivity|split; [reflexivity|]].
    split; [reflexivity|]. repeat constructor.
  - lia.
  - lia.
  - reflexivity.
Defined.

(** * Further properties of the carving phase *)

Lemma post_conj {A : Type} (o : outcome A) (Q1 Q2 : A -> world -> Prop)
  (T1 T2 : world -> Prop) :
  post o Q1 T1 -> post o Q2 T2 ->
  post o (fun a w => Q1 a w /\ Q2 a w) (fun w => T1 w /\ T2 w).
Proof. destruct o; simpl; auto. Qed.

(** ** An invariant carried along the run *)

Section Tracking.

Variables W H : Z.
Variable s : cell.
Variable allowed : ascii -> Prop.
Variable g : nat -> Z.
Hypothesis allowed_X : allowed "X"%char.
Hypothesis allowed_O : allowed "O"%char.

#[local] Abbreviation Inv := (Inv W H s allowed g).

(** What one backtracking step does to the state, spelled out. *)
Lemma post_backtrackStep_exact (w : world) (l : list cell) (top : cell)
  (Q : cell -> world -> Prop) (T : world -> Prop) :
  Inv w -> path w = l ++ [top] ->
  (forall evs, reads W H evs ->
     Inv (add_log evs (popped top l w))
     /\ Q top (add_log evs (popped top l w))
     /\ forall u, inb W H u ->
          cellOf (board (popped top l w)) u = "."%char ->
          Q u (recarved u (set_draws (S (draws w))
                             (add_log evs (popped top l w))))) ->
  post (backtrackStep w) Q T.
Proof.
  intros HI E HQ. unfold backtrackStep.
  step. step. rewrite E, getitem_last.
  repeat step.
  change (path (add_log [Cursor top] w)) with (path w).
  rewrite E, removelast_last.
  destruct (Inv_pop W H s allowed g w l top HI E)
    as (HI1 & Htop & Hts & Htl & Hx).
  unfold moveToSpecificCell. destruct top as [tr tc].
  apply (post_store W H); [exact (inv_wf _ _ _ _ _ _ HI1)|exact Htop|].
  change (set_board _ _) with (popped (tr, tc) l w).
  step.
  pose proof (Inv_seal W H s allowed g allowed_O _ (tr, tc) HI1 Htop Hts Htl)
    as HI2.
  change (set_board _ _) with (popped (tr, tc) l w) in HI2.
  apply (post_foundUnvisitedCell W H);
    [exact (inv_wf _ _ _ _ _ _ HI2)|exact Htop|].
  intros evs n r Hevs Hr.
  destruct (HQ evs Hevs) as (HI3 & HQ1 & HQ2).
  destruct r as [[ur uc]|].
  - destruct Hr as (Hu & Hdot & ->).
    repeat step.
    apply (post_store W H); [|exact Hu|].
    { apply wfw_add_log, wfw_set_draws. exact (inv_wf _ _ _ _ _ _ HI3). }
    repeat step. apply (HQ2 (ur, uc) Hu Hdot).
  - subst n. rewrite set_draws_same by reflexivity. step. exact HQ1.
Qed.

Variable J : world -> Prop.

Hypothesis J_ext :
  forall w w', board w' = board w -> path w' = path w -> log w' = log w ->
               J w -> J w'.
Hypothesis J_reads :
  forall w evs, Inv w -> J w -> reads W H evs -> J (add_log evs w).
Hypothesis J_pop :
  forall w l top, Inv w -> J w -> path w = l ++ [top] -> J (popped top l w).
Hypothesis J_recarve :
  forall w u, Inv w -> J w -> inb W H u -> cellOf (board w) u = "."%char ->
              J (recarved u w).
Hypothesis J_forward :
  forall w w' q,
    Inv w -> J w -> inb W H q -> free (cellOf (board w) q) = true ->
    board w' = put (board w) q "X" -> path w' = path w ++ [q] ->
    log w' = log w ++ [Write (fst q) (snd q) "X"; Cursor q; Push q] ->
    J w'.

Lemma Inv_popped (w : world) (l : list cell) (top : cell) :
  Inv w -> path w = l ++ [top] -> Inv (popped top l w) /\ inb W H top.
Proof.
  intros HI E.
  destruct (Inv_pop W H s allowed g w l top HI E)
    as (HI1 & Htop & Hts & Htl & Hx).
  split; [|exact Htop].
  exact (Inv_seal W H s allowed g allowed_O _ top HI1 Htop Hts Htl).
Qed.

Lemma Inv_recarved (w : world) (u : cell) :
  Inv w -> inb W H u -> cellOf (board w) u = "."%char -> Inv (recarved u w).
Proof.
  intros HI Hu Hdot. unfold recarved. apply Inv_backtracking.
  apply (Inv_mark W H s allowed g allowed_X (add_log [Cursor u] w) u);
    [now apply Inv_cursor|exact Hu|].
  cbn [board add_log]. now rewrite Hdot.
Qed.

Lemma track_backtrackStep (w : world) (l : list cell) (top : cell)
  (T : world -> Prop) :
  Inv w -> J w -> path w = l ++ [top] ->
  post (backtrackStep w)
    (fun c w' => Inv w' /\ J w' /\ inb W H c /\ finished w' = finished w)
    T.
Proof.
  intros HI HJ E.
  destruct (Inv_popped w l top HI E) as [HIp Htop].
  pose proof (J_pop w l top HI HJ E) as HJp.
  apply (post_backtrackStep_exact w l top); auto.
  intros evs He.
  assert (HI3 : Inv (add_log evs (popped top l w))) by now apply Inv_reads.
  assert (HJ3 : J (add_log evs (popped top l w))) by now apply J_reads.
  split; [exact HI3|]. split; [auto|].
  intros u Hu Hdot.
  assert (HI4 : Inv (set_draws (S (draws w)) (add_log evs (popped top l w))))
    by now apply Inv_draws.
  assert (HJ4 : J (set_draws (S (draws w)) (add_log evs (popped top l w))))
    by (eapply J_ext; [| | |exact HJ3]; reflexivity).
  split; [now apply Inv_recarved|]. split; [now apply J_recarve|auto].
Qed.

Lemma track_backtrackLoop (fuel : nat) :
  forall (cc : cell) (w : world),
    Inv w -> J w -> inb W H cc ->
    post (backtrackLoop fuel cc w)
      (fun c w' => Inv w' /\ J w' /\ inb W H c /\ finished w' = finished w
                   /\ (isBacktracking w' = false \/ path w' = []))
      (fun w' => Inv w' /\ J w').
Proof.
  induction fuel as [|fuel IH]; intros cc w HI HJ Hcc; cbn [backtrackLoop];
    step; step; step; step;
    destruct (isBacktracking w && (0 <? Z.of_nat (length (path w)))) eqn:Hc.
  - cbn [post timeout]. auto.
  - step. split; [auto|]. split; [auto|]. split; [auto|]. split; [auto|].
    apply andb_false_iff in Hc as [Hc|Hc]; [now left|right].
    apply Z.ltb_ge in Hc. destruct (path w); [reflexivity|simpl in Hc; lia].
  - apply andb_true_iff in Hc as [Hb Hl]. apply Z.ltb_lt in Hl.
    destruct (exists_last (l := path w)) as (p & a & Ep).
    { intros Ep. rewrite Ep in Hl. simpl in Hl. lia. }
    step.
    eapply post_mono; [apply (track_backtrackStep w p a never); auto| |].
    + intros c1 w1 (HI1 & HJ1 & Hc1 & Hf1). cbv beta.
      eapply post_mono; [apply IH; auto| |auto].
      intros c2 w2 (HI2 & HJ2 & Hc2 & Hf2 & Hend). cbv beta.
      split; [auto|]. split; [auto|]. split; [auto|].
      split; [congruence|auto].
    + intros w' [].
  - step. split; [auto|]. split; [auto|]. split; [auto|]. split; [auto|].
    apply andb_false_iff in Hc as [Hc|Hc]; [now left|right].
    apply Z.ltb_ge in Hc. destruct (path w); [reflexivity|simpl in Hc; lia].
Qed.

Lemma track_iteration (fuel : nat) (cc : cell) (w : world) :
  Inv w -> J w -> inb W H cc -> finished w = false ->
  post (iteration fuel cc w)
    (fun c w' => Inv w' /\ J w' /\ inb W H c
                 /\ (finished w' = true -> ended W H w'))
    (fun w' => Inv w' /\ J w').
Proof.
  intros HI HJ Hcc Hfin. unfold iteration.
  step. eapply post_mono; [apply track_backtrackLoop; auto| |auto].
  intros c1 w1 (HI1 & HJ1 & Hc1 & Hf1 & Hend). cbv beta.
  rewrite Hfin in Hf1.
  step. step. step. step.
  destruct (isBacktracking w1 && (Z.of_nat (length (path w1)) =? 0)) eqn:Hbrk.
  { repeat step. split; [now apply Inv_finished|].
    split; [eapply J_ext; [| | |exact HJ1]; reflexivity|].
    split; [exact Hc1|]. intros _. right.
    apply andb_true_iff in Hbrk as [Hb Hl]. apply Z.eqb_eq in Hl.
    cbn [isBacktracking path set_finished]. split; [exact Hb|].
    destruct (path w1); [reflexivity|simpl in Hl; lia]. }
  pose proof (inv_wf _ _ _ _ _ _ HI1) as Hw1.
  step. apply (post_getBlockedDirections W H); auto.
  intros evs Hevs.
  set (bl := blockedList W H (board w1) "X" c1).
  assert (HIe : Inv (add_log evs w1)) by (apply Inv_reads; auto).
  assert (HJe : J (add_log evs w1)) by (apply J_reads; auto).
  assert (Hscan : forall (c : cell) (w2 : world),
             Inv w2 -> J w2 -> inb W H c -> finished w2 = false ->
             post ((nodots <- checkIfThereAreNoMoreDotsInTheBoard;;
                    (if nodots then modify (set_finished true) else ret tt);;
                    ret c) w2)
               (fun c' w' => Inv w' /\ J w' /\ inb W H c'
                             /\ (finished w' = true -> ended W H w'))
               (fun w' => Inv w' /\ J w')).
  { intros c w2 HI2 HJ2 Hc2 Hf2. step.
    apply (post_checkIfThereAreNoMoreDotsInTheBoard W H);
      [exact (inv_wf _ _ _ _ _ _ HI2)|].
    intros evs' v Hevs' Hv. step.
    assert (HI2' : Inv (add_log evs' w2)) by (apply Inv_reads; auto).
    assert (HJ2' : J (add_log evs' w2)) by (apply J_reads; auto).
    destruct v.
    - repeat step. split; [now apply Inv_finished|].
      split; [eapply J_ext; [| | |exact HJ2']; reflexivity|].
      split; [exact Hc2|]. intros _. left. exact Hv.
    - repeat step. split; [exact HI2'|]. split; [exact HJ2'|].
      split; [exact Hc2|]. cbn [finished add_log]. congruence. }
  step.
  destruct (Z.eqb_spec (Z.of_nat (length bl)) 4) as [E4|E4].
  - step. step.
    assert (HIb : Inv (set_isBacktracking true (add_log evs w1)))
      by now apply Inv_backtracking.
    assert (HJb : J (set_isBacktracking true (add_log evs w1)))
      by (eapply J_ext; [| | |exact HJe]; reflexivity).
    apply (post_move W H s allowed g allowed_X fuel c1 bl); auto.
    + intros d w' Hlt. lia.
    + intros n d Hlt. lia.
  - step. step.
    apply (post_move W H s allowed g allowed_X fuel c1 bl); auto.
    + intros d w' Hlt Hd Hfree Hin Hfr HI' Hb' Hp' Hfin' Hbt' Hdr' Hlog'.
      apply Hscan; auto.
      * apply (J_forward (add_log evs w1) w' (target c1 d)); auto.
      * cbn [finished add_log] in Hfin'. congruence.
    + intros n d Hlt Hd Hfree Hall.
      split; [now apply Inv_draws|].
      eapply J_ext; [| | |exact HJe]; reflexivity.
Qed.

Lemma track_mainLoop (fuel rounds : nat) :
  forall (cc : cell) (w : world),
    Inv w -> J w -> inb W H cc -> (finished w = true -> ended W H w) ->
    post (mainLoop rounds fuel cc w)
      (fun c w' => Inv w' /\ J w' /\ finished w' = true /\ ended W H w')
      (fun w' => Inv w' /\ J w').
Proof.
  induction rounds as [|rounds IH]; intros cc w HI HJ Hcc Hend;
    cbn [mainLoop]; step; step; destruct (finished w) eqn:E.
  - step. auto.
  - cbn [post timeout]. auto.
  - step. auto.
  - step. eapply post_mono; [apply track_iteration; auto| |auto].
    intros c1 w1 (HI1 & HJ1 & Hc1 & Hend1). cbv beta. now apply IH.
Qed.

End Tracking.

Section TrackedRun.

Variables W H : Z.
Variable allowed : ascii -> Prop.
Hypothesis allowed_X : allowed "X"%char.
Hypothesis allowed_O : allowed "O"%char.
Variable J : world -> Prop.

Lemma track_carve (rounds fuel : nat) (w : world) :
  ready W H w ->
  (forall p, inb W H p -> allowed (cellOf (board w) p)) ->
  tracks W H (startCell w) allowed (gen w) J -> J (started w) ->
  post (carve rounds fuel w)
    (fun _ w' => Inv W H (startCell w) allowed (gen w) w' /\ J w'
                 /\ finished w' = true /\ ended W H w')
    (fun w' => Inv W H (startCell w) allowed (gen w) w' /\ J w').
Proof.
  intros Hr Hallowed [Jext Jreads Jpop Jrecarve Jforward] HJ.
  pose proof Hr as (Hw & HW1 & HH1 & Hfin & _).
  unfold carve. step. rewrite (chooseStart_eq W H) by assumption.
  cbn [post].
  apply (track_mainLoop W H (startCell w) allowed (gen w) allowed_X allowed_O
           J Jext Jreads Jpop Jrecarve Jforward); auto.
  - now apply Inv_started.
  - now apply (startCell_inb W H).
  - cbn [finished started set_board add_log set_draws]. congruence.
Qed.

Lemma track_run (rounds fuel : nat) (w : world) :
  ready W H w ->
  (forall p, inb W H p -> allowed (cellOf (board w) p)) ->
  tracks W H (startCell w) allowed (gen w) J -> J (started w) ->
  post (procedurelyGeneratedBoard rounds fuel w)
    (fun _ w' => exists w1,
         Inv W H (startCell w) allowed (gen w) w1 /\ J w1
         /\ finished w1 = true /\ ended W H w1 /\ finalized W H w1 w')
    (fun w' => Inv W H (startCell w) allowed (gen w) w' /\ J w').
Proof.
  intros Hr Hallowed HJt HJ. unfold procedurelyGeneratedBoard.
  step. eapply post_mono; [apply track_carve; eauto| |auto].
  intros cc w1 (HI1 & HJ1 & Hfin & Hend). cbv beta.
  step. step. rewrite Hfin.
  step. apply (post_polishBoard W H); [exact (inv_wf _ _ _ _ _ _ HI1)|].
  intros w' Hrep Hcells. repeat step.
  exists w1. split; [exact HI1|]. split; [exact HJ1|]. split; [exact Hfin|].
  split; [exact Hend|]. split; assumption.
Qed.

Lemma track_total (w : world) :
  ready W H w -> fair (gen w) ->
  (forall p, inb W H p -> allowed (cellOf (board w) p)) ->
  tracks W H (startCell w) allowed (gen w) J -> J (started w) ->
  exists fuel0 w1 w',
    (forall rounds fuel,
        (Z.to_nat (W * H) <= rounds)%nat -> (fuel0 <= fuel)%nat ->
        procedurelyGeneratedBoard rounds fuel w = Done tt w')
    /\ Inv W H (startCell w) allowed (gen w) w1 /\ J w1
    /\ finished w1 = true /\ ended W H w1 /\ finalized W H w1 w'.
Proof.
  intros Hr Hfair Hallowed HJt HJ.
  destruct (run_total W H allowed allowed_X allowed_O w Hr Hfair Hallowed)
    as (fuel0 & _ & w' & Hrun & _).
  pose proof (track_run (Z.to_nat (W * H)) fuel0 w Hr Hallowed HJt HJ)
    as Hpost.
  rewrite Hrun in Hpost by lia. cbn [post] in Hpost.
  destruct Hpost as (w1 & Hres). exists fuel0, w1, w'. auto.
Qed.

End TrackedRun.

Lemma tracks_True (W H : Z) (s : cell) (allowed : ascii -> Prop)
  (g : nat -> Z) :
  tracks W H s allowed g (fun _ => True).
Proof. constructor; auto. Qed.

(** ** Cells marked in the buffer *)

Lemma tracks_respected (W H : Z) (b0 : list (list ascii)) (s : cell)
  (allowed : ascii -> Prop) (g : nat -> Z) :
  tracks W H s allowed g (respected W H b0 s).
Proof.
  constructor.
  - intros w w' Eb Ep _ [H1 H2]. split.
    + intros p Hp. rewrite Ep in Hp. auto.
    + intros p Hp Hs Hf. rewrite Eb. auto.
  - intros w evs _ HJ _. exact HJ.
  - intros w l top HI [H1 H2] E.
    pose proof (inv_wf _ _ _ _ _ _ HI) as (_ & _ & Hb).
    pose proof (inv_path _ _ _ _ _ _ HI) as Hpath.
    rewrite E in Hpath. apply Forall_app in Hpath as [_ Htop].
    apply Forall_cons in Htop as [(Htop & _) _].
    assert (Hft : free (cellOf b0 top) = true).
    { apply H1. rewrite E. apply elem_of_app. right.
      apply list_elem_of_here. }
    split.
    + intros p Hp. apply H1. rewrite E. apply elem_of_app. now left.
    + intros p Hp Hs Hf. cbn [board popped set_board add_log set_path].
      rewrite (cellOf_put_ne W H); auto. intros ->. congruence.
  - intros w u HI [H1 H2] Hu Hdot.
    pose proof (inv_wf _ _ _ _ _ _ HI) as (_ & _ & Hb).
    split; [exact H1|].
    intros p Hp Hs Hf.
    cbn [board recarved set_isBacktracking set_board add_log].
    rewrite (cellOf_put_ne W H); auto.
    intros ->. rewrite (H2 p Hp Hs Hf) in Hdot. rewrite Hdot in Hf.
    discriminate Hf.
  - intros w w' q HI [H1 H2] Hq Hfree Eb Ep _.
    pose proof (inv_wf _ _ _ _ _ _ HI) as (_ & _ & Hb).
    pose proof (inv_start _ _ _ _ _ _ HI) as [_ Hsx].
    assert (Hfq : free (cellOf b0 q) = true).
    { destruct (free (cellOf b0 q)) eqn:Ef; [reflexivity|].
      destruct (decide (q = s)) as [->|Hne].
      - rewrite Hsx in Hfree. discriminate Hfree.
      - rewrite (H2 q Hq Hne Ef) in Hfree. congruence. }
    split.
    + intros p Hp. rewrite Ep in Hp. apply elem_of_app in Hp as [Hp|Hp]; auto.
      apply list_elem_of_singleton in Hp. now subst.
    + intros p Hp Hs Hf. rewrite Eb, (cellOf_put_ne W H); auto.
      intros ->. congruence.
Qed.

Lemma respected_started (W H : Z) (w : world) :
  ready W H w -> respected W H (board w) (startCell w) (started w).
Proof.
  intros (Hw & HW1 & HH1 & _ & _ & Hpath & _).
  pose proof (startCell_inb W H w Hw HW1 HH1) as Hin.
  pose proof Hw as (_ & _ & Hb).
  split.
  - intros p Hp. cbn [path started set_board add_log set_draws] in Hp.
    rewrite Hpath in Hp. now apply elem_of_nil in Hp.
  - intros p Hp Hs _. cbn [board started set_board].
    apply (cellOf_put_ne W H); auto.
Qed.

(** X13: cells that already hold ['X'] or ['O'] in the buffer handed to the
    constructor, other than the start cell, are obstacles.  Carving never
    writes them and never puts them on the stack, at any point of the run;
    in the grid returned an ['X'] of the buffer is a ['#'] and an ['O'] is a
    ['.'].  With fair draws the run does return. *)
Theorem marked_cells_are_obstacles (W H : Z) (w : world) :
  ready W H w ->
  (forall rounds fuel,
      match procedurelyGeneratedBoard rounds fuel w with
      | Done _ w' =>
          forall p, inb W H p -> p <> startCell w ->
            (cellOf (board w) p = "X"%char -> cellOf (board w') p = "#"%char)
            /\ (cellOf (board w) p = "O"%char ->
                cellOf (board w') p = "."%char)
      | Timeout w' =>
          forall p, inb W H p -> p <> startCell w ->
            free (cellOf (board w) p) = false ->
            cellOf (board w') p = cellOf (board w) p /\ (p ∉ path w')
      | Raise _ _ => False
      end)
  /\ (fair (gen w) ->
      exists fuel0 w',
        (forall rounds fuel,
            (Z.to_nat (W * H) <= rounds)%nat -> (fuel0 <= fuel)%nat ->
            procedurelyGeneratedBoard rounds fuel w = Done tt w')
        /\ forall p, inb W H p -> p <> startCell w ->
             (cellOf (board w) p = "X"%char -> cellOf (board w') p = "#"%char)
             /\ (cellOf (board w) p = "O"%char ->
                 cellOf (board w') p = "."%char)).
Proof.
  intros Hr.
  set (J := respected W H (board w) (startCell w)).
  assert (HJt : tracks W H (startCell w) (fun _ => True) (gen w) J)
    by apply tracks_respected.
  assert (HJ0 : J (started w)) by now apply respected_started.
  assert (Hfinal : forall w1 w',
             J w1 -> finalized W H w1 w' ->
             forall p, inb W H p -> p <> startCell w ->
               (cellOf (board w) p = "X"%char ->
                cellOf (board w') p = "#"%char)
               /\ (cellOf (board w) p = "O"%char ->
                   cellOf (board w') p = "."%char)).
  { intros w1 w' [_ H2] [_ Hcells] p Hp Hs.
    rewrite (Hcells p Hp).
    split; intros E; rewrite (H2 p Hp Hs) by (now rewrite E); rewrite E;
      reflexivity. }
  split.
  - intros rounds fuel.
    pose proof (track_run W H (fun _ => True) I I J rounds fuel w Hr
                  (fun _ _ => I) HJt HJ0) as Hpost.
    destruct (procedurelyGeneratedBoard rounds fuel w) as [[] w'|e w'|w'];
      cbn [post] in Hpost.
    + destruct Hpost as (w1 & _ & HJ1 & _ & _ & Hfin).
      now apply (Hfinal w1 w').
    + exact Hpost.
    + destruct Hpost as [_ [H1 H2]]. intros p Hp Hs Hf.
      split; [now apply H2|]. intros Hin. specialize (H1 p Hin). congruence.
  - intros Hfair.
    destruct (track_total W H (fun _ => True) I I J w Hr Hfair (fun _ _ => I)
                HJt HJ0)
      as (fuel0 & w1 & w' & Hrun & _ & HJ1 & _ & _ & Hfin).
    exists fuel0, w'. split; [exact Hrun|]. now apply (Hfinal w1 w').
Qed.

Lemma marked_cells_are_obstacles_witness :
  let w := World [["."; "X"; "."]; ["."; "O"; "."]]%char 3 2 false [] false
             None counting 0 [] in
  (forall rounds fuel,
      match procedurelyGeneratedBoard rounds fuel w with
      | Done _ w' =>
          forall p, inb 3 2 p -> p <> startCell w ->
            (cellOf (board w) p = "X"%char -> cellOf (board w') p = "#"%char)
            /\ (cellOf (board w) p = "O"%char ->
                cellOf (board w') p = "."%char)
      | Timeout w' =>
          forall p, inb 3 2 p -> p <> startCell w ->
            free (cellOf (board w) p) = false ->
            cellOf (board w') p = cellOf (board w) p /\ (p ∉ path w')
      | Raise _ _ => False
      end)
  /\ (fair (gen w) ->
      exists fuel0 w',
        (forall rounds fuel,
            (Z.to_nat (3 * 2) <= rounds)%nat -> (fuel0 <= fuel)%nat ->
            procedurelyGeneratedBoard rounds fuel w = Done tt w')
        /\ forall p, inb 3 2 p -> p <> startCell w ->
             (cellOf (board w) p = "X"%char -> cellOf (board w') p = "#"%char)
             /\ (cellOf (board w) p = "O"%char ->
                 cellOf (board w') p = "."%char)).
Proof.
  apply (marked_cells_are_obstacles 3 2
           (World [["."; "X"; "."]; ["."; "O"; "."]]%char 3 2 false [] false
              None counting 0 [])).
  unfold ready, wfw. simpl.
  split; [split; [reflexivity|split; [reflexivity|]]|].
  - split; [reflexivity|]. repeat constructor.
  - repeat split; lia.
Defined.

(** ** The markers and the trace *)

Lemma reads_no_write (W H : Z) (evs : list event) (r c : Z) (ch : ascii) :
  reads W H evs -> Write r c ch ∉ evs.
Proof.
  intros Hr Hin. unfold reads in Hr. rewrite Forall_forall in Hr.
  destruct (Hr _ Hin) as (r' & c' & E & _). discriminate E.
Qed.

Lemma reads_no_pop (W H : Z) (evs : list event) (p : cell) :
  reads W H evs -> Pop p ∉ evs.
Proof.
  intros Hr Hin. unfold reads in Hr. rewrite Forall_forall in Hr.
  destruct (Hr _ Hin) as (r' & c' & E & _). discriminate E.
Qed.

Lemma accesses_no_carve (W H : Z) (evs : list event) (r c : Z) :
  accesses W H evs -> Write r c "X" ∉ evs.
Proof.
  intros Ha Hin. unfold accesses in Ha. rewrite Forall_forall in Ha.
  destruct (Ha _ Hin) as (r' & c' & _ & [E|[E|E]]); discriminate E.
Qed.

Lemma accesses_no_pop (W H : Z) (evs : list event) (p : cell) :
  accesses W H evs -> Pop p ∉ evs.
Proof.
  intros Ha Hin. unfold accesses in Ha. rewrite Forall_forall in Ha.
  destruct (Ha _ Hin) as (r' & c' & _ & [E|[E|E]]); discriminate E.
Qed.

(** One write of a marker, with the events that go with it, keeps the
    markers and the trace in step. *)
Lemma traced_step (W H : Z) (w w' : world) (new : list event) (q : cell)
  (ch : ascii) :
  wfb W H (board w) -> inb W H q -> traced W H w ->
  board w' = put (board w) q ch -> log w' = log w ++ new ->
  (forall p, p <> q -> ~ carvedIn new p /\ ~ poppedIn new p) ->
  (ch = "X"%char
   <-> carvedIn (log w ++ new) q /\ ~ poppedIn (log w ++ new) q) ->
  (ch = "O"%char <-> poppedIn (log w ++ new) q) ->
  traced W H w'.
Proof.
  intros Hb Hq Ht Eb El Hother HX HO p Hp.
  rewrite Eb, El. destruct (decide (q = p)) as [<-|Hne].
  - rewrite (cellOf_put_eq W H) by auto. split; assumption.
  - rewrite (cellOf_put_ne W H) by auto.
    destruct (Hother p (not_eq_sym Hne)) as [Hc Hpp].
    destruct (Ht p Hp) as [H1 H2].
    unfold carvedIn, poppedIn in *. rewrite !elem_of_app. tauto.
Qed.

Ltac in_events H :=
  repeat (apply elem_of_cons in H as [H|H];
          [try discriminate H|]);
  try (now apply elem_of_nil in H).

Lemma tracks_traced (W H : Z) (s : cell) (allowed : ascii -> Prop)
  (g : nat -> Z) :
  tracks W H s allowed g (traced W H).
Proof.
  constructor.
  - intros w w' Eb _ El Ht p Hp. rewrite Eb, El. auto.
  - intros w evs _ Ht He p Hp. cbn [board log add_log].
    destruct (Ht p Hp) as [H1 H2].
    pose proof (reads_no_write W H evs (fst p) (snd p) "X" He).
    pose proof (reads_no_pop W H evs p He).
    unfold carvedIn, poppedIn in *. rewrite !elem_of_app. tauto.
  - intros w l top HI Ht E.
    pose proof (inv_wf _ _ _ _ _ _ HI) as (_ & _ & Hb).
    pose proof (inv_path _ _ _ _ _ _ HI) as Hpath.
    rewrite E in Hpath. apply Forall_app in Hpath as [_ Htop].
    apply Forall_cons in Htop as [(Htop & _) _].
    apply (traced_step W H w _
             [Cursor top; Pop top; Write (fst top) (snd top) "O"] top "O");
      auto.
    + cbn [log popped set_board add_log set_path].
      now rewrite <- !app_assoc.
    + intros p Hne. unfold carvedIn, poppedIn. split; intros Hin.
      * in_events Hin.
      * in_events Hin. congruence.
    + split; [discriminate|]. intros [_ Hn]. exfalso. apply Hn.
      unfold poppedIn. apply elem_of_app. right.
      apply list_elem_of_further, list_elem_of_here.
    + split; [|reflexivity]. intros _.
      unfold poppedIn. apply elem_of_app. right.
      apply list_elem_of_further, list_elem_of_here.
  - intros w u HI Ht Hu Hdot.
    pose proof (inv_wf _ _ _ _ _ _ HI) as (_ & _ & Hb).
    assert (Hnp : ~ poppedIn (log w) u).
    { intros Hin. apply (Ht u Hu) in Hin. rewrite Hin in Hdot.
      discriminate Hdot. }
    assert (Hnew : ~ poppedIn [Cursor u; Write (fst u) (snd u) "X"] u).
    { unfold poppedIn. intros Hin. in_events Hin. }
    apply (traced_step W H w _ [Cursor u; Write (fst u) (snd u) "X"] u "X");
      auto.
    + cbn [log recarved set_isBacktracking set_board add_log].
      now rewrite <- !app_assoc.
    + intros p Hne. unfold carvedIn, poppedIn. split; intros Hin.
      * in_events Hin. injection Hin as E1 E2. apply Hne.
        destruct p, u. simpl in *. congruence.
      * in_events Hin.
    + split; [|reflexivity]. intros _. split.
      * unfold carvedIn. apply elem_of_app. right.
        apply list_elem_of_further, list_elem_of_here.
      * unfold poppedIn in *. rewrite elem_of_app. tauto.
    + split; [discriminate|].
      unfold poppedIn in *. rewrite elem_of_app. tauto.
  - intros w w' q HI Ht Hq Hfree Eb _ El.
    pose proof (inv_wf _ _ _ _ _ _ HI) as (_ & _ & Hb).
    assert (Hnp : ~ poppedIn (log w) q).
    { intros Hin. apply (Ht q Hq) in Hin. rewrite Hin in Hfree.
      discriminate Hfree. }
    assert (Hnew : ~ poppedIn [Write (fst q) (snd q) "X"; Cursor q; Push q] q).
    { unfold poppedIn. intros Hin. in_events Hin. }
    apply (traced_step W H w w'
             [Write (fst q) (snd q) "X"; Cursor q; Push q] q "X"); auto.
    + intros p Hne. unfold carvedIn, poppedIn. split; intros Hin.
      * in_events Hin. injection Hin as E1 E2. apply Hne.
        destruct p, q. simpl in *. congruence.
      * in_events Hin.
    + split; [|reflexivity]. intros _. split.
      * unfold carvedIn. apply elem_of_app. right. apply list_elem_of_here.
      * unfold poppedIn in *. rewrite elem_of_app. tauto.
    + split; [discriminate|].
      unfold poppedIn in *. rewrite elem_of_app. tauto.
Qed.

Lemma traced_started (W H : Z) (w : world) :
  ready W H w ->
  (forall p, inb W H p -> cellOf (board w) p = "."%char) ->
  traced W H (started w).
Proof.
  intros (Hw & HW1 & HH1 & _ & _ & _ & Hlog) Hdots.
  pose proof (startCell_inb W H w Hw HW1 HH1) as Hin.
  pose proof Hw as (_ & _ & Hb).
  intros p Hp. unfold started. set (s0 := startCell w) in *. clearbody s0.
  cbn [board log set_board add_log set_draws].
  rewrite Hlog. cbn [app]. unfold carvedIn, poppedIn.
  destruct (decide (s0 = p)) as [<-|Hne].
  - rewrite (cellOf_put_eq W H) by auto. split; split.
    + intros _. split.
      * apply list_elem_of_further, list_elem_of_here.
      * intros Hin'. in_events Hin'.
    + reflexivity.
    + discriminate.
    + intros Hin'. in_events Hin'.
  - rewrite (cellOf_put_ne W H), (Hdots p Hp) by auto. split; split.
    + discriminate.
    + intros [Hin' _]. in_events Hin'. injection Hin' as E1 E2.
      exfalso. apply Hne. destruct p, s0. cbn [fst snd] in *. congruence.
    + discriminate.
    + intros Hin'. in_events Hin'.
Qed.

(** X14: what the returned grid means.  On a buffer in which every cell
    holds ['.'], a cell of the returned grid is a wall (['#']) exactly if it
    was carved during the run and never popped from the backtrack stack, and
    is ['.'] otherwise; with fair draws the run does return. *)
Theorem walls_are_carved_and_never_popped (W H : Z) (w : world) :
  ready W H w ->
  (forall p, inb W H p -> cellOf (board w) p = "."%char) ->
  (forall rounds fuel w',
      procedurelyGeneratedBoard rounds fuel w = Done tt w' ->
      forall p, inb W H p ->
        (cellOf (board w') p = "#"%char
         <-> carvedIn (log w') p /\ ~ poppedIn (log w') p)
        /\ (cellOf (board w') p = "."%char
            <-> ~ (carvedIn (log w') p /\ ~ poppedIn (log w') p)))
  /\ (fair (gen w) ->
      exists fuel0 w',
        (forall rounds fuel,
            (Z.to_nat (W * H) <= rounds)%nat -> (fuel0 <= fuel)%nat ->
            procedurelyGeneratedBoard rounds fuel w = Done tt w')
        /\ forall p, inb W H p ->
             (cellOf (board w') p = "#"%char
              <-> carvedIn (log w') p /\ ~ poppedIn (log w') p)
             /\ (cellOf (board w') p = "."%char
                 <-> ~ (carvedIn (log w') p /\ ~ poppedIn (log w') p))).
Proof.
  intros Hr Hdots.
  assert (Hallowed : forall p, inb W H p -> marker (cellOf (board w) p)).
  { intros p Hp. left. now apply Hdots. }
  assert (HX : marker "X") by (right; left; reflexivity).
  assert (HO : marker "O") by (right; right; reflexivity).
  assert (HJt : tracks W H (startCell w) marker (gen w) (traced W H))
    by apply tracks_traced.
  assert (HJ0 : traced W H (started w)) by now apply traced_started.
  assert (Hfinal : forall w1 w',
             Inv W H (startCell w) marker (gen w) w1 ->
             traced W H w1 -> finalized W H w1 w' ->
             forall p, inb W H p ->
               (cellOf (board w') p = "#"%char
                <-> carvedIn (log w') p /\ ~ poppedIn (log w') p)
               /\ (cellOf (board w') p = "."%char
                   <-> ~ (carvedIn (log w') p /\ ~ poppedIn (log w') p))).
  { intros w1 w' HI1 Ht1 [Hrep Hcells] p Hp.
    destruct Hrep as (_ & _ & _ & _ & _ & _ & _ & evs & El & Hacc).
    rewrite (Hcells p Hp), El.
    pose proof (accesses_no_carve W H evs (fst p) (snd p) Hacc) as Hnc.
    pose proof (accesses_no_pop W H evs p Hacc) as Hnp.
    destruct (Ht1 p Hp) as [H1 H2].
    assert (K : cellOf (board w1) p = "X"%char
                <-> carvedIn (log w1 ++ evs) p
                    /\ ~ poppedIn (log w1 ++ evs) p).
    { unfold carvedIn, poppedIn in *. rewrite !elem_of_app. tauto. }
    rewrite <- K.
    destruct (inv_alpha _ _ _ _ _ _ HI1 p Hp) as [E|[E|E]]; rewrite E;
      cbn; split; split; intros Hyp; try reflexivity; try discriminate Hyp;
      try (intros Hd; discriminate Hd);
      try (exfalso; apply Hyp; reflexivity). }
  split.
  - intros rounds fuel w' E.
    pose proof (track_run W H marker HX HO (traced W H) rounds fuel w Hr
                  Hallowed HJt HJ0) as Hpost.
    rewrite E in Hpost. cbn [post] in Hpost.
    destruct Hpost as (w1 & HI1 & Ht1 & _ & _ & Hfin).
    now apply (Hfinal w1 w').
  - intros Hfair.
    destruct (track_total W H marker HX HO (traced W H) w Hr Hfair Hallowed
                HJt HJ0)
      as (fuel0 & w1 & w' & Hrun & HI1 & Ht1 & _ & _ & Hfin).
    exists fuel0, w'. split; [exact Hrun|]. now apply (Hfinal w1 w').
Qed.

Lemma walls_are_carved_and_never_popped_witness :
  let w := World (blank 3 2) 3 2 false [] false None counting 0 [] in
  (forall rounds fuel w',
      procedurelyGeneratedBoard rounds fuel w = Done tt w' ->
      forall p, inb 3 2 p ->
        (cellOf (board w') p = "#"%char
         <-> carvedIn (log w') p /\ ~ poppedIn (log w') p)
        /\ (cellOf (board w') p = "."%char
            <-> ~ (carvedIn (log w') p /\ ~ poppedIn (log w') p)))
  /\ (fair (gen w) ->
      exists fuel0 w',
        (forall rounds fuel,
            (Z.to_nat (3 * 2) <= rounds)%nat -> (fuel0 <= fuel)%nat ->
            procedurelyGeneratedBoard rounds fuel w = Done tt w')
        /\ forall p, inb 3 2 p ->
             (cellOf (board w') p = "#"%char
              <-> carvedIn (log w') p /\ ~ poppedIn (log w') p)
             /\ (cellOf (board w') p = "."%char
                 <-> ~ (carvedIn (log w') p /\ ~ poppedIn (log w') p))).
Proof.
  apply (walls_are_carved_and_never_popped 3 2
           (World (blank 3 2) 3 2 false [] false None counting 0 [])).
  - unfold ready, wfw. simpl.
    split; [split; [reflexivity|split; [reflexivity|apply (wfb_blank 3 2)]]|].
    repeat split; lia.
  - intros p Hp. apply (cellOf_blank 3 2). exact Hp.
Defined.

(** ** Why the carving phase stops *)

(** X15: the main loop stops only when no cell of the grid holds ['.'] any
    more, or when the stack has run empty in backtracking mode; in the
    second case cells holding ['.'] may be left.  With fair draws it does
    stop. *)
Theorem carving_stops_for_a_reason (W H : Z) (w : world) :
  ready W H w ->
  (forall rounds fuel cc w',
      carve rounds fuel w = Done cc w' ->
      finished w' = true
      /\ ((forall p, inb W H p -> cellOf (board w') p <> "."%char)
          \/ (isBacktracking w' = true /\ path w' = [])))
  /\ (fair (gen w) ->
      exists fuel0 cc w',
        (forall rounds fuel,
            (Z.to_nat (W * H) <= rounds)%nat -> (fuel0 <= fuel)%nat ->
            carve rounds fuel w = Done cc w')
        /\ finished w' = true
        /\ ((forall p, inb W H p -> cellOf (board w') p <> "."%char)
            \/ (isBacktracking w' = true /\ path w' = []))).
Proof.
  intros Hr.
  assert (Hany : forall rounds fuel cc w',
             carve rounds fuel w = Done cc w' ->
             finished w' = true /\ ended W H w').
  { intros rounds fuel cc w' E.
    pose proof (track_carve W H (fun _ => True) I I (fun _ => True)
                  rounds fuel w Hr (fun _ _ => I)
                  (tracks_True W H _ _ _) I) as Hpost.
    rewrite E in Hpost. cbn [post] in Hpost. tauto. }
  split; [exact Hany|].
  intros Hfair.
  destruct (carve_total W H (fun _ => True) I I w Hr Hfair (fun _ _ => I))
    as (fuel0 & cc & w' & Hrun & _).
  exists fuel0, cc, w'. split; [exact Hrun|].
  apply (Hany (Z.to_nat (W * H)) fuel0 cc w'). apply Hrun; lia.
Qed.

Lemma carving_stops_for_a_reason_witness :
  let w := World (blank 5 1) 5 1 false [] false None (script [0; 2; 2; 2]) 0
             [] in
  (forall rounds fuel cc w',
      carve rounds fuel w = Done cc w' ->
      finished w' = true
      /\ ((forall p, inb 5 1 p -> cellOf (board w') p <> "."%char)
          \/ (isBacktracking w' = true /\ path w' = [])))
  /\ (fair (gen w) ->
      exists fuel0 cc w',
        (forall rounds fuel,
            (Z.to_nat (5 * 1) <= rounds)%nat -> (fuel0 <= fuel)%nat ->
            carve rounds fuel w = Done cc w')
        /\ finished w' = true
        /\ ((forall p, inb 5 1 p -> cellOf (board w') p <> "."%char)
            \/ (isBacktracking w' = true /\ path w' = []))).
Proof.
  apply (carving_stops_for_a_reason 5 1
           (World (blank 5 1) 5 1 false [] false None (script [0; 2; 2; 2]) 0
              [])).
  unfold ready, wfw. simpl.
  split; [split; [reflexivity|split; [reflexivity|apply (wfb_blank 5 1)]]|].
  repeat split; lia.
Defined.

(** A run that stops for the second reason: on a strip of five cells started
    in the middle the walk goes right to the end, backtracks until the stack
    is empty and stops; the two cells left of the start cell were never
    visited, and the start cell is the only wall of the result. *)
Example stops_with_cells_left :
  let w := World (blank 5 1) 5 1 false [] false None (script [0; 2; 2; 2]) 0
             [] in
  (exists cc w',
      carve 4 3 w = Done cc w'
      /\ board w' = [["."; "."; "X"; "O"; "O"]]%char
      /\ isBacktracking w' = true /\ path w' = [])
  /\ exists w',
       procedurelyGeneratedBoard 4 3 w = Done tt w'
       /\ board w' = [["."; "."; "#"; "."; "."]]%char.
Proof.
  split.
  - eexists. eexists. split; [vm_compute; reflexivity|]. auto.
  - eexists. split; [vm_compute; reflexivity|]. reflexivity.
Qed.

(** ** A buffer smaller than declared *)

(** X16: the dimensions are taken on trust.  If the start cell that was
    drawn does not exist in the buffer (the buffer has too few rows, or the
    row drawn is too short), the run raises [IndexError] on its first write,
    after consuming two random numbers; the buffer is unchanged. *)
Theorem short_buffer_raises (rounds fuel : nat) (w : world) :
  1 <= boardWidth w -> 1 <= boardHeight w ->
  Z.of_nat (length (board w)) <= fst (startCell w)
  \/ (exists row, board w !! Z.to_nat (fst (startCell w)) = Some row
                  /\ Z.of_nat (length row) <= snd (startCell w)) ->
  exists w',
    procedurelyGeneratedBoard rounds fuel w = Raise IndexError w'
    /\ board w' = board w /\ draws w' = S (S (draws w))
    /\ path w' = path w /\ finished w' = finished w.
Proof.
  intros HW HH Hshort.
  pose proof (randint_range 0 (boardHeight w - 1) (gen w (draws w))) as Hr.
  pose proof (randint_range 0 (boardWidth w - 1) (gen w (S (draws w)))) as Hc.
  unfold startCell in Hshort. cbn [fst snd] in Hshort.
  unfold procedurelyGeneratedBoard, carve, chooseStart.
  unfold bind at 1. unfold bind at 1. unfold bind at 1. unfold gets at 1.
  unfold bind at 1. rewrite randint_ok by lia.
  unfold bind at 1. unfold gets at 1.
  unfold bind at 1. rewrite randint_ok by (cbn; lia).
  unfold bind at 1. unfold emit at 1, modify at 1.
  unfold bind at 1. unfold store.
  unfold bind at 1. unfold emit at 1, modify at 1.
  unfold bind at 1. unfold gets at 1.
  cbn [board boardWidth boardHeight gen draws add_log set_draws].
  set (r := 0 + gen w (draws w) mod (boardHeight w - 1 - 0 + 1)) in *.
  set (c := 0 + gen w (S (draws w)) mod (boardWidth w - 1 - 0 + 1)) in *.
  assert (Hr0 : 0 <= r) by (subst r; lia).
  assert (Hc0 : 0 <= c) by (subst c; lia).
  destruct Hshort as [Hrow|(row & Erow & Hcol)].
  - assert (E : py_index (Z.of_nat (length (board w))) r = None).
    { unfold py_index.
      destruct (Z.leb_spec 0 r); destruct (Z.ltb_spec r (Z.of_nat (length (board w))));
        destruct (Z.leb_spec (- Z.of_nat (length (board w))) r);
        destruct (Z.ltb_spec r 0); simpl; try lia; reflexivity. }
    rewrite E. eexists. split; [reflexivity|]. auto.
  - assert (Hlt : (Z.to_nat r < length (board w))%nat).
    { apply lookup_lt_is_Some. eauto. }
    rewrite py_index_inside by lia. rewrite Erow.
    assert (E : setitem row c "X"%char = None).
    { unfold setitem, py_index.
      destruct (Z.leb_spec 0 c); destruct (Z.ltb_spec c (Z.of_nat (length row)));
        destruct (Z.leb_spec (- Z.of_nat (length row)) c);
        destruct (Z.ltb_spec c 0); simpl; try lia; reflexivity. }
    rewrite E. eexists. split; [reflexivity|]. auto.
Qed.

Lemma short_buffer_raises_witness :
  exists w',
    procedurelyGeneratedBoard 4 4
      (World [["."; "."]]%char 2 2 false [] false None (script [1; 0]) 0 [])
    = Raise IndexError w'
    /\ board w' = [["."; "."]]%char /\ draws w' = 2%nat
    /\ path w' = [] /\ finished w' = false.
Proof.
  apply (short_buffer_raises 4 4
           (World [["."; "."]]%char 2 2 false [] false None (script [1; 0]) 0
              [])).
  - simpl. lia.
  - simpl. lia.
  - left. vm_compute. discriminate.
Defined.

(** ** The rejection loop always ends *)

Lemma short_list_misses (bl : list Z) :
  Z.of_nat (length bl) < 4 ->
  exists d, 0 <= d <= 3 /\ blockedIn bl d = false.
Proof.
  intros Hlen. unfold blockedIn.
  destruct (existsb (Z.eqb 0) bl) eqn:E0; [|exists 0; split; [lia|auto]].
  destruct (existsb (Z.eqb 1) bl) eqn:E1; [|exists 1; split; [lia|auto]].
  destruct (existsb (Z.eqb 2) bl) eqn:E2; [|exists 2; split; [lia|auto]].
  destruct (existsb (Z.eqb 3) bl) eqn:E3; [|exists 3; split; [lia|auto]].
  exfalso.
  assert (Hin : forall d, existsb (Z.eqb d) bl = true -> In d bl).
  { intros d E. apply existsb_exists in E as (x & Hx & Ex).
    apply Z.eqb_eq in Ex. now subst. }
  assert (Hincl : incl [0; 1; 2; 3] bl).
  { intros d [<-|[<-|[<-|[<-|[]]]]]; auto. }
  assert (Hnd : List.NoDup [0; 1; 2; 3]).
  { repeat constructor; simpl; intuition lia. }
  pose proof (List.NoDup_incl_length Hnd Hincl) as Hle. simpl in Hle. lia.
Qed.

(** X17: [move] returns for every list it is given, provided the draws are
    fair.  A list of four or more entries, whatever they are, makes it
    return at once without drawing; a shorter list always leaves one of the
    directions 0..3 out, so the rejection loop ends after finitely many
    draws, at the first direction that is not in the list. *)
Theorem move_rejection_ends (cc : cell) (bl : list Z) (ch : ascii)
  (w : world) :
  fair (gen w) ->
  (4 <= Z.of_nat (length bl) ->
   forall fuel, move fuel cc bl ch w = Done cc w)
  /\ (Z.of_nat (length bl) < 4 ->
      exists k,
        blockedIn bl (draw w k) = false /\ 0 <= draw w k <= 3
        /\ (forall j, (j < k)%nat -> blockedIn bl (draw w j) = true)
        /\ forall fuel,
             (k <= fuel)%nat ->
             move fuel cc bl ch w
             = advance (draw w k) cc ch (set_draws (S (draws w + k)) w)).
Proof.
  intros Hfair. split.
  - intros Hlen fuel. unfold move.
    destruct (Z.ltb_spec (Z.of_nat (length bl)) 4); [lia|reflexivity].
  - intros Hlen.
    destruct (short_list_misses bl Hlen) as (d & Hd & Hfree).
    destruct (Hfair (draws w) d ltac:(lia)) as (k0 & Ek0).
    assert (Hk0 : blockedIn bl (draw w k0) = false).
    { unfold draw. now rewrite dirOf_mod, Ek0. }
    destruct (first_free (fun j => blockedIn bl (draw w j)) k0)
      as [(k & Hk & Hf & Hb)|Hall].
    2:{ rewrite (Hall k0) in Hk0 by lia. discriminate Hk0. }
    exists k. split; [exact Hf|]. split; [apply dirOf_range|].
    split; [exact Hb|].
    intros fuel Hfuel. unfold move.
    destruct (Z.ltb_spec (Z.of_nat (length bl)) 4); [|lia].
    unfold bind at 1. rewrite randint_dir. unfold bind at 1.
    rewrite (redraw_first bl (gen w) k fuel (draws w) w eq_refl Hb Hf Hfuel).
    reflexivity.
Qed.

Lemma move_rejection_ends_witness :
  let w := World (blank 3 2) 3 2 false [] false None counting 0 [] in
  (4 <= Z.of_nat (length [0; 0; 1]) ->
   forall fuel, move fuel (0, 0) [0; 0; 1] "X" w = Done (0, 0) w)
  /\ (Z.of_nat (length [0; 0; 1]) < 4 ->
      exists k,
        blockedIn [0; 0; 1] (draw w k) = false /\ 0 <= draw w k <= 3
        /\ (forall j, (j < k)%nat -> blockedIn [0; 0; 1] (draw w j) = true)
        /\ forall fuel,
             (k <= fuel)%nat ->
             move fuel (0, 0) [0; 0; 1] "X" w
             = advance (draw w k) (0, 0) "X" (set_draws (S (draws w + k)) w)).
Proof.
  apply (move_rejection_ends (0, 0) [0; 0; 1] "X"
           (World (blank 3 2) 3 2 false [] false None counting 0 [])).
  exact fair_counting.
Defined.

(** ** Markers only advance *)

Lemma advanced_put (W H : Z) (b1 : list (list ascii)) (w w' : world)
  (q : cell) (ch : ascii) :
  advanced W H b1 w -> wfb W H (board w) -> inb W H q ->
  board w' = put (board w) q ch ->
  (ch = "X"%char /\ free (cellOf (board w) q) = true)
  \/ (ch = "O"%char /\ cellOf (board w) q = "X"%char) ->
  advanced W H b1 w'.
Proof.
  intros Ha Hb Hq Eb Hcase p Hp. rewrite Eb.
  destruct (Ha p Hp) as (H1 & H2 & H3).
  destruct (decide (q = p)) as [<-|Hne].
  - rewrite (cellOf_put_eq W H) by auto.
    destruct Hcase as [[-> Hf]|[-> Hx]].
    + split; [|split; [auto|discriminate]].
      intros E. rewrite (H1 E) in Hf. discriminate Hf.
    + split; [reflexivity|]. split; [auto|discriminate].
  - rewrite (cellOf_put_ne W H) by auto. auto.
Qed.

Lemma tracks_advanced (W H : Z) (b1 : list (list ascii)) (s : cell)
  (allowed : ascii -> Prop) (g : nat -> Z) :
  tracks W H s allowed g (advanced W H b1).
Proof.
  constructor.
  - intros w w' Eb _ _ Ha p Hp. rewrite Eb. auto.
  - intros w evs _ Ha _. exact Ha.
  - intros w l top HI Ha E.
    pose proof (inv_wf _ _ _ _ _ _ HI) as (_ & _ & Hb).
    pose proof (inv_path _ _ _ _ _ _ HI) as Hpath.
    rewrite E in Hpath. apply Forall_app in Hpath as [_ Htop].
    apply Forall_cons in Htop as [(Htop & Hx & _) _].
    apply (advanced_put W H b1 w _ top "O"); auto.
  - intros w u HI Ha Hu Hdot.
    pose proof (inv_wf _ _ _ _ _ _ HI) as (_ & _ & Hb).
    apply (advanced_put W H b1 w _ u "X"); auto.
    left. split; [reflexivity|]. now rewrite Hdot.
  - intros w w' q HI Ha Hq Hfree Eb _ _.
    pose proof (inv_wf _ _ _ _ _ _ HI) as (_ & _ & Hb).
    apply (advanced_put W H b1 w w' q "X"); auto.
Qed.

Lemma advanced_refl (W H : Z) (w : world) : advanced W H (board w) w.
Proof. intros p Hp. auto. Qed.

(** X18: during the carving phase the marker of a cell only advances, from
    unvisited to carved to sealed.  From any state of the phase, however long
    the main loop goes on (to its end or until the fuel runs out), a cell
    that was sealed is sealed, a cell that was carved is carved or sealed,
    and a cell that holds ['.'] afterwards held ['.'] before: a sealed cell
    is never carved again and no cell returns to unvisited. *)
Theorem markers_only_advance (W H : Z) (w0 : world) :
  ready W H w0 ->
  (exists cc, inb W H cc
              /\ Inv W H (startCell w0) (fun _ => True) (gen w0) (started w0))
  /\ forall rounds fuel cc w,
       Inv W H (startCell w0) (fun _ => True) (gen w0) w -> inb W H cc ->
       match mainLoop rounds fuel cc w with
       | Done _ w' | Timeout w' =>
           forall p, inb W H p ->
             (cellOf (board w) p = "O"%char -> cellOf (board w') p = "O"%char)
             /\ (cellOf (board w) p = "X"%char ->
                 cellOf (board w') p = "X"%char
                 \/ cellOf (board w') p = "O"%char)
             /\ (cellOf (board w') p = "."%char ->
                 cellOf (board w) p = "."%char)
       | Raise _ _ => False
       end.
Proof.
  intros Hr. split.
  { pose proof Hr as (Hw & HW1 & HH1 & _).
    exists (startCell w0). split; [now apply (startCell_inb W H)|].
    now apply Inv_started. }
  intros rounds fuel cc w HI Hcc.
  destruct (finished w) eqn:Hfin.
  { rewrite mainLoop_finished by exact Hfin. apply advanced_refl. }
  destruct (tracks_advanced W H (board w) (startCell w0) (fun _ => True)
              (gen w0)) as [Jext Jreads Jpop Jrecarve Jforward].
  pose proof (track_mainLoop W H (startCell w0) (fun _ => True) (gen w0) I I
                (advanced W H (board w)) Jext Jreads Jpop Jrecarve Jforward
                fuel rounds cc w HI (advanced_refl W H w) Hcc) as Hpost.
  destruct (mainLoop rounds fuel cc w) as [c w'|e w'|w'];
    cbn [post] in Hpost.
  - apply Hpost. congruence.
  - apply Hpost. congruence.
  - apply Hpost. congruence.
Qed.

Lemma markers_only_advance_witness :
  let w0 := World (blank 3 2) 3 2 false [] false None counting 0 [] in
  (exists cc, inb 3 2 cc
              /\ Inv 3 2 (startCell w0) (fun _ => True) (gen w0) (started w0))
  /\ forall rounds fuel cc w,
       Inv 3 2 (startCell w0) (fun _ => True) (gen w0) w -> inb 3 2 cc ->
       match mainLoop rounds fuel cc w with
       | Done _ w' | Timeout w' =>
           forall p, inb 3 2 p ->
             (cellOf (board w) p = "O"%char -> cellOf (board w') p = "O"%char)
             /\ (cellOf (board w) p = "X"%char ->
                 cellOf (board w') p = "X"%char
                 \/ cellOf (board w') p = "O"%char)
             /\ (cellOf (board w') p = "."%char ->
                 cellOf (board w) p = "."%char)
       | Raise _ _ => False
       end.
Proof.
  apply (markers_only_advance 3 2
           (World (blank 3 2) 3 2 false [] false None counting 0 [])).
  unfold ready, wfw. simpl.
  split; [split; [reflexivity|split; [reflexivity|apply (wfb_blank 3 2)]]|].
  repeat split; lia.
Defined.

(** ** Shape and size *)

Lemma Inv_stack_bound (W H : Z) (s : cell) (allowed : ascii -> Prop)
  (g : nat -> Z) (w : world) :
  Inv W H s allowed g w -> (length (path w) + 1 <= Z.to_nat (W * H))%nat.
Proof.
  intros HI. destruct (inv_count _ _ _ _ _ _ HI) as [Hc1 Hc2]. lia.
Qed.

(** X19: the buffer keeps its shape.  Whatever it holds at the start, at
    every point of a run (at the end, or when the fuel runs out) the buffer
    still has [H] rows of [W] cells and the dimensions recorded in the
    object are unchanged: the generator only ever assigns to existing
    cells. *)
Theorem buffer_keeps_its_shape (W H : Z) (rounds fuel : nat) (w : world) :
  ready W H w ->
  match procedurelyGeneratedBoard rounds fuel w with
  | Done _ w' | Timeout w' =>
      wfb W H (board w') /\ boardWidth w' = W /\ boardHeight w' = H
  | Raise _ _ => False
  end.
Proof.
  intros Hr.
  pose proof (post_run W H (fun _ => True) I I rounds fuel w Hr
                (fun _ _ => I)) as Hpost.
  destruct (procedurelyGeneratedBoard rounds fuel w) as [[] w'|e w'|w'];
    cbn [post] in Hpost.
  - destruct Hpost as (w1 & _ & _ & ((HW & HH & Hb) & _) & _). auto.
  - exact Hpost.
  - destruct (inv_wf _ _ _ _ _ _ Hpost) as (HW & HH & Hb). auto.
Qed.

Lemma buffer_keeps_its_shape_witness :
  match procedurelyGeneratedBoard 2 2
          (World [["."; "X"; "#"]; ["O"; " "; "."]]%char 3 2 false [] false
             None counting 0 []) with
  | Done _ w' | Timeout w' =>
      wfb 3 2 (board w') /\ boardWidth w' = 3 /\ boardHeight w' = 2
  | Raise _ _ => False
  end.
Proof.
  apply (buffer_keeps_its_shape 3 2 2 2
           (World [["."; "X"; "#"]; ["O"; " "; "."]]%char 3 2 false [] false
              None counting 0 [])).
  unfold ready, wfw. simpl.
  split; [split; [reflexivity|split; [reflexivity|]]|].
  - split; [reflexivity|]. repeat constructor.
  - repeat split; lia.
Defined.

(** X20: the backtrack stack is bounded by the size of the grid: at every
    point of a run it holds at most [W * H - 1] positions (the start cell is
    never on it, and no cell is on it twice). *)
Theorem stack_is_bounded (W H : Z) (rounds fuel : nat) (w : world) :
  ready W H w ->
  match procedurelyGeneratedBoard rounds fuel w with
  | Done _ w' | Timeout w' =>
      (length (path w') + 1 <= Z.to_nat (W * H))%nat
      /\ NoDup (path w') /\ (startCell w ∉ path w')
  | Raise _ _ => False
  end.
Proof.
  intros Hr.
  assert (Hinv : forall w1,
             Inv W H (startCell w) (fun _ => True) (gen w) w1 ->
             (length (path w1) + 1 <= Z.to_nat (W * H))%nat
             /\ NoDup (path w1) /\ (startCell w ∉ path w1)).
  { intros w1 HI. split; [exact (Inv_stack_bound _ _ _ _ _ _ HI)|].
    split; [exact (inv_nodup _ _ _ _ _ _ HI)|].
    intros Hin. pose proof (inv_path _ _ _ _ _ _ HI) as Hp.
    rewrite Forall_forall in Hp. destruct (Hp _ Hin) as (_ & _ & Hne).
    now apply Hne. }
  pose proof (post_run W H (fun _ => True) I I rounds fuel w Hr
                (fun _ _ => I)) as Hpost.
  destruct (procedurelyGeneratedBoard rounds fuel w) as [[] w'|e w'|w'];
    cbn [post] in Hpost.
  - destruct Hpost as (w1 & HI1 & _ & (_ & _ & Ep & _) & _).
    rewrite Ep. now apply Hinv.
  - exact Hpost.
  - now apply Hinv.
Qed.

Lemma stack_is_bounded_witness :
  match procedurelyGeneratedBoard 2 2
          (World (blank 3 2) 3 2 false [] false None counting 0 []) with
  | Done _ w' | Timeout w' =>
      (length (path w') + 1 <= Z.to_nat (3 * 2))%nat
      /\ NoDup (path w')
      /\ (startCell (World (blank 3 2) 3 2 false [] false None counting 0 [])
          ∉ path w')
  | Raise _ _ => False
  end.
Proof.
  apply (stack_is_bounded 3 2 2 2
           (World (blank 3 2) 3 2 false [] false None counting 0 [])).
  unfold ready, wfw. simpl.
  split; [split; [reflexivity|split; [reflexivity|apply (wfb_blank 3 2)]]|].
  repeat split; lia.
Defined.
